(** * Stroop treadmill test (src/app.js): trial engine and response arbitration

    A shallow embedding of the script's trial generator, its session state
    machine (start, presentation timer, tap and speech handlers, abort and
    restart), the summary statistics, the CSV writer, the time stamp and the
    export file name, followed by the properties checked against it.

    Conventions of the embedding.
    - JavaScript numbers that can be [NaN] (the results of [parseInt] and
      [parseFloat]) are values of [num]; clock readings are rationals;
      whole-millisecond reaction times, counters and indices are integers.
    - [Math.random()] is an oracle: a list of rationals consumed from the
      left.  A draw must lie in the half-open unit interval; a computation
      that needs a draw the oracle cannot give has no result ([None]).
    - The reaction time and the accuracy are computed as the script
      computes them, in IEEE 754 double precision: the result of a
      subtraction, a product or a quotient is the exact result rounded to
      the nearest double, ties to even ([binary64]).  Overflow to
      [Infinity] needs magnitudes beyond [2 ^ 1023] and is left out.  The
      other arithmetic of the model is on integers, or exact.
    - Strings are sequences of 8-bit characters, read as the code units
      U+0000 to U+00FF; the built-in string methods are given for such
      text.
    - The page is the record [Dom]: only the properties of the elements that
      the handlers read back or that carry a result are kept.
    - A handler that ends with an uncaught error keeps the assignments it
      made before the error. *)

From Stdlib Require Import ZArith QArith Qround Qabs Qpower List String Ascii Lia Bool.
From Stdlib Require Import Permutation Sorted DecimalString Lqa.
From Stdlib Require DecimalZ DecimalPos SpecFloat.
From stdpp Require Import base list.

Open Scope string_scope.
Open Scope list_scope.
Open Scope Z_scope.

(** ** JavaScript numbers and the random oracle *)

(** A number that may be [NaN]. *)
Inductive num : Type :=
| NaN
| Num (q : Q).

(** [Math.floor] and [Math.round] (halves round up) on a finite number. *)
Definition Math_floor (x : Q) : Z := Qfloor x.

Definition Math_round (x : Q) : Z := Qfloor (x + (1 # 2)).

(** *** Double precision

    The nearest double to a rational: the binade [2 ^ e <= q < 2 ^ (e + 1)]
    of [q] gives the spacing [2 ^ (e - 52)] of the doubles around it (that
    of the subnormal numbers below [2 ^ -1022]), and [q] is rounded to the
    nearest multiple of the spacing, a tie going to the even multiple. *)
Definition pow2 (e : Z) : Q := (2 ^ e)%Q.

Definition round_half_even (x : Q) : Z :=
  let f := Qfloor x in
  match (x - inject_Z f ?= 1 # 2)%Q with
  | Lt => f
  | Gt => f + 1
  | Eq => if Z.even f then f else f + 1
  end.

(** The exponent [floor (log2 q)] of a positive rational. *)
Definition binade (q : Q) : Z :=
  let e := Z.log2 (Qnum q) - Z.log2 (Zpos (Qden q)) in
  if Qle_bool (pow2 e) q then e else e - 1.

Definition binary64_pos (q : Q) : Q :=
  let e := Z.max (binade q) (-1022) in
  (inject_Z (round_half_even (q / pow2 (e - 52))) * pow2 (e - 52))%Q.

Definition binary64 (q : Q) : Q :=
  match Qnum q with
  | 0 => 0%Q
  | Zpos _ => binary64_pos q
  | Zneg _ => (- binary64_pos (- q))%Q
  end.

(** [a - b], [a * b] and [a / b] on doubles. *)
Definition number_sub (a b : Q) : Q := binary64 (a - b).

Definition number_mul (a b : Q) : Q := binary64 (a * b).

Definition number_div (a b : Q) : Q := binary64 (a / b).

(** [a < b] with [b] possibly [NaN]: every comparison with [NaN] is false. *)
Definition lt_num (a : Q) (b : num) : bool :=
  match b with
  | NaN => false
  | Num q => negb (Qle_bool q a)
  end.

(** A computation that draws from the oracle. *)
Definition Rand (A : Type) : Type := list Q -> option (A * list Q).

Definition ret {A : Type} (a : A) : Rand A := fun rs => Some (a, rs).

Definition bind {A B : Type} (m : Rand A) (k : A -> Rand B) : Rand B :=
  fun rs =>
    match m rs with
    | Some (a, rs') => k a rs'
    | None => None
    end.

Notation "'let*' x ':=' m 'in' k" := (bind m (fun x => k))
  (at level 10, x name, m at level 100, k at level 200).

(** A value [Math.random()] can return. *)
Definition unit_draw (r : Q) : bool := Qle_bool 0 r && negb (Qle_bool 1 r).

Definition Math_random : Rand Q :=
  fun rs =>
    match rs with
    | r :: rs' => if unit_draw r then Some (r, rs') else None
    | [] => None
    end.

(** [Math.floor(Math.random() * k)] as an array index. *)
Definition random_index (k : Z) : Rand nat :=
  let* r := Math_random in ret (Z.to_nat (Math_floor (r * inject_Z k))).

(** ** Helpers (lines 21-27): the Fisher-Yates [shuffle] *)

(** One pass of the loop body at index [i]: [[arr[i], arr[j]] = [arr[j], arr[i]]].
    Both indices are inside the array for every valid draw; outside it the
    model has no result. *)
Definition swap {A : Type} (i j : nat) (arr : list A) : option (list A) :=
  match arr !! i, arr !! j with
  | Some x, Some y => Some (<[j := x]> (<[i := y]> arr))
  | _, _ => None
  end.

(** The loop [for (i = arr.length - 1; i > 0; i--)], entered at index [i]. *)
Fixpoint shuffle_from {A : Type} (i : nat) (arr : list A) : Rand (list A) :=
  match i with
  | O => ret arr
  | S i' =>
      let* j := random_index (Z.of_nat i + 1) in
      match swap i j arr with
      | Some arr' => shuffle_from i' arr'
      | None => fun _ => None
      end
  end.

Definition shuffle {A : Type} (arr : list A) : Rand (list A) :=
  shuffle_from (length arr - 1)%nat arr.

(** ** Palette and trials (lines 139-144 and 195-234) *)

Record Color : Type := mkColor { name : string; css : string }.

Definition COLORS : list Color :=
  [ mkColor "RED" "#ff4d4d";
    mkColor "BLUE" "#4da3ff";
    mkColor "GREEN" "#52d69b";
    mkColor "YELLOW" "#ffd84d" ].

(** [COLORS[Math.floor(Math.random() * COLORS.length)].name] *)
Definition random_color_name : Rand string :=
  let* k := random_index (Z.of_nat (length COLORS)) in
  match COLORS !! k with
  | Some c => ret (name c)
  | None => fun _ => None
  end.

(** The loop [while (b === a) b = ...]: it ends at the first draw that
    differs from [a]; each turn consumes one element of the oracle. *)
Fixpoint redraw_until_different (a b : string) (rs : list Q) : option (string * list Q) :=
  if String.eqb b a then
    match rs with
    | [] => None
    | r :: rs' =>
        match random_color_name (r :: nil) with
        | Some (b', _) => redraw_until_different a b' rs'
        | None => None
        end
    end
  else Some (b, rs).

Definition pickTwoDifferentColorNames : Rand (string * string) :=
  let* a := random_color_name in
  let* b := random_color_name in
  let* b' := redraw_until_different a b in
  ret (a, b').

Definition getColorCssByName (nm : string) : string :=
  match find (fun x => String.eqb (name x) nm) COLORS with
  | Some c => css c
  | None => "#ffffff"
  end.

Record Trial : Type := mkTrial {
  trial_index : Z;
  word : string;
  ink : string;
  congruency : string;
  choice_left : string;
  choice_right : string;
  correct_answer : string
}.

(** The body of the generator's loop for the counter value [i]. *)
Definition generate_one (i : Z) (incongruentRate : num) : Rand Trial :=
  let* r := Math_random in
  let isIncon := lt_num r incongruentRate in
  let* wi := (if isIncon then pickTwoDifferentColorNames
              else (let* w := random_color_name in ret (w, w))) in
  let '(word, ink) := wi in
  let* opts := shuffle [word; ink] in
  match opts !! 0%nat, opts !! 1%nat with
  | Some l, Some r =>
      ret (mkTrial (i + 1) word ink
             (if String.eqb word ink then "congruent" else "incongruent")
             l r ink)
  | _, _ => fun _ => None
  end.

(** The guard [i < n] of [for (let i = 0; i < n; i++)]. *)
Definition loop_guard (i : Z) (n : num) : bool := lt_num (inject_Z i) n.

(** How often that loop runs: the number of [i = 0, 1, ...] below [n]. *)
Definition iterations (n : num) : nat :=
  match n with
  | NaN => O
  | Num q => Z.to_nat (Qceiling q)
  end.

Fixpoint generate_from (k : nat) (i : Z) (incongruentRate : num) : Rand (list Trial) :=
  match k with
  | O => ret []
  | S k' =>
      let* t := generate_one i incongruentRate in
      let* ts := generate_from k' (i + 1) incongruentRate in
      ret (t :: ts)
  end.

Definition generateTrials (n incongruentRate : num) : Rand (list Trial) :=
  generate_from (iterations n) 0 incongruentRate.


(** ** Text helpers

    Strings are sequences of 8-bit characters, the code units U+0000 to
    U+00FF.  Among them the class [\s] and the blanks [trim] removes are
    the characters from tab to carriage return, the space and the no-break
    space U+00A0; [\w] is the ASCII letters, the digits and the underscore;
    [toLowerCase] also maps the capital letters U+00C0 to U+00DE (the
    multiplication sign U+00D7 apart). *)

Definition is_space (c : ascii) : bool :=
  let n := nat_of_ascii c in
  ((9 <=? n) && (n <=? 13) || (n =? 32) || (n =? 160))%nat.

Definition is_word_char (c : ascii) : bool :=
  let n := nat_of_ascii c in
  ((48 <=? n) && (n <=? 57) || (65 <=? n) && (n <=? 90)
   || (97 <=? n) && (n <=? 122) || (n =? 95))%nat.

Definition lower_char (c : ascii) : ascii :=
  let n := nat_of_ascii c in
  if ((65 <=? n) && (n <=? 90)
      || (192 <=? n) && (n <=? 222) && negb (n =? 215))%nat
  then ascii_of_nat (n + 32) else c.

Fixpoint toLowerCase (s : string) : string :=
  match s with
  | EmptyString => EmptyString
  | String c s' => String (lower_char c) (toLowerCase s')
  end.

Fixpoint trimStart (s : string) : string :=
  match s with
  | String c s' => if is_space c then trimStart s' else s
  | EmptyString => EmptyString
  end.

Fixpoint all_space (s : string) : bool :=
  match s with
  | EmptyString => true
  | String c s' => is_space c && all_space s'
  end.

Fixpoint trimEnd (s : string) : string :=
  match s with
  | EmptyString => EmptyString
  | String c s' => if all_space s then EmptyString else String c (trimEnd s')
  end.

Definition trim (s : string) : string := trimEnd (trimStart s).

(** [s.replace(/[^\w\s-]/g, '')] *)
Fixpoint strip_punctuation (s : string) : string :=
  match s with
  | EmptyString => EmptyString
  | String c s' =>
      if is_word_char c || is_space c || Ascii.eqb c "-"%char
      then String c (strip_punctuation s')
      else strip_punctuation s'
  end.

(** [s.replace(/\s+/g, ' ')]: every maximal run of blanks becomes one space.
    [in_run] tells that the previous character was a blank of the run. *)
Fixpoint collapse_from (in_run : bool) (s : string) : string :=
  match s with
  | EmptyString => EmptyString
  | String c s' =>
      if is_space c
      then (if in_run then collapse_from true s'
            else String " "%char (collapse_from true s'))
      else String c (collapse_from false s')
  end.

Definition collapse_spaces (s : string) : string := collapse_from false s.

Definition startsWith (t k : string) : bool := String.prefix k t.

Fixpoint includes (t k : string) : bool :=
  String.prefix k t
  || match t with
     | EmptyString => false
     | String _ t' => includes t' k
     end.

Definition endsWith (t k : string) : bool :=
  (String.length k <=? String.length t)%nat
  && String.eqb (substring (String.length t - String.length k) (String.length k) t) k.

(** ** Speech mapping (lines 93-122) *)

Definition normalizeSpeech (s : option string) : string :=
  let s0 := match s with Some x => x | None => "" end in
  collapse_spaces (strip_punctuation (trim (toLowerCase s0))).

Definition speech_table : list (string * string) :=
  [ ("red", "RED"); ("read", "RED");
    ("blue", "BLUE"); ("blew", "BLUE");
    ("green", "GREEN"); ("grain", "GREEN");
    ("yellow", "YELLOW"); ("yello", "YELLOW") ].

Definition mapSpeechToColor (transcript : option string) : option string :=
  let t := normalizeSpeech transcript in
  match find (fun kv => String.eqb t (fst kv)) speech_table with
  | Some kv => Some (snd kv)
  | None =>
      match find (fun kv =>
                    includes t (" " ++ fst kv)%string
                    || startsWith t (fst kv ++ " ")%string
                    || endsWith t (" " ++ fst kv)%string) speech_table with
      | Some kv => Some (snd kv)
      | None => None
      end
  end.

(** ** Statistics helpers (lines 29-39) *)

(** [[...values].sort((x, y) => x - y)]: ascending numeric order. *)
Fixpoint insert_sorted (x : Z) (l : list Z) : list Z :=
  match l with
  | [] => [x]
  | y :: l' => if x <=? y then x :: l else y :: insert_sorted x l'
  end.

Fixpoint sort_ascending (l : list Z) : list Z :=
  match l with
  | [] => []
  | x :: l' => insert_sorted x (sort_ascending l')
  end.

Definition sum_values (values : list Z) : Z := fold_left Z.add values 0.

Definition median (values : list Z) : num :=
  match values with
  | [] => NaN
  | _ =>
      let a := sort_ascending values in
      let mid := (length a / 2)%nat in
      if (length a mod 2 =? 0)%nat
      then Num ((inject_Z (nth (mid - 1) a 0) + inject_Z (nth mid a 0)) / 2)
      else Num (inject_Z (nth mid a 0))
  end.

Definition mean (values : list Z) : num :=
  match values with
  | [] => NaN
  | _ => Num (inject_Z (sum_values values) / inject_Z (Z.of_nat (length values)))
  end.

(** ** Session state (lines 146-158) *)

Record Participant : Type := mkParticipant {
  p_id : string;
  p_condition : string;
  p_speed : string;
  p_notes : string
}.

Record Settings : Type := mkSettings {
  s_nTrials : num;
  s_inconRate : num;
  s_beep : bool;
  s_practice : bool;
  s_voice : bool
}.

(** One element of [state.results] (lines 410-426); the fields keep the
    order in which the object literal lists them. *)
Record Response : Type := mkResponse {
  r_timestamp_local : string;
  r_participant_id : string;
  r_condition : string;
  r_treadmill_speed : string;
  r_notes : string;
  r_trial : Z;
  r_word : string;
  r_ink_colour : string;
  r_congruency : string;
  r_choice_left : string;
  r_choice_right : string;
  r_correct_answer : string;
  r_response : string;
  r_correct : Z;
  r_rt_ms : Z
}.

(** The object [state].  [phase] is the string the script stores; [rec] and
    [beepFn] record whether the handle is present or [null].  No statement
    of the script assigns [state.rec]; the field is kept so that the
    handlers read as they are written, and the properties hold for either
    value. *)
Record State : Type := mkState {
  participant : Participant;
  settings : Settings;
  phase : string;
  trials : list Trial;
  results : list Response;
  idx : nat;
  t0 : Q;
  beepFn : bool;
  rec : bool;
  recActive : bool;
  answered : bool
}.

Definition initial_state : State :=
  mkState (mkParticipant "" "walk" "" "")
          (mkSettings (Num 10) (Num (7 # 10)) true false false)
          "setup" [] [] 0%nat 0%Q false false false false.

(** ** The page and the environment *)

(** A choice button: its label, its [dataset.value] and its [disabled] flag. *)
Record Button : Type := mkButton {
  textContent : string;
  value : string;
  disabled : bool
}.

Inductive Screen : Type := screenSetup | screenTest | screenDone.

Record Dom : Type := mkDom {
  visible : Screen;
  stimulus_text : string;
  stimulus_color : string;
  choiceA : Button;
  choiceB : Button;
  mTrials : string;
  mAcc : string;
  mMean : string;
  mMedian : string
}.

(** A pending [window.setTimeout] of [presentTrial]: the trial its callback
    closes over and the delay it was scheduled with. *)
Record Timer : Type := mkTimer {
  tm_trial : Trial;
  tm_delay : Z
}.

(** Calls that leave the script, in the order they are made, and the
    [TypeError] a handler can end with. *)
Inductive Call : Type :=
| call_rec_start
| call_rec_stop
| call_beep
| uncaught_TypeError.

Record World : Type := mkWorld {
  state : State;
  dom : Dom;
  timers : list Timer;
  calls : list Call
}.

(** What one handler run reads from outside: the value of
    [performance.now()], the text [nowISO()] builds from the wall clock,
    and whether [makeBeep()] and [rec.start()] succeed. *)
Record Env : Type := mkEnv {
  now : Q;
  iso : string;
  audio_ok : bool;
  rec_start_ok : bool
}.

(** The setup form as [startTest] reads it: the text fields, the three
    toggles ([voiceToggle] may be absent from the page) and the values
    [parseInt(nTrials.value, 10)] and [parseFloat(inconRate.value)]. *)
Record Inputs : Type := mkInputs {
  in_pid : string;
  in_condition : string;
  in_speed : string;
  in_notes : string;
  in_audioToggle : bool;
  in_practiceToggle : bool;
  in_voiceToggle : option bool;
  in_nTrials : num;
  in_inconRate : num
}.

(** *** Field updates *)

Definition set_participant (x : Participant) (s : State) : State :=
  mkState x (settings s) (phase s) (trials s) (results s) (idx s) (t0 s)
          (beepFn s) (rec s) (recActive s) (answered s).

Definition set_settings (x : Settings) (s : State) : State :=
  mkState (participant s) x (phase s) (trials s) (results s) (idx s) (t0 s)
          (beepFn s) (rec s) (recActive s) (answered s).

Definition set_phase (x : string) (s : State) : State :=
  mkState (participant s) (settings s) x (trials s) (results s) (idx s) (t0 s)
          (beepFn s) (rec s) (recActive s) (answered s).

Definition set_trials (x : list Trial) (s : State) : State :=
  mkState (participant s) (settings s) (phase s) x (results s) (idx s) (t0 s)
          (beepFn s) (rec s) (recActive s) (answered s).

Definition set_results (x : list Response) (s : State) : State :=
  mkState (participant s) (settings s) (phase s) (trials s) x (idx s) (t0 s)
          (beepFn s) (rec s) (recActive s) (answered s).

Definition set_idx (x : nat) (s : State) : State :=
  mkState (participant s) (settings s) (phase s) (trials s) (results s) x (t0 s)
          (beepFn s) (rec s) (recActive s) (answered s).

Definition set_t0 (x : Q) (s : State) : State :=
  mkState (participant s) (settings s) (phase s) (trials s) (results s) (idx s) x
          (beepFn s) (rec s) (recActive s) (answered s).

Definition set_beepFn (x : bool) (s : State) : State :=
  mkState (participant s) (settings s) (phase s) (trials s) (results s) (idx s) (t0 s)
          x (rec s) (recActive s) (answered s).

Definition set_recActive (x : bool) (s : State) : State :=
  mkState (participant s) (settings s) (phase s) (trials s) (results s) (idx s) (t0 s)
          (beepFn s) (rec s) x (answered s).

Definition set_answered (x : bool) (s : State) : State :=
  mkState (participant s) (settings s) (phase s) (trials s) (results s) (idx s) (t0 s)
          (beepFn s) (rec s) (recActive s) x.

Definition on_state (f : State -> State) (w : World) : World :=
  mkWorld (f (state w)) (dom w) (timers w) (calls w).

Definition on_dom (f : Dom -> Dom) (w : World) : World :=
  mkWorld (state w) (f (dom w)) (timers w) (calls w).

Definition set_timers (x : list Timer) (w : World) : World :=
  mkWorld (state w) (dom w) x (calls w).

Definition call (c : Call) (w : World) : World :=
  mkWorld (state w) (dom w) (timers w) (calls w ++ [c]).

Definition set_visible (x : Screen) (d : Dom) : Dom :=
  mkDom x (stimulus_text d) (stimulus_color d) (choiceA d) (choiceB d)
        (mTrials d) (mAcc d) (mMean d) (mMedian d).

Definition set_stimulus (txt col : string) (d : Dom) : Dom :=
  mkDom (visible d) txt col (choiceA d) (choiceB d)
        (mTrials d) (mAcc d) (mMean d) (mMedian d).

Definition set_choices (a b : Button) (d : Dom) : Dom :=
  mkDom (visible d) (stimulus_text d) (stimulus_color d) a b
        (mTrials d) (mAcc d) (mMean d) (mMedian d).

Definition set_metrics (n acc mn md : string) (d : Dom) : Dom :=
  mkDom (visible d) (stimulus_text d) (stimulus_color d) (choiceA d) (choiceB d)
        n acc mn md.

Definition set_disabled (x : bool) (b : Button) : Button :=
  mkButton (textContent b) (value b) x.

Definition set_label (x : string) (b : Button) : Button :=
  mkButton x x (disabled b).

(** ** Flow (lines 236-461) *)

Definition show (screen : Screen) (w : World) : World :=
  on_dom (set_visible screen) w.

(** [try { state.rec.stop(); } catch (e) {}] under the guard, then the flag. *)
Definition stopRecognition (w : World) : World :=
  let w1 := if rec (state w) && recActive (state w) then call call_rec_stop w else w in
  on_state (set_recActive false) w1.

Definition lockChoices (lock : bool) (w : World) : World :=
  on_dom (fun d => set_choices (set_disabled lock (choiceA d))
                               (set_disabled lock (choiceB d)) d) w.

(** The recognizer is armed only when the voice setting is on and a handle
    exists; the three handlers it assigns are [onresult], [onerror] and
    [onend] below. *)
Definition startRecognitionForTrial (e : Env) (w : World) : World :=
  if negb (s_voice (settings (state w))) || negb (rec (state w)) then w
  else
    let w1 := stopRecognition w in
    let w2 := on_state (set_recActive true) w1 in
    let w3 := call call_rec_start w2 in
    if rec_start_ok e then w3 else stopRecognition w3.

Definition setStimulus (trial : Trial) (w : World) : World :=
  on_dom (fun d =>
            set_choices (set_label (choice_left trial) (choiceA d))
                        (set_label (choice_right trial) (choiceB d))
                        (set_stimulus (word trial) (getColorCssByName (ink trial)) d)) w.

Definition startPhase (ph : string) (w : World) : World :=
  on_state (fun s => set_results [] (set_idx 0%nat (set_phase ph s))) w.

Definition string_of_Z (z : Z) : string := NilZero.string_of_int (Z.to_int z).

(** [`${Math.round(x)}`] for a number that may be [NaN]. *)
Definition round_text (x : num) : string :=
  match x with
  | NaN => "NaN"
  | Num q => string_of_Z (Math_round q)
  end.

(** The text shown for a value that is not available. *)
Definition dash : string := "—".

(** Every reaction time of the model is an integer, hence finite. *)
Definition Number_isFinite (v : Z) : bool := true.

(** [r.correct ? 1 : 0] *)
Definition correct_bit (r : Response) : Z := if r_correct r =? 0 then 0 else 1.

Definition count_correct (rs : list Response) : Z :=
  fold_left (fun s r => s + correct_bit r) rs 0.

(** The value of [acc] in [finish]: a quotient of two doubles. *)
Definition accuracy (rs : list Response) : Q :=
  match rs with
  | [] => 0%Q
  | _ => number_div (inject_Z (count_correct rs)) (inject_Z (Z.of_nat (length rs)))
  end.

(** [Math.round(acc * 100)] *)
Definition percent (acc : Q) : Z := Math_round (number_mul acc 100).

(** [finish] (lines 433-450); the preview table markup is not part of the
    model. *)
Definition finish (w : World) : World :=
  let w1 := show screenDone (stopRecognition w) in
  let rs := results (state w1) in
  let rts := List.filter Number_isFinite (map r_rt_ms rs) in
  let acc := accuracy rs in
  on_dom (set_metrics
            (string_of_Z (Z.of_nat (length rs)))
            (match rs with
             | [] => dash
             | _ => (string_of_Z (percent acc) ++ "%")%string
             end)
            (match rts with
             | [] => dash
             | _ => (round_text (mean rts) ++ " ms")%string
             end)
            (match rts with
             | [] => dash
             | _ => (round_text (median rts) ++ " ms")%string
             end)) w1.

(** The blank display of lines 380-385. *)
Definition clear_stimulus (w : World) : World :=
  on_dom (fun d =>
            set_choices (set_label "" (choiceA d)) (set_label "" (choiceB d))
                        (set_stimulus dash "rgba(234,241,255,.65)" d)) w.

(** [presentTrial] (lines 357-397).  It calls itself once, after the switch
    from practice to test; [depth] bounds that nesting.  The progress label
    and bar are written and never read, and are left out. *)
Fixpoint presentTrial_depth (depth : nat) (w : World) : Rand World :=
  match depth with
  | O => fun _ => None
  | S depth' =>
      match trials (state w) !! idx (state w) with
      | None =>
          if String.eqb (phase (state w)) "practice" then
            let w1 := startPhase "test" w in
            let* ts := generateTrials (s_nTrials (settings (state w1)))
                                      (s_inconRate (settings (state w1))) in
            presentTrial_depth depth' (on_state (set_trials ts) w1)
          else ret (finish w)
      | Some trial =>
          let w1 := lockChoices true (on_state (set_answered false) w) in
          let* r := Math_random in
          let delay := 250 + Math_floor (r * 250) in
          let w2 := clear_stimulus w1 in
          ret (set_timers (timers w2 ++ [mkTimer trial delay]) w2)
      end
  end.

Definition presentTrial : World -> Rand World := presentTrial_depth 2.

(** The callback of the presentation timer (lines 387-396), run when the
    [k]-th pending timer fires. *)
Definition timer_callback (e : Env) (trial : Trial) (w : World) : World :=
  let w1 := lockChoices false (setStimulus trial w) in
  let w2 := on_state (set_t0 (now e)) w1 in
  let w3 := startRecognitionForTrial e w2 in
  if beepFn (state w3) then call call_beep w3 else w3.

Definition fire_timer (e : Env) (k : nat) (w : World) : World :=
  match timers w !! k with
  | None => w
  | Some tm => timer_callback e (tm_trial tm) (set_timers (delete k (timers w)) w)
  end.

Definition make_response (e : Env) (s : State) (trial : Trial) (chosen : string)
    (rt_ms : Z) : Response :=
  mkResponse (iso e)
             (p_id (participant s)) (p_condition (participant s))
             (p_speed (participant s)) (p_notes (participant s))
             (trial_index trial) (word trial) (ink trial) (congruency trial)
             (choice_left trial) (choice_right trial) (correct_answer trial)
             chosen
             (if String.eqb chosen (correct_answer trial) then 1 else 0)
             rt_ms.

(** [recordAnswer] (lines 399-431).  With no current trial the read of
    [trial.correct_answer] raises a [TypeError] and the handler ends there. *)
Definition recordAnswer (e : Env) (chosen : string) (w : World) : Rand World :=
  let w1 := stopRecognition w in
  match trials (state w1) !! idx (state w1) with
  | None => ret (call uncaught_TypeError w1)
  | Some trial =>
      let rt_ms := Math_round (number_sub (now e) (t0 (state w1))) in
      let w2 :=
        if String.eqb (phase (state w1)) "test"
        then on_state (fun s => set_results
                                  (results s ++ [make_response e s trial chosen rt_ms]) s) w1
        else w1 in
      presentTrial (on_state (fun s => set_idx (idx s + 1)%nat s) w2)
  end.

(** [startTest] (lines 326-355). *)
Definition startTest (e : Env) (i : Inputs) (w : World) : Rand World :=
  let p := mkParticipant (trim (in_pid i)) (in_condition i)
                         (trim (in_speed i)) (trim (in_notes i)) in
  let st := mkSettings (in_nTrials i) (in_inconRate i) (in_audioToggle i)
                       (in_practiceToggle i)
                       (match in_voiceToggle i with Some b => b | None => false end) in
  let w1 := on_state (fun s => set_settings st (set_participant p s)) w in
  let w2 := on_state (set_beepFn (s_beep st && audio_ok e)) w1 in
  let w3 := if s_practice st then startPhase "practice" w2
            else startPhase "test" w2 in
  let* ts := (if s_practice st then generateTrials (Num 2) (s_inconRate st)
              else generateTrials (s_nTrials st) (s_inconRate st)) in
  presentTrial (show screenTest (on_state (set_trials ts) w3)).

(** ** Events (lines 463-495) *)

Inductive Choice : Type := choice_A | choice_B.

Definition button_of (c : Choice) (d : Dom) : Button :=
  match c with
  | choice_A => choiceA d
  | choice_B => choiceB d
  end.

Section Handlers.

(** What the identifier [mapSpeechToColor] denotes where the recognizer's
    result handler runs.  The function of lines 101-122 is [mapSpeechToColor]
    above; in the script its declaration stands between the braces of
    [makeBeep] (opened at line 79, closed at line 136), so the handlers are
    stated for any binding.  Were the identifier unbound where the handler
    runs, the call would raise before any assignment and leave the session
    as the binding that maps nothing leaves it. *)
Variable mapSpeech : option string -> option string.

(** [onChoice] (lines 476-485) for a click on the button [c]. *)
Definition onChoice (e : Env) (c : Choice) (w : World) : Rand World :=
  let v := value (button_of c (dom w)) in
  if String.eqb v "" then ret w
  else if answered (state w) then ret w
  else
    let w1 := on_state (set_answered true) w in
    recordAnswer e v (stopRecognition (lockChoices true w1)).

(** [rec.onresult] (lines 261-274); [transcript] is the top alternative of
    the first result, absent when the event carries none. *)
Definition onresult (e : Env) (transcript : option string) (w : World) : Rand World :=
  if answered (state w) then ret w
  else
    let transcript' := match transcript with Some t => t | None => "" end in
    match mapSpeech (Some transcript') with
    | Some mapped =>
        if String.eqb mapped "" then ret w
        else
          let w1 := on_state (set_answered true) (lockChoices true w) in
          recordAnswer e mapped (stopRecognition w1)
    | None => ret w
    end.

Definition onerror (w : World) : World := stopRecognition w.

Definition onend (w : World) : World := on_state (set_recActive false) w.

(** The click handlers of [btnAbort] (lines 466-474) and [btnRestart]
    (lines 489-495). *)
Definition reset_session (w : World) : World :=
  show screenSetup
       (on_state (fun s => set_results [] (set_trials [] (set_phase "setup" s))) w).

Definition onAbort (w : World) : World :=
  reset_session (stopRecognition (stopRecognition w)).

Definition onRestart (w : World) : World :=
  reset_session (stopRecognition w).

(** What can happen to the page: a click on Start, the [k]-th pending
    presentation timer firing, a click on a choice, the recognizer
    delivering a result, an error or its end, a click on Abort or on
    Restart. *)
Inductive Event : Type :=
| ev_start (i : Inputs)
| ev_timer (k : nat)
| ev_tap (c : Choice)
| ev_result (transcript : option string)
| ev_error
| ev_end
| ev_abort
| ev_restart.

Definition dispatch (e : Env) (ev : Event) (w : World) : Rand World :=
  match ev with
  | ev_start i => startTest e i w
  | ev_timer k => ret (fire_timer e k w)
  | ev_tap c => onChoice e c w
  | ev_result t => onresult e t w
  | ev_error => ret (onerror w)
  | ev_end => ret (onend w)
  | ev_abort => ret (onAbort w)
  | ev_restart => ret (onRestart w)
  end.

(** One event with the environment and the oracle it runs against; the
    draws it leaves unused are dropped. *)
Definition step (x : Env * list Q * Event) (w : World) : option World :=
  let '(e, rs, ev) := x in
  match dispatch e ev w rs with
  | Some (w', _) => Some w'
  | None => None
  end.

Fixpoint run (xs : list (Env * list Q * Event)) (w : World) : option World :=
  match xs with
  | [] => Some w
  | x :: xs' =>
      match step x w with
      | Some w' => run xs' w'
      | None => None
      end
  end.

End Handlers.

(** ** CSV export (lines 41-56 and 497-509) *)

(** A property value of a row object. *)
Inductive Value : Type :=
| v_string (s : string)
| v_number (z : Z)
| v_null
| v_undefined.

(** A row object whose property names are not array indices: its
    properties in the order [Object.keys] lists them. *)
Definition Row : Type := list (string * Value).

(** [r[h]] *)
Definition get_field (h : string) (r : Row) : Value :=
  match find (fun kv => String.eqb (fst kv) h) r with
  | Some kv => snd kv
  | None => v_undefined
  end.

Definition quote_char : ascii := "034"%char.
Definition comma_char : ascii := ","%char.
Definition newline_char : ascii := "010"%char.

Definition is_special (c : ascii) : bool :=
  Ascii.eqb c quote_char || Ascii.eqb c comma_char || Ascii.eqb c newline_char.

(** The test of [esc]: does [s] hold a double quote, a comma or a line feed? *)
Fixpoint has_special (s : string) : bool :=
  match s with
  | EmptyString => false
  | String c s' => is_special c || has_special s'
  end.

(** The replacement of [esc]: every double quote is written twice. *)
Fixpoint double_quotes (s : string) : string :=
  match s with
  | EmptyString => EmptyString
  | String c s' =>
      if Ascii.eqb c quote_char
      then String quote_char (String quote_char (double_quotes s'))
      else String c (double_quotes s')
  end.

(** The branch of [esc] for a string. *)
Definition esc_string (s : string) : string :=
  if has_special s
  then String quote_char (double_quotes s ++ String quote_char EmptyString)%string
  else s.

(** [String(v)] for a value that is neither [null] nor [undefined]. *)
Definition text_of (v : Value) : string :=
  match v with
  | v_string s => s
  | v_number z => string_of_Z z
  | v_null => "null"
  | v_undefined => "undefined"
  end.

Definition esc (v : Value) : string :=
  match v with
  | v_null | v_undefined => ""
  | _ => esc_string (text_of v)
  end.

Definition comma : string := String comma_char EmptyString.
Definition newline : string := String newline_char EmptyString.

(** [array.join(sep)] *)
Definition join (sep : string) (l : list string) : string := String.concat sep l.

Definition csv_line (headers : list string) (r : Row) : string :=
  join comma (map (fun h => esc (get_field h r)) headers).

Definition toCSV (rows : list Row) : string :=
  match rows with
  | [] => ""
  | r0 :: _ =>
      let headers := map fst r0 in
      join newline (join comma (map (fun h => esc (v_string h)) headers)
                      :: map (csv_line headers) rows)
  end.

(** An element of [state.results] as the object the script pushes. *)
Definition row_of_response (r : Response) : Row :=
  [ ("timestamp_local", v_string (r_timestamp_local r));
    ("participant_id", v_string (r_participant_id r));
    ("condition", v_string (r_condition r));
    ("treadmill_speed", v_string (r_treadmill_speed r));
    ("notes", v_string (r_notes r));
    ("trial", v_number (r_trial r));
    ("word", v_string (r_word r));
    ("ink_colour", v_string (r_ink_colour r));
    ("congruency", v_string (r_congruency r));
    ("choice_left", v_string (r_choice_left r));
    ("choice_right", v_string (r_choice_right r));
    ("correct_answer", v_string (r_correct_answer r));
    ("response", v_string (r_response r));
    ("correct", v_number (r_correct r));
    ("rt_ms", v_number (r_rt_ms r)) ].

(** The text handed to the download (line 498). *)
Definition export_csv (w : World) : string :=
  toCSV (map row_of_response (results (state w))).

(** *** A reader for the format

    The reader the export is checked against is a character automaton in
    the style of RFC 4180, with the line feed as record separator: a field
    that opens with a double quote runs to the next lone double quote, a
    doubled double quote inside it stands for one, and a line break at the
    very end of the text opens no further record. *)

Inductive ReadMode : Type :=
| at_field_start
| in_plain
| in_quoted
| after_quote.

(** [field] and [row] hold what has been read of the current field and
    record. *)
Fixpoint read_from (m : ReadMode) (field : string) (row : list string)
    (text : string) : list (list string) :=
  match text with
  | EmptyString =>
      match m, row with
      | at_field_start, [] => []
      | _, _ => [row ++ [field]]
      end
  | String c text' =>
      match m with
      | in_quoted =>
          if Ascii.eqb c quote_char then read_from after_quote field row text'
          else read_from in_quoted (field ++ String c EmptyString)%string row text'
      | _ =>
          if Ascii.eqb c comma_char
          then read_from at_field_start EmptyString (row ++ [field]) text'
          else if Ascii.eqb c newline_char
          then (row ++ [field]) :: read_from at_field_start EmptyString [] text'
          else if Ascii.eqb c quote_char
          then match m with
               | at_field_start => read_from in_quoted field row text'
               | after_quote =>
                   read_from in_quoted (field ++ String c EmptyString)%string row text'
               | _ => read_from in_plain (field ++ String c EmptyString)%string row text'
               end
          else read_from in_plain (field ++ String c EmptyString)%string row text'
      end
  end.

Definition csv_read (text : string) : list (list string) :=
  read_from at_field_start EmptyString [] text.

(** The text of a cell: [String(v)], and nothing for [null] and [undefined]. *)
Definition cell_text (v : Value) : string :=
  match v with
  | v_null | v_undefined => ""
  | _ => text_of v
  end.

(** The table a list of rows stands for: the property names of the first
    row, then under them the cell texts of every row. *)
Definition table_of (rows : list Row) : list (list string) :=
  match rows with
  | [] => []
  | r0 :: _ =>
      let headers := map fst r0 in
      headers :: map (fun r => map (fun h => cell_text (get_field h r)) headers) rows
  end.

(** A table written the way [toCSV] writes its lines. *)
Definition render_row (cells : list string) : string :=
  join comma (map esc_string cells).

Definition render (table : list (list string)) : string :=
  join newline (map render_row table).

Definition sample_notes : string :=
  ("slow, then " ++ String quote_char ("fast" ++ String quote_char (newline ++ "ok")))%string.

Definition sample_rows : list Row :=
  [ [("participant_id", v_string "P01"); ("notes", v_string sample_notes);
     ("rt_ms", v_number 512)];
    [("participant_id", v_string "P01"); ("notes", v_null);
     ("rt_ms", v_number (-3))] ].

(** ** Vocabulary of the statements *)

(** The oracle as an unbounded source: [segment s p n] is the list of the
    [n] draws of [s] from position [p] on. *)
Definition segment (s : nat -> Q) (p n : nat) : list Q := map s (seq p n).

Definition valid_stream (s : nat -> Q) : Prop := forall i, unit_draw (s i) = true.

(** The palette index a draw selects. *)
Definition color_index (r : Q) : nat := Z.to_nat (Math_floor (r * 4)).

(** The name of the palette entry a draw selects. *)
Definition color_name_of (r : Q) : string :=
  match COLORS !! color_index r with
  | Some c => name c
  | None => ""
  end.

(** No colour repeats for ever: after every draw comes one, sooner or
    later, that selects a different colour. *)
Definition varied (s : nat -> Q) : Prop :=
  forall p, exists j, (p < j)%nat /\ color_index (s j) <> color_index (s p).

(** [m] returns on every valid, varied stream, from every position, after
    finitely many draws, with a value that satisfies [P], and leaves the
    rest of the oracle untouched. *)
Definition returns {A : Type} (m : Rand A) (P : A -> Prop) : Prop :=
  forall s, valid_stream s -> varied s ->
  forall p, exists n a, P a /\ forall ext, m (segment s p n ++ ext) = Some (a, ext).

(** What the generator promises of each trial. *)
Definition trial_invariant (t : Trial) : Prop :=
  (congruency t = "congruent" <-> word t = ink t)
  /\ correct_answer t = ink t
  /\ Permutation [choice_left t; choice_right t] [word t; ink t].

(** The two kinds of event that can answer a trial. *)
Definition is_response (ev : Event) : bool :=
  match ev with
  | ev_tap _ | ev_result _ => true
  | _ => false
  end.

(** The colour a speech result stands for under the binding [mapSpeech]:
    none when the binding gives [null] or an empty label. *)
Definition speech_label (mapSpeech : option string -> option string)
    (transcript : option string) : option string :=
  match mapSpeech (Some (match transcript with Some t => t | None => "" end)) with
  | Some mapped => if String.eqb mapped "" then None else Some mapped
  | None => None
  end.

(** The label an event would answer with in [w], when it passes the guards
    of its handler: a click needs a non-empty [dataset.value] and a clear
    latch, a speech result a clear latch and a colour. *)
Definition accepted_label (mapSpeech : option string -> option string)
    (ev : Event) (w : World) : option string :=
  match ev with
  | ev_tap c =>
      let v := value (button_of c (dom w)) in
      if String.eqb v "" || answered (state w) then None else Some v
  | ev_result t => if answered (state w) then None else speech_label mapSpeech t
  | _ => None
  end.

(** A world in which no click can be accepted: the latch is set, or both
    choices carry no value. *)
Definition closed_to_taps (w : World) : Prop :=
  answered (state w) = true
  \/ (value (choiceA (dom w)) = "" /\ value (choiceB (dom w)) = "").

(** What one call of [presentTrial] can do: arm a timer for the current
    trial, finish, or (at the end of practice) switch to a fresh test batch
    and then do one of the two. *)
Inductive presented (w : World) : World -> Prop :=
| presented_trial trial r :
    trials (state w) !! idx (state w) = Some trial ->
    unit_draw r = true ->
    presented w
      (let w2 := clear_stimulus (lockChoices true (on_state (set_answered false) w)) in
       set_timers (timers w2 ++ [mkTimer trial (250 + Math_floor (r * 250))]) w2)
| presented_finish :
    trials (state w) !! idx (state w) = None ->
    presented w (finish w).

(** The state [recordAnswer] hands to [presentTrial] when a trial is current. *)
Definition answer_recorded (e : Env) (chosen : string) (trial : Trial) (w : World) : World :=
  let w1 := stopRecognition w in
  let rt_ms := Math_round (number_sub (now e) (t0 (state w1))) in
  let w2 :=
    if String.eqb (phase (state w1)) "test"
    then on_state (fun s => set_results
                              (results s ++ [make_response e s trial chosen rt_ms]) s) w1
    else w1 in
  on_state (fun s => set_idx (idx s + 1)%nat s) w2.

(** The world [startTest] hands to [presentTrial], given the batch [ts]. *)
Definition start_prepared (e : Env) (i : Inputs) (ts : list Trial) (w : World) : World :=
  let p := mkParticipant (trim (in_pid i)) (in_condition i)
                         (trim (in_speed i)) (trim (in_notes i)) in
  let st := mkSettings (in_nTrials i) (in_inconRate i) (in_audioToggle i)
                       (in_practiceToggle i)
                       (match in_voiceToggle i with Some b => b | None => false end) in
  let w1 := on_state (fun s => set_settings st (set_participant p s)) w in
  let w2 := on_state (set_beepFn (s_beep st && audio_ok e)) w1 in
  let w3 := if s_practice st then startPhase "practice" w2 else startPhase "test" w2 in
  show screenTest (on_state (set_trials ts) w3).

(** Where a field may end: at the end of the text, or before a comma or a
    line feed. *)
Definition field_end (rest : string) : Prop :=
  match rest with
  | EmptyString => True
  | String c _ => c = comma_char \/ c = newline_char
  end.

(** The worlds a session can reach: [reachable_at mapSpeech t w] when [w]
    results from a page with the initial [state], no timer pending and no
    call made, by a sequence of events whose clock readings start at zero or
    later and never decrease; [t] is the last reading. *)
Inductive reachable_at (mapSpeech : option string -> option string) : Q -> World -> Prop :=
| reach_initial d : reachable_at mapSpeech 0 (mkWorld initial_state d [] [])
| reach_step t w e rs ev w' :
    reachable_at mapSpeech t w ->
    (t <= now e)%Q ->
    step mapSpeech (e, rs, ev) w = Some w' ->
    reachable_at mapSpeech (now e) w'.

(** What every reachable world satisfies: the stimulus-onset time is not in
    the future, no recorded reaction time is negative, and the practice
    phase has recorded nothing. *)
Definition session_invariant (t : Q) (s : State) : Prop :=
  (t0 s <= t)%Q
  /\ Forall (fun r => 0 <= r_rt_ms r) (results s)
  /\ (phase s = "practice" -> results s = []).

(** ** A sample session

    The page before the first run, a filled-in setup form, and the worlds a
    short run passes through; the statements below are tried on them. *)

Definition sample_dom : Dom :=
  mkDom screenSetup "" "" (mkButton "" "" true) (mkButton "" "" true) "" "" "" "".

Definition initial_world : World := mkWorld initial_state sample_dom [] [].

Definition sample_inputs : Inputs :=
  mkInputs " P01 " "walk" "3.5" "first run" true false (Some false)
           (Num 2) (Num (7 # 10)).

Definition env_at (t : Q) : Env := mkEnv t "2024-05-01T10:00:00" true true.

(** Draws for two trials (RED in GREEN, then BLUE in BLUE) and one delay. *)
Definition sample_draws : list Q :=
  [1 # 4; 0; 1 # 2; 3 # 4; 9 # 10; 1 # 4; 0; 1 # 2]%Q.

Definition world_or (d : World) (o : option World) : World :=
  match o with
  | Some w => w
  | None => d
  end.

(** After the start: the first trial is scheduled, its timer pending. *)
Definition started_world : World :=
  Eval vm_compute in
    world_or initial_world
      (step mapSpeechToColor (env_at 0, sample_draws, ev_start sample_inputs) initial_world).

(** After the timer fired at clock 1000: the first trial is armed. *)
Definition armed_world : World :=
  Eval vm_compute in
    world_or initial_world
      (step mapSpeechToColor (env_at 1000, [], ev_timer 0%nat) started_world).

Definition tap_left : Env * list Q * Event :=
  (env_at 1500, [1 # 5]%Q, ev_tap choice_A).

Definition tap_right : Env * list Q * Event :=
  (env_at 1600, [1 # 5]%Q, ev_tap choice_B).

(** After the click on the left choice at clock 1500. *)
Definition answered_world : World :=
  Eval vm_compute in world_or initial_world (step mapSpeechToColor tap_left armed_world).

(** Setup forms with values outside the documented ranges, and one with
    the practice block switched on. *)
Definition out_of_range_inputs : Inputs :=
  mkInputs "P02" "walk" "" "" false false None (Num 2) (Num 7).

Definition non_numeric_inputs : Inputs :=
  mkInputs "P03" "walk" "" "" false false None NaN NaN.

Definition practice_inputs : Inputs :=
  mkInputs "P04" "stand" "" "" false true None (Num 5) (Num (7 # 10)).

(** Draws for two incongruent trials and one delay. *)
Definition incongruent_draws : list Q :=
  [1 # 4; 0; 1 # 2; 3 # 4; 9 # 10; 1 # 4; 0; 1 # 2; 1 # 2]%Q.

(** What a world shows of a started run. *)
Definition run_summary (w : World) : string * num * num * nat * Screen * nat :=
  (phase (state w), s_nTrials (settings (state w)), s_inconRate (settings (state w)),
   length (trials (state w)), visible (dom w), length (timers w)).

(** An abort while the first timer is pending, the timer firing after it,
    and a second start made before the stale timer fires. *)
Definition aborted_world : World :=
  Eval vm_compute in
    world_or initial_world
      (step mapSpeechToColor (env_at 100, [], ev_abort) started_world).


Definition stale_timer : Env * list Q * Event := (env_at 375, [], ev_timer 0%nat).

Definition early_tap : Env * list Q * Event :=
  (env_at 500, [1 # 5]%Q, ev_tap choice_A).

(** Draws for two trials (YELLOW in BLUE, then GREEN in GREEN) and one delay. *)
Definition second_draws : list Q :=
  [1 # 4; 3 # 4; 1 # 4; 0; 9 # 10; 1 # 2; 0; 1 # 2]%Q.

Definition restarted_world : World :=
  Eval vm_compute in
    world_or initial_world
      (step mapSpeechToColor (env_at 200, second_draws, ev_start sample_inputs)
            aborted_world).

(** A stream of draws that alternates between two colours. *)
Definition alternating (i : nat) : Q := if Nat.even i then 0%Q else (1 # 2)%Q.

(** [x] is the finite number [q]. *)
Definition num_is (x : num) (q : Q) : Prop :=
  match x with
  | NaN => False
  | Num v => v == q
  end.

(** Two records with the reaction times and correctness flags of the
    summary example. *)
Definition example_response (correct rt : Z) : Response :=
  mkResponse "2024-05-01T10:00:00" "P01" "walk" "3.5" "" 1 "RED" "GREEN"
             "incongruent" "RED" "GREEN" "GREEN"
             (if correct =? 0 then "RED" else "GREEN") correct rt.

Definition example_results : list Response :=
  [example_response 1 100; example_response 0 300].

(** The world after a start with the practice block switched on. *)
Definition practice_world : World :=
  Eval vm_compute in
    world_or initial_world
      (step mapSpeechToColor (env_at 0, sample_draws, ev_start practice_inputs)
            initial_world).

(** The worlds the two forms with invalid settings start. *)
Definition out_of_range_world : World :=
  Eval vm_compute in
    world_or initial_world
      (step mapSpeechToColor (env_at 0, incongruent_draws, ev_start out_of_range_inputs)
            initial_world).

Definition non_numeric_world : World :=
  Eval vm_compute in
    world_or initial_world
      (step mapSpeechToColor (env_at 0, [], ev_start non_numeric_inputs) initial_world).

(** ** Vocabulary of the further properties *)

(** [r] is the record of an answer to the trial [t]: it repeats the fields
    of the trial, and its correctness flag says whether the response is the
    trial's correct answer. *)
Definition record_of (r : Response) (t : Trial) : Prop :=
  r_trial r = trial_index t
  /\ r_word r = word t
  /\ r_ink_colour r = ink t
  /\ r_congruency r = congruency t
  /\ r_choice_left r = choice_left t
  /\ r_choice_right r = choice_right t
  /\ r_correct_answer r = correct_answer t
  /\ r_correct r = (if String.eqb (r_response r) (correct_answer t) then 1 else 0).

(** The worlds a session passes through when the page starts on the setup
    screen, whatever the events, their clock readings and their oracles. *)
Inductive session (mapSpeech : option string -> option string) : World -> Prop :=
| session_initial d :
    visible d = screenSetup -> session mapSpeech (mkWorld initial_state d [] [])
| session_step w e rs ev w' :
    session mapSpeech w ->
    step mapSpeech (e, rs, ev) w = Some w' ->
    session mapSpeech w'.

(** A call on the recognizer. *)
Definition recognizer_call (c : Call) : bool :=
  match c with
  | call_rec_start | call_rec_stop => true
  | _ => false
  end.

(** The four figures of the summary screen, as shown and as [finish]
    computes them from a results list. *)
Definition shown (d : Dom) : string * string * string * string :=
  (mTrials d, mAcc d, mMean d, mMedian d).

Definition summary_of (rs : list Response) : string * string * string * string :=
  let rts := List.filter Number_isFinite (map r_rt_ms rs) in
  (string_of_Z (Z.of_nat (length rs)),
   match rs with
   | [] => dash
   | _ => (string_of_Z (percent (accuracy rs)) ++ "%")%string
   end,
   match rts with
   | [] => dash
   | _ => (round_text (mean rts) ++ " ms")%string
   end,
   match rts with
   | [] => dash
   | _ => (round_text (median rts) ++ " ms")%string
   end).

(** The participant details a record carries. *)
Definition participant_of (r : Response) : Participant :=
  mkParticipant (r_participant_id r) (r_condition r) (r_treadmill_speed r) (r_notes r).

(** What holds in every world of a session. *)
Record session_wf (w : World) : Prop := mk_session_wf {
  wf_phase :
    phase (state w) = "setup" \/ phase (state w) = "practice"
    \/ phase (state w) = "test";
  wf_setup : phase (state w) = "setup" -> trials (state w) = [];
  wf_idx :
    phase (state w) <> "setup" -> (idx (state w) <= length (trials (state w)))%nat;
  wf_numbers :
    map trial_index (trials (state w))
    = map (fun j => Z.of_nat j + 1) (seq 0 (length (trials (state w))));
  wf_records :
    phase (state w) = "test" ->
    Forall2 record_of (results (state w)) (take (idx (state w)) (trials (state w)));
  wf_done :
    visible (dom w) = screenDone ->
    phase (state w) = "test" /\ trials (state w) !! idx (state w) = None;
  wf_summary :
    visible (dom w) = screenDone -> shown (dom w) = summary_of (results (state w));
  wf_participant :
    Forall (fun r => participant_of r = participant (state w)) (results (state w));
  wf_rec : rec (state w) = false;
  wf_recActive : recActive (state w) = false;
  wf_calls : Forall (fun c => recognizer_call c = false) (calls w)
}.

(** The sample run carried to its end: the second trial armed at clock
    2000 and answered on the right at clock 2400. *)
Definition second_armed_world : World :=
  Eval vm_compute in
    world_or initial_world
      (step mapSpeechToColor (env_at 2000, [], ev_timer 0%nat) answered_world).

Definition finished_world : World :=
  Eval vm_compute in
    world_or initial_world
      (step mapSpeechToColor (env_at 2400, [], ev_tap choice_B) second_armed_world).

(** The names of the palette, and a trial whose word and ink are among them. *)
Definition palette_names : list string := map name COLORS.

Definition palette_trial (t : Trial) : Prop :=
  In (word t) palette_names /\ In (ink t) palette_names.

(** One trial as the participant lives it: the pending timer fires with the
    environment [shown_at], then the button [tapped] is clicked with the
    environment [tapped_at]; [next_delay] is the draw the click leaves for
    the delay of the next trial. *)
Record Turn : Type := mkTurn {
  shown_at : Env;
  tapped_at : Env;
  tapped : Choice;
  next_delay : Q
}.

Definition turn_events (x : Turn) : list (Env * list Q * Event) :=
  [ (shown_at x, [], ev_timer 0%nat);
    (tapped_at x, [next_delay x], ev_tap (tapped x)) ].

Definition play (turns : list Turn) : list (Env * list Q * Event) :=
  flat_map turn_events turns.

(** The label the button [c] carries while the trial [t] is shown. *)
Definition label_of (c : Choice) (t : Trial) : string :=
  match c with
  | choice_A => choice_left t
  | choice_B => choice_right t
  end.

(** A run between two trials: the timer of the current trial is the only
    one pending and the latch is clear; after the last trial the summary is
    on the screen. *)
Definition pending (w : World) : Prop :=
  match trials (state w) !! idx (state w) with
  | Some t => answered (state w) = false /\ exists d, timers w = [mkTimer t d]
  | None => visible (dom w) = screenDone
  end.

(** The sample run as a list of turns. *)
Definition sample_turns : list Turn :=
  [ mkTurn (env_at 1000) (env_at 1500) choice_A (1 # 5);
    mkTurn (env_at 2000) (env_at 2400) choice_B (1 # 5) ].

(** ** Time stamp and export file name (lines 13-19, 70-76 and 497-509) *)

(** The fields of a [Date] the script reads, in local time; [getMonth]
    counts from 0. *)
Record DateFields : Type := mkDate {
  getFullYear : Z;
  getMonth : Z;
  getDate : Z;
  getHours : Z;
  getMinutes : Z;
  getSeconds : Z
}.

Fixpoint repeat_char (n : nat) (c : ascii) : string :=
  match n with
  | O => EmptyString
  | S n' => String c (repeat_char n' c)
  end.

(** [s.padStart(n, c)] for a one-character filler. *)
Definition padStart (n : nat) (c : ascii) (s : string) : string :=
  (repeat_char (n - String.length s) c ++ s)%string.

(** [String(n).padStart(2, '0')] *)
Definition pad2 (n : Z) : string := padStart 2 "0"%char (string_of_Z n).

Definition nowISO (d : DateFields) : string :=
  (string_of_Z (getFullYear d) ++ "-" ++ pad2 (getMonth d + 1) ++ "-" ++ pad2 (getDate d)
   ++ "T" ++ pad2 (getHours d) ++ ":" ++ pad2 (getMinutes d) ++ ":"
   ++ pad2 (getSeconds d))%string.

(** [s.replace(/\s+/g, '_')]: every maximal run of blanks becomes one
    underscore. *)
Fixpoint underscore_from (in_run : bool) (s : string) : string :=
  match s with
  | EmptyString => EmptyString
  | String c s' =>
      if is_space c
      then (if in_run then underscore_from true s'
            else String "_"%char (underscore_from true s'))
      else String c (underscore_from false s')
  end.

Definition underscore_spaces (s : string) : string := underscore_from false s.

(** The characters of the class [[a-zA-Z0-9_\-]]. *)
Definition is_filename_char (c : ascii) : bool := is_word_char c || Ascii.eqb c "-"%char.

(** [s.replace(/[^a-zA-Z0-9_\-]/g, '')] *)
Fixpoint keep_filename_chars (s : string) : string :=
  match s with
  | EmptyString => EmptyString
  | String c s' =>
      if is_filename_char c then String c (keep_filename_chars s')
      else keep_filename_chars s'
  end.

(** [s.slice(0, n)] *)
Fixpoint slice_to (n : nat) (s : string) : string :=
  match n, s with
  | S n', String c s' => String c (slice_to n' s')
  | _, _ => EmptyString
  end.

(** [a || b] for strings: the empty string is falsy. *)
Definition or_else (a b : string) : string := if String.eqb a "" then b else a.

(** [safeFilename] (lines 70-76); the argument may be [null] or
    [undefined]. *)
Definition safeFilename (s : option string) : string :=
  let s0 := match s with Some x => or_else x "stroop" | None => "stroop" end in
  slice_to 40 (keep_filename_chars (underscore_spaces (trim s0))).

(** The name the download handler builds (lines 499-506). *)
Definition download_name (p : Participant) (stamp : DateFields) : string :=
  (join "_"
        [ "stroop";
          safeFilename (Some (or_else (p_id p) "participant"));
          safeFilename (Some (or_else (p_condition p) "condition"));
          (string_of_Z (getFullYear stamp) ++ pad2 (getMonth stamp + 1)
           ++ pad2 (getDate stamp) ++ "_" ++ pad2 (getHours stamp)
           ++ pad2 (getMinutes stamp))%string ]
   ++ ".csv")%string.

(** The arguments the download handler passes to [downloadText]: file name,
    text and MIME type. *)
Definition download (stamp : DateFields) (w : World) : string * string * string :=
  (download_name (participant (state w)) stamp, export_csv w, "text/csv;charset=utf-8").

(** Every character of [s] satisfies [p]. *)
Fixpoint all_chars (p : ascii -> bool) (s : string) : bool :=
  match s with
  | EmptyString => true
  | String c s' => p c && all_chars p s'
  end.

(** A date and time as a calendar and a clock show it, with a four-digit
    year. *)
Definition calendar_date (d : DateFields) : Prop :=
  1000 <= getFullYear d <= 9999 /\ 0 <= getMonth d <= 11 /\ 1 <= getDate d <= 31
  /\ 0 <= getHours d <= 23 /\ 0 <= getMinutes d <= 59 /\ 0 <= getSeconds d <= 59.

Definition sample_stamp : DateFields := mkDate 2024 4 1 10 0 7.

(** The events a page can receive.  The handlers of the recognizer (lines
    261-284) are assigned by [startRecognitionForTrial] past its guard only
    (line 252), on the recognizer [state.rec]: a page without one never
    dispatches a speech result, an error or an end.  No statement assigns
    [state.rec], so what holds of one world of a session holds of all. *)
Definition can_receive (w : World) (ev : Event) : Prop :=
  match ev with
  | ev_result _ | ev_error | ev_end => rec (state w) = true
  | _ => True
  end.

(** A trial is armed: its stimulus is shown, the latch is clear and both
    buttons carry their label. *)
Definition armed (w : World) : Prop :=
  answered (state w) = false
  /\ value (choiceA (dom w)) <> ""
  /\ value (choiceB (dom w)) <> "".

(** The world an accepted response hands to [recordAnswer]: latch set,
    choices locked, recognition stopped. *)
Definition latched (w : World) : World :=
  stopRecognition (lockChoices true (on_state (set_answered true) w)).

(** The sample trial with clock readings that are not whole: shown at the
    double nearest to 250.4 and answered at the double nearest to 700.9. *)
Definition fractional_show : Env * list Q * Event :=
  (env_at (binary64 (2504 # 10)), [], ev_timer 0%nat).

Definition fractional_tap : Env * list Q * Event :=
  (env_at (binary64 (7009 # 10)), [1 # 5]%Q, ev_tap choice_A).

(** Forty records of which 23 are correct. *)
Definition forty_results : list Response :=
  repeat (example_response 1 100) 23 ++ repeat (example_response 0 300) 17.

(** [len] is the number of turns of [for (let i = 0; i < n; i++)]: the
    counter values 0, 1, ... that lie below [n]; none when [n] is [NaN]. *)
Definition counts_up_to (n : num) (len : nat) : Prop :=
  forall k : nat,
    (k < len)%nat <->
    match n with
    | NaN => False
    | Num q => (inject_Z (Z.of_nat k) < q)%Q
    end.

(** The practice block of the sample form answered up to its last trial,
    which is shown, and the click that answers it. *)
Definition practice_answered_world : World :=
  Eval vm_compute in
    world_or initial_world
      (run mapSpeechToColor
           [ (env_at 1000, [], ev_timer 0%nat);
             (env_at 1500, [1 # 5]%Q, ev_tap choice_A);
             (env_at 2000, [], ev_timer 0%nat) ]
           practice_world).

Definition last_practice_tap : Env * list Q * Event :=
  (env_at 2400, segment alternating 0 40, ev_tap choice_A).

Definition test_started_world : World :=
  Eval vm_compute in
    world_or initial_world (step mapSpeechToColor last_practice_tap practice_answered_world).

(** *** A check of the rounding against the Standard Library

    The value of a finite float of [SpecFloat], the library's
    specification of IEEE 754 arithmetic, the double of an integer, and
    the test that a float of the library has a given value. *)
Definition float_value (x : SpecFloat.spec_float) : option Q :=
  match x with
  | SpecFloat.S754_zero _ => Some 0%Q
  | SpecFloat.S754_finite s m e =>
      Some ((if s then -1 else 1) * inject_Z (Zpos m) * pow2 e)%Q
  | _ => None
  end.

Definition float_of_Z (z : Z) : SpecFloat.spec_float :=
  SpecFloat.binary_normalize 53 1024 z 0 false.

Definition has_value (x : SpecFloat.spec_float) (q : Q) : bool :=
  match float_value x with
  | Some v => Qeq_bool v q
  | None => false
  end.

(** The counts of correct records for up to sixty records, and clock
    readings in tenths of a millisecond. *)
Definition sample_counts : list (Z * Z) :=
  flat_map (fun n => map (fun c => (Z.of_nat c, Z.of_nat n)) (seq 0 (S n))) (seq 1 60).

Definition sample_readings : list (Z * Z) :=
  flat_map (fun a => map (fun b => (7000 + Z.of_nat a, 2500 + Z.of_nat b)) (seq 0 40))
           (seq 0 40).

(** The text of the two letters e with acute accent around a no-break
    space. *)
Definition accented_text : string :=
  String (ascii_of_nat 233) (String (ascii_of_nat 160) (String (ascii_of_nat 233) "")).

(** * Properties *)

(** ** Double precision

    What the proofs need of the rounding: it keeps the sign, it does not
    cross an integer of moderate size, and it moves a number by at most
    half the spacing of the doubles around it. *)

Lemma pow2_pos e : (0 < pow2 e)%Q.
Proof. unfold pow2. apply Qpower_0_lt. reflexivity. Qed.

Lemma pow2_nonneg_exp k : 0 <= k -> (pow2 k == inject_Z (2 ^ k))%Q.
Proof. intros H. unfold pow2. rewrite Zpower_Qpower by exact H. reflexivity. Qed.

Lemma pow2_opp k : (pow2 (- k) == / pow2 k)%Q.
Proof. unfold pow2. apply Qpower_opp. Qed.

Lemma round_half_even_cases x :
  round_half_even x = Qfloor x \/ round_half_even x = Qfloor x + 1.
Proof.
  unfold round_half_even.
  destruct (x - inject_Z (Qfloor x) ?= 1 # 2)%Q; auto.
  destruct (Z.even (Qfloor x)); auto.
Qed.

Lemma round_half_even_le x n : (x <= inject_Z n)%Q -> round_half_even x <= n.
Proof.
  intros H. unfold round_half_even.
  pose proof (Qfloor_le x) as Hf. pose proof (Qlt_floor x) as Hc.
  assert (Hfn : Qfloor x <= n).
  { rewrite Zle_Qle. lra. }
  destruct (Z.eq_dec (Qfloor x) n) as [E | E].
  - (* x = n exactly *)
    assert (Hx : (x - inject_Z (Qfloor x) == 0)%Q).
    { rewrite E in *. lra. }
    destruct (x - inject_Z (Qfloor x) ?= 1 # 2)%Q eqn:C.
    + apply Qeq_alt in C. lra.
    + lia.
    + apply Qgt_alt in C. lra.
  - assert (Qfloor x + 1 <= n) by lia.
    destruct (x - inject_Z (Qfloor x) ?= 1 # 2)%Q; try lia.
    destruct (Z.even (Qfloor x)); lia.
Qed.

Lemma round_half_even_ge x n : (inject_Z n <= x)%Q -> n <= round_half_even x.
Proof.
  intros H.
  assert (Hfn : n <= Qfloor x).
  { rewrite <- (Qfloor_Z n). apply Qfloor_resp_le. exact H. }
  destruct (round_half_even_cases x) as [-> | ->]; lia.
Qed.

Lemma round_half_even_near x :
  (x - (1 # 2) <= inject_Z (round_half_even x) <= x + (1 # 2))%Q.
Proof.
  unfold round_half_even.
  pose proof (Qfloor_le x) as Hf. pose proof (Qlt_floor x) as Hc.
  rewrite inject_Z_plus in Hc. change (inject_Z 1) with 1%Q in Hc.
  destruct (x - inject_Z (Qfloor x) ?= 1 # 2)%Q eqn:C.
  - apply Qeq_alt in C. destruct (Z.even (Qfloor x)).
    + split; lra.
    + rewrite inject_Z_plus. change (inject_Z 1) with 1%Q. split; lra.
  - apply Qlt_alt in C. split; lra.
  - apply Qgt_alt in C. rewrite inject_Z_plus. change (inject_Z 1) with 1%Q.
    split; lra.
Qed.

Lemma binary64_pos_nonneg q : (0 <= q)%Q -> (0 <= binary64_pos q)%Q.
Proof.
  intros H. unfold binary64_pos.
  pose proof (pow2_pos (Z.max (binade q) (-1022) - 52)) as Hu.
  apply Qmult_le_0_compat; [|apply Qlt_le_weak; exact Hu].
  change 0%Q with (inject_Z 0). rewrite <- Zle_Qle.
  apply round_half_even_ge. change (inject_Z 0) with 0%Q.
  apply Qle_shift_div_l; [exact Hu|]. rewrite Qmult_0_l. exact H.
Qed.

Lemma Qnum_sign q : (0 <= q)%Q <-> 0 <= Qnum q.
Proof. unfold Qle. simpl. lia. Qed.

Lemma binary64_nonneg q : (0 <= q)%Q -> (0 <= binary64 q)%Q.
Proof.
  intros H. unfold binary64. pose proof (proj1 (Qnum_sign q) H) as Hn.
  destruct (Qnum q) eqn:E; [lra | apply binary64_pos_nonneg; exact H | lia].
Qed.

Lemma number_sub_nonneg a b : (b <= a)%Q -> (0 <= number_sub a b)%Q.
Proof. intros H. apply binary64_nonneg. lra. Qed.

(** Rounding does not cross an integer of moderate size. *)
Lemma binade_le q N :
  (0 < q)%Q -> (q <= inject_Z N)%Q -> 1 <= N -> binade q <= Z.log2 N + 1.
Proof.
  intros Hq HN H1. unfold binade.
  assert (He : Z.log2 (Qnum q) - Z.log2 (Z.pos (Qden q)) <= Z.log2 N + 1).
  { assert (Hn : Qnum q <= N * Z.pos (Qden q)).
    { unfold Qle in HN. simpl in HN. lia. }
    pose proof (Z.log2_le_mono _ _ Hn) as Hl.
    pose proof (Z.log2_mul_above N (Z.pos (Qden q)) ltac:(lia) ltac:(lia)) as Hm.
    lia. }
  destruct (Qle_bool _ q); lia.
Qed.

Lemma binary64_pos_le_int q N :
  (0 < q)%Q -> (q <= inject_Z N)%Q -> 1 <= N <= 2 ^ 50 ->
  (binary64_pos q <= inject_Z N)%Q.
Proof.
  intros Hq HN [H1 H50]. unfold binary64_pos.
  set (e := Z.max (binade q) (-1022)).
  assert (He : e <= 51).
  { pose proof (binade_le q N Hq HN H1) as Hb.
    assert (Z.log2 N <= 50).
    { rewrite <- (Z.log2_pow2 50) by lia. apply Z.log2_le_mono. exact H50. }
    unfold e. lia. }
  set (k := 52 - e).
  assert (Hk : 0 <= k) by (unfold k; lia).
  set (u := pow2 (e - 52)).
  assert (Hu0 : (0 < u)%Q) by apply pow2_pos.
  assert (Hu : (inject_Z (2 ^ k) * u == 1)%Q).
  { unfold u. replace (e - 52) with (- k) by (unfold k; lia).
    rewrite pow2_opp, <- pow2_nonneg_exp by exact Hk.
    apply Qmult_inv_r. pose proof (pow2_pos k). lra. }
  assert (Hr : round_half_even (q / u) <= N * 2 ^ k).
  { apply round_half_even_le. apply Qle_shift_div_r; [exact Hu0|].
    rewrite inject_Z_mult, <- Qmult_assoc, Hu, Qmult_1_r. exact HN. }
  rewrite Zle_Qle, inject_Z_mult in Hr.
  apply Qle_trans with (inject_Z N * inject_Z (2 ^ k) * u)%Q.
  - apply Qmult_le_compat_r; [exact Hr | apply Qlt_le_weak; exact Hu0].
  - rewrite <- Qmult_assoc, Hu, Qmult_1_r. apply Qle_refl.
Qed.

Lemma binary64_le_int q N :
  (0 <= q)%Q -> (q <= inject_Z N)%Q -> 1 <= N <= 2 ^ 50 ->
  (binary64 q <= inject_Z N)%Q.
Proof.
  intros Hq HN HNr. unfold binary64.
  pose proof (proj1 (Qnum_sign q) Hq) as Hn.
  destruct (Qnum q) eqn:E.
  - change 0%Q with (inject_Z 0). rewrite <- Zle_Qle. lia.
  - apply binary64_pos_le_int; [|exact HN|exact HNr].
    unfold Qlt. simpl. rewrite E. lia.
  - lia.
Qed.

Lemma pow2_le a b : a <= b -> (pow2 a <= pow2 b)%Q.
Proof. intros H. unfold pow2. apply Qpower_le_compat_l; [exact H | discriminate]. Qed.

Lemma pow2_half k : (pow2 k * (1 # 2) == pow2 (k - 1))%Q.
Proof.
  unfold pow2. rewrite Qpower_minus by discriminate. reflexivity.
Qed.

Lemma binary64_pos_error q N :
  (0 < q)%Q -> (q <= inject_Z N)%Q -> 1 <= N <= 2 ^ 50 ->
  (Qabs (binary64_pos q - q) <= pow2 (Z.log2 N - 52))%Q.
Proof.
  intros Hq HN [H1 H50]. unfold binary64_pos.
  set (e := Z.max (binade q) (-1022)).
  assert (He : e <= Z.log2 N + 1).
  { pose proof (binade_le q N Hq HN H1) as Hb.
    pose proof (Z.log2_nonneg N). unfold e. lia. }
  set (u := pow2 (e - 52)).
  assert (Hu0 : (0 < u)%Q) by apply pow2_pos.
  pose proof (round_half_even_near (q / u)) as [Hlo Hhi].
  assert (Hqu : (q / u * u == q)%Q).
  { unfold Qdiv.
    rewrite <- Qmult_assoc, (Qmult_comm (/ u)), Qmult_inv_r, Qmult_1_r; [reflexivity|lra]. }
  assert (Hub : (u * (1 # 2) <= pow2 (Z.log2 N - 52))%Q).
  { unfold u. rewrite pow2_half. apply pow2_le. lia. }
  apply Qabs_Qle_condition.
  set (r := inject_Z (round_half_even (q / u))) in *.
  assert (H1' : ((q / u - (1 # 2)) * u <= r * u)%Q).
  { apply Qmult_le_compat_r; [exact Hlo | lra]. }
  assert (H2' : (r * u <= (q / u + (1 # 2)) * u)%Q).
  { apply Qmult_le_compat_r; [exact Hhi | lra]. }
  rewrite Qmult_plus_distr_l, Hqu in H2'.
  assert (H1'' : (q - (1 # 2) * u <= r * u)%Q).
  { assert (Heq : (q - (1 # 2) * u == (q / u - (1 # 2)) * u)%Q).
    { rewrite <- Hqu at 1. ring. }
    rewrite Heq. exact H1'. }
  split; lra.
Qed.

Lemma binary64_error q N :
  (0 <= q)%Q -> (q <= inject_Z N)%Q -> 1 <= N <= 2 ^ 50 ->
  (Qabs (binary64 q - q) <= pow2 (Z.log2 N - 52))%Q.
Proof.
  intros Hq HN HNr. unfold binary64.
  pose proof (proj1 (Qnum_sign q) Hq) as Hn.
  destruct (Qnum q) eqn:E.
  - assert (Hz : (q == 0)%Q).
    { unfold Qeq. simpl. rewrite E. reflexivity. }
    rewrite Hz. simpl. apply Qlt_le_weak, pow2_pos.
  - apply binary64_pos_error; [|exact HN|exact HNr].
    unfold Qlt. simpl. rewrite E. lia.
  - lia.
Qed.

Lemma pow2_succ e : (pow2 (e + 1) == pow2 e * 2)%Q.
Proof. unfold pow2. rewrite Qpower_plus by discriminate. reflexivity. Qed.

(** The binade of a positive rational holds it. *)
Lemma binade_spec q :
  (0 < q)%Q -> (pow2 (binade q) <= q)%Q /\ (q < pow2 (binade q + 1))%Q.
Proof.
  intros Hq. unfold binade.
  set (n := Qnum q). set (d := Z.pos (Qden q)).
  assert (Hn : 0 < n). { unfold Qlt in Hq. simpl in Hq. unfold n. lia. }
  assert (Hd : 0 < d) by (unfold d; lia).
  destruct (Z.log2_spec n Hn) as [Ha1 Ha2].
  destruct (Z.log2_spec d Hd) as [Hb1 Hb2].
  set (a := Z.log2 n) in *. set (b := Z.log2 d) in *.
  assert (Ha0 : 0 <= a) by apply Z.log2_nonneg.
  assert (Hb0 : 0 <= b) by apply Z.log2_nonneg.
  assert (Hqe : (q == inject_Z n / inject_Z d)%Q).
  { unfold n, d. destruct q as [qn qd]. simpl. apply Qmake_Qdiv. }
  assert (Hdq : (0 < inject_Z d)%Q).
  { change 0%Q with (inject_Z 0). rewrite <- Zlt_Qlt. exact Hd. }
  (* pow2 (a - b - 1) < q < pow2 (a - b + 1) *)
  assert (Hlow : (pow2 (a - b - 1) <= q)%Q).
  { replace (a - b - 1) with (a - (b + 1)) by lia.
    unfold pow2. rewrite Qpower_minus by discriminate.
    fold (pow2 a). fold (pow2 (b + 1)).
    rewrite !pow2_nonneg_exp by lia. rewrite Hqe.
    apply Qle_shift_div_l; [exact Hdq|].
    unfold Qdiv. rewrite <- Qmult_assoc, (Qmult_comm (/ _)), Qmult_assoc.
    apply Qle_shift_div_r.
    - change 0%Q with (inject_Z 0). rewrite <- Zlt_Qlt. lia.
    - rewrite <- !inject_Z_mult, <- Zle_Qle. nia. }
  assert (Hup : (q < pow2 (a - b + 1))%Q).
  { replace (a - b + 1) with (a + 1 - b) by lia.
    unfold pow2. rewrite Qpower_minus by discriminate.
    fold (pow2 (a + 1)). fold (pow2 b).
    rewrite !pow2_nonneg_exp by lia. rewrite Hqe.
    apply Qlt_shift_div_r; [exact Hdq|].
    unfold Qdiv. rewrite <- Qmult_assoc, (Qmult_comm (/ _)), Qmult_assoc.
    apply Qlt_shift_div_l.
    - change 0%Q with (inject_Z 0). rewrite <- Zlt_Qlt. lia.
    - rewrite <- !inject_Z_mult, <- Zlt_Qlt. nia. }
  destruct (Qle_bool (pow2 (a - b)) q) eqn:E.
  - apply Qle_bool_iff in E. split; [exact E | exact Hup].
  - split; [exact Hlow|].
    replace (a - b - 1 + 1) with (a - b) by lia.
    apply Qnot_le_lt. intros H. apply Qle_bool_iff in H. congruence.
Qed.

(** On the quotients and products of the accuracy for up to sixty records,
    and on the differences of clock readings in tenths of a millisecond,
    the rounding is that of the library's IEEE 754 division,
    multiplication and subtraction in double precision. *)
Lemma binary64_agrees_with_SpecFloat :
  forallb (fun cn =>
             let d := SpecFloat.SFdiv 53 1024 (float_of_Z (fst cn)) (float_of_Z (snd cn)) in
             has_value d (number_div (inject_Z (fst cn)) (inject_Z (snd cn)))
             && has_value (SpecFloat.SFmul 53 1024 d (float_of_Z 100))
                          (number_mul (number_div (inject_Z (fst cn)) (inject_Z (snd cn)))
                                      100))
          sample_counts = true
  /\ forallb (fun ab =>
                let x := SpecFloat.SFdiv 53 1024 (float_of_Z (fst ab)) (float_of_Z 10) in
                let y := SpecFloat.SFdiv 53 1024 (float_of_Z (snd ab)) (float_of_Z 10) in
                has_value (SpecFloat.SFsub 53 1024 x y)
                          (number_sub (number_div (inject_Z (fst ab)) 10)
                                      (number_div (inject_Z (snd ab)) 10)))
             sample_readings = true.
Proof. split; vm_compute; reflexivity. Qed.


(** ** The oracle and the generator *)

Lemma bind_Some {A B : Type} (m : Rand A) (k : A -> Rand B) rs b rs2 :
  bind m k rs = Some (b, rs2) ->
  exists a rs1, m rs = Some (a, rs1) /\ k a rs1 = Some (b, rs2).
Proof.
  unfold bind. destruct (m rs) as [[a rs1]|]; [|discriminate].
  intros H. exists a, rs1. split; [reflexivity | exact H].
Qed.

Lemma ret_Some {A : Type} (a b : A) rs rs' :
  ret a rs = Some (b, rs') -> b = a /\ rs' = rs.
Proof. unfold ret. intros H. inversion H. split; reflexivity. Qed.

Ltac bind_inv H :=
  let a := fresh "a" in
  let rs := fresh "rs" in
  let Hm := fresh "Hm" in
  apply bind_Some in H; destruct H as (a & rs & Hm & H).

Lemma unit_draw_range r : unit_draw r = true -> (0 <= r)%Q /\ (r < 1)%Q.
Proof.
  unfold unit_draw. intros H. apply andb_prop in H. destruct H as [H0 H1].
  split.
  - apply Qle_bool_iff. exact H0.
  - apply Qnot_le_lt. intros Hle. apply Qle_bool_iff in Hle.
    rewrite Hle in H1. discriminate.
Qed.

Lemma Math_random_inv rs r rs' :
  Math_random rs = Some (r, rs') -> rs = r :: rs' /\ unit_draw r = true.
Proof.
  destruct rs as [|x rs0]; simpl; [discriminate|].
  destruct (unit_draw x) eqn:E; [|discriminate].
  intros H. inversion H. subst. split; [reflexivity | exact E].
Qed.

(** A scaled draw, floored, is a valid index below the scale. *)
Lemma floor_scaled_range r k :
  (0 <= r)%Q -> (r < 1)%Q -> 0 < k ->
  0 <= Math_floor (r * inject_Z k) < k.
Proof.
  intros H0 H1 Hk. unfold Math_floor. split.
  - rewrite <- (Qfloor_Z 0). apply Qfloor_resp_le.
    apply Qmult_le_0_compat; [exact H0|].
    change 0%Q with (inject_Z 0). rewrite <- Zle_Qle. lia.
  - rewrite Zlt_Qlt. eapply Qle_lt_trans; [apply Qfloor_le|].
    rewrite <- (Qmult_1_l (inject_Z k)) at 2.
    apply Qmult_lt_compat_r; [|exact H1].
    change 0%Q with (inject_Z 0). rewrite <- Zlt_Qlt. exact Hk.
Qed.

Lemma random_index_inv k rs j rs' :
  0 < k -> random_index k rs = Some (j, rs') ->
  (j < Z.to_nat k)%nat /\ exists r, rs = r :: rs' /\ unit_draw r = true.
Proof.
  intros Hk H. unfold random_index in H. bind_inv H.
  apply Math_random_inv in Hm. destruct Hm as [-> Hu].
  apply ret_Some in H. destruct H as [-> ->].
  split; [|eauto].
  apply unit_draw_range in Hu. destruct Hu as [H0 H1].
  pose proof (floor_scaled_range a k H0 H1 Hk). lia.
Qed.

Lemma random_color_name_inv rs c rs' :
  random_color_name rs = Some (c, rs') ->
  In c (map name COLORS) /\ exists r, rs = r :: rs'.
Proof.
  intros H. unfold random_color_name in H. bind_inv H.
  apply random_index_inv in Hm; [|reflexivity].
  destruct Hm as [Hlt (r & -> & _)].
  destruct (COLORS !! a) as [col|] eqn:E; [|discriminate].
  apply ret_Some in H. destruct H as [-> ->].
  split; [|eauto].
  apply in_map. apply list_elem_of_In. eapply list_elem_of_lookup_2. exact E.
Qed.

(** The re-draw loop only ever returns a name different from [a]. *)
Lemma redraw_until_different_neq a rs : forall b c rs',
  redraw_until_different a b rs = Some (c, rs') -> c <> a.
Proof.
  induction rs as [|r rs IH]; intros b c rs' H; simpl in H.
  - destruct (String.eqb b a) eqn:E; [discriminate|].
    inversion H; subst. apply String.eqb_neq. exact E.
  - destruct (String.eqb b a) eqn:E.
    + destruct (random_color_name [r]) as [[b' l]|]; [|discriminate].
      eapply IH. exact H.
    + inversion H; subst. apply String.eqb_neq. exact E.
Qed.

Lemma pickTwoDifferentColorNames_neq rs a b rs' :
  pickTwoDifferentColorNames rs = Some ((a, b), rs') -> a <> b.
Proof.
  intros H. unfold pickTwoDifferentColorNames in H.
  bind_inv H. bind_inv H. bind_inv H.
  apply ret_Some in H. destruct H as [H ->]. inversion H; subst.
  apply redraw_until_different_neq in Hm1. congruence.
Qed.

(** Shuffling a pair returns the pair or its mirror image. *)
Lemma shuffle_pair {A : Type} (x y : A) rs opts rs' :
  shuffle [x; y] rs = Some (opts, rs') -> opts = [x; y] \/ opts = [y; x].
Proof.
  unfold shuffle. simpl. intros H. bind_inv H.
  apply random_index_inv in Hm; [|reflexivity]. destruct Hm as [Hlt _].
  destruct a as [|[|j]]; simpl in H.
  - apply ret_Some in H. destruct H as [-> _]. right. reflexivity.
  - apply ret_Some in H. destruct H as [-> _]. left. reflexivity.
  - simpl in Hlt. lia.
Qed.

Lemma generate_one_inv i rate rs t rs' :
  generate_one i rate rs = Some (t, rs') ->
  exists r rs0,
    rs = r :: rs0
    /\ unit_draw r = true
    /\ trial_index t = i + 1
    /\ trial_invariant t
    /\ congruency t = (if String.eqb (word t) (ink t) then "congruent" else "incongruent")
    /\ (lt_num r rate = true -> word t <> ink t)
    /\ (lt_num r rate = false -> word t = ink t).
Proof.
  intros H. unfold generate_one in H. bind_inv H.
  apply Math_random_inv in Hm. destruct Hm as [-> Hu].
  exists a, rs0. split; [reflexivity|]. split; [exact Hu|].
  bind_inv H. destruct a0 as [wd ik].
  assert (Hwi : (lt_num a rate = true -> wd <> ik)
                /\ (lt_num a rate = false -> wd = ik)).
  { destruct (lt_num a rate).
    - split; [|discriminate]. intros _.
      eapply pickTwoDifferentColorNames_neq. exact Hm.
    - split; [discriminate|]. intros _.
      bind_inv Hm. apply ret_Some in Hm. destruct Hm as [Hm _].
      inversion Hm. reflexivity. }
  bind_inv H. apply shuffle_pair in Hm0.
  assert (Hcong : (if String.eqb wd ik then "congruent" else "incongruent")
                  = "congruent" <-> wd = ik).
  { destruct (String.eqb wd ik) eqn:E.
    - apply String.eqb_eq in E. tauto.
    - apply String.eqb_neq in E. split; [discriminate | tauto]. }
  destruct Hm0 as [-> | ->]; simpl in H;
    apply ret_Some in H; destruct H as [-> _]; simpl;
    (split; [reflexivity|]); (split; [|split; [reflexivity | exact Hwi]]);
    unfold trial_invariant; simpl;
    (split; [exact Hcong|split; [reflexivity|]]).
  - reflexivity.
  - apply perm_swap.
Qed.

(** With a rate of at least one every Bernoulli draw selects incongruent. *)
Lemma lt_num_full r q : unit_draw r = true -> (1 <= q)%Q -> lt_num r (Num q) = true.
Proof.
  intros Hu Hq. apply unit_draw_range in Hu. destruct Hu as [_ H1].
  simpl. destruct (Qle_bool q r) eqn:E; [|reflexivity].
  apply Qle_bool_iff in E. exfalso.
  apply (Qlt_irrefl r). eapply Qlt_le_trans; [exact H1|].
  eapply Qle_trans; eassumption.
Qed.

(** With a rate that is [NaN] or at most zero no draw selects incongruent. *)
Lemma lt_num_none r rate :
  unit_draw r = true ->
  (rate = NaN \/ exists q, rate = Num q /\ (q <= 0)%Q) ->
  lt_num r rate = false.
Proof.
  intros Hu [-> | (q & -> & Hq)]; [reflexivity|].
  apply unit_draw_range in Hu. destruct Hu as [H0 _].
  simpl. destruct (Qle_bool q r) eqn:E; [reflexivity|].
  exfalso. assert (Hle : (q <= r)%Q) by (eapply Qle_trans; eassumption).
  apply Qle_bool_iff in Hle. congruence.
Qed.

Lemma generate_from_inv k : forall i rate rs ts rs',
  generate_from k i rate rs = Some (ts, rs') ->
  length ts = k /\ Forall trial_invariant ts
  /\ (forall q, rate = Num q -> (1 <= q)%Q ->
      Forall (fun t => word t <> ink t /\ congruency t = "incongruent") ts)
  /\ ((rate = NaN \/ exists q, rate = Num q /\ (q <= 0)%Q) ->
      Forall (fun t => word t = ink t /\ congruency t = "congruent") ts).
Proof.
  induction k as [|k IH]; intros i rate rs ts rs' H; simpl in H.
  - apply ret_Some in H. destruct H as [-> _]. repeat split; constructor.
  - bind_inv H. bind_inv H. apply ret_Some in H. destruct H as [-> _].
    apply generate_one_inv in Hm.
    destruct Hm as (r & rest & Hrs & Hu & _ & Hinv & Hc & Hin & Hco).
    apply IH in Hm0. destruct Hm0 as (Hlen & Hall & Hinc & Hcon).
    split; [simpl; congruence|]. split; [constructor; assumption|]. split.
    + intros q Hq H1. constructor; [|eapply Hinc; eassumption].
      assert (Hne : word a <> ink a).
      { apply Hin. subst rate. apply lt_num_full; assumption. }
      split; [exact Hne|]. rewrite Hc.
      apply String.eqb_neq in Hne. rewrite Hne. reflexivity.
    + intros Hr. constructor; [|apply Hcon; exact Hr].
      assert (He : word a = ink a).
      { apply Hco. apply lt_num_none; assumption. }
      split; [exact He|]. rewrite Hc.
      apply String.eqb_eq in He. rewrite He. reflexivity.
Qed.

Lemma generateTrials_inv n rate rs ts rs' :
  generateTrials n rate rs = Some (ts, rs') ->
  length ts = iterations n /\ Forall trial_invariant ts
  /\ (forall q, rate = Num q -> (1 <= q)%Q ->
      Forall (fun t => word t <> ink t /\ congruency t = "incongruent") ts)
  /\ ((rate = NaN \/ exists q, rate = Num q /\ (q <= 0)%Q) ->
      Forall (fun t => word t = ink t /\ congruency t = "congruent") ts).
Proof. unfold generateTrials. apply generate_from_inv. Qed.

(** The loop counter: [iterations n] is the first counter value at which
    the guard [i < n] fails. *)
Lemma iterations_guard n (i : nat) :
  loop_guard (Z.of_nat i) n = true <-> (i < iterations n)%nat.
Proof.
  unfold loop_guard, iterations. destruct n as [|q]; simpl.
  - split; [discriminate | lia].
  - split.
    + intros H. destruct (Qle_bool q (inject_Z (Z.of_nat i))) eqn:E; [discriminate|].
      assert (Hlt : (inject_Z (Z.of_nat i) < q)%Q).
      { apply Qnot_le_lt. intros Hle. apply Qle_bool_iff in Hle. congruence. }
      assert (Hc : (inject_Z (Z.of_nat i) < inject_Z (Qceiling q))%Q).
      { eapply Qlt_le_trans; [exact Hlt | apply Qle_ceiling]. }
      rewrite <- Zlt_Qlt in Hc. lia.
    + intros H. destruct (Qle_bool q (inject_Z (Z.of_nat i))) eqn:E; [|reflexivity].
      apply Qle_bool_iff in E. exfalso.
      assert (Hc : (inject_Z (Qceiling q - 1) < inject_Z (Z.of_nat i))%Q).
      { eapply Qlt_le_trans; [apply Qceiling_lt | exact E]. }
      rewrite <- Zlt_Qlt in Hc. lia.
Qed.

(** ** The generator returns on every varied stream *)

Lemma segment_app s p n m :
  segment s p (n + m) = segment s p n ++ segment s (p + n) m.
Proof. unfold segment. rewrite seq_app, map_app. reflexivity. Qed.

Lemma returns_ret {A : Type} (a : A) (P : A -> Prop) : P a -> returns (ret a) P.
Proof.
  intros Ha s _ _ p. exists 0%nat, a. split; [exact Ha|]. intros ext. reflexivity.
Qed.

Lemma returns_bind {A B : Type} (m : Rand A) (k : A -> Rand B) P Q :
  returns m P -> (forall a, P a -> returns (k a) Q) -> returns (bind m k) Q.
Proof.
  intros Hm Hk s Hv Hvar p.
  destruct (Hm s Hv Hvar p) as (n1 & a & Ha & H1).
  destruct (Hk a Ha s Hv Hvar (p + n1)%nat) as (n2 & b & Hb & H2).
  exists (n1 + n2)%nat, b. split; [exact Hb|]. intros ext.
  rewrite segment_app, <- app_assoc. unfold bind.
  rewrite H1. apply H2.
Qed.

Lemma returns_weaken {A : Type} (m : Rand A) (P Q : A -> Prop) :
  returns m P -> (forall a, P a -> Q a) -> returns m Q.
Proof.
  intros Hm HPQ s Hv Hvar p.
  destruct (Hm s Hv Hvar p) as (n & a & Ha & H).
  exists n, a. split; [apply HPQ; exact Ha | exact H].
Qed.

(** What a computation returns also satisfies whatever holds of all its results. *)
Lemma returns_strengthen {A : Type} (m : Rand A) (P Q : A -> Prop) :
  returns m P -> (forall rs a rs', m rs = Some (a, rs') -> Q a) ->
  returns m (fun a => P a /\ Q a).
Proof.
  intros Hm HQ s Hv Hvar p.
  destruct (Hm s Hv Hvar p) as (n & a & Ha & H).
  exists n, a. split; [|exact H].
  split; [exact Ha|]. eapply HQ. apply (H []).
Qed.

Lemma returns_Math_random : returns Math_random (fun r => unit_draw r = true).
Proof.
  intros s Hv _ p. exists 1%nat, (s p). split; [apply Hv|]. intros ext.
  simpl. rewrite Hv. reflexivity.
Qed.

Lemma returns_random_index k :
  0 < k -> returns (random_index k) (fun j => (j < Z.to_nat k)%nat).
Proof.
  intros Hk. unfold random_index.
  eapply returns_bind; [apply returns_Math_random|].
  intros r Hu. apply returns_ret.
  apply unit_draw_range in Hu. destruct Hu as [H0 H1].
  pose proof (floor_scaled_range r k H0 H1 Hk). lia.
Qed.

(** On a valid draw the palette lookup succeeds with the selected entry. *)
Lemma random_color_name_draw r ext :
  unit_draw r = true ->
  random_color_name (r :: ext) = Some (color_name_of r, ext).
Proof.
  intros Hu. unfold random_color_name, bind, random_index, bind, Math_random.
  rewrite Hu. unfold ret, color_name_of.
  apply unit_draw_range in Hu. destruct Hu as [H0 H1].
  pose proof (floor_scaled_range r 4 H0 H1 eq_refl) as Hr.
  change (inject_Z (Z.of_nat (length COLORS))) with (inject_Z 4).
  change (inject_Z 4) with 4%Q in *.
  fold (color_index r).
  assert (Hlt : (color_index r < 4)%nat) by (unfold color_index; lia).
  destruct (color_index r) as [|[|[|[|k]]]]; simpl; try lia; reflexivity.
Qed.

Lemma returns_random_color_name : returns random_color_name (fun _ => True).
Proof.
  intros s Hv _ p. exists 1%nat, (color_name_of (s p)). split; [exact I|].
  intros ext. simpl. apply random_color_name_draw. apply Hv.
Qed.

(** Draws that select different palette entries give different names. *)
Lemma color_name_of_inj r1 r2 :
  unit_draw r1 = true -> unit_draw r2 = true ->
  color_index r1 <> color_index r2 -> color_name_of r1 <> color_name_of r2.
Proof.
  intros Hu1 Hu2 Hne.
  assert (Hb : forall r, unit_draw r = true -> (color_index r < 4)%nat).
  { intros r Hu. apply unit_draw_range in Hu. destruct Hu as [H0 H1].
    pose proof (floor_scaled_range r 4 H0 H1 eq_refl) as Hr.
    change (inject_Z 4) with 4%Q in Hr. unfold color_index. lia. }
  pose proof (Hb r1 Hu1) as Hb1. pose proof (Hb r2 Hu2) as Hb2.
  unfold color_name_of.
  destruct (color_index r1) as [|[|[|[|k1]]]]; try lia;
    destruct (color_index r2) as [|[|[|[|k2]]]]; try lia;
    simpl; try discriminate; congruence.
Qed.

Lemma redraw_exit a b rs :
  b <> a -> redraw_until_different a b rs = Some (b, rs).
Proof.
  intros Hne. apply String.eqb_neq in Hne.
  destruct rs; simpl; rewrite Hne; reflexivity.
Qed.

(** The loop returns as soon as the stream offers another colour. *)
Lemma redraw_reaches s a (Hv : valid_stream s) d : forall p b,
  color_name_of (s (p + d)%nat) <> a ->
  exists n c, forall ext,
    redraw_until_different a b (segment s p n ++ ext) = Some (c, ext).
Proof.
  induction d as [|d IH]; intros p b Hd.
  - destruct (String.eqb b a) eqn:E.
    + exists 1%nat, (color_name_of (s p)). intros ext. simpl. rewrite E.
      rewrite (random_color_name_draw (s p) [] (Hv p)).
      apply redraw_exit. rewrite Nat.add_0_r in Hd. exact Hd.
    + exists 0%nat, b. intros ext. apply redraw_exit.
      apply String.eqb_neq. exact E.
  - destruct (String.eqb b a) eqn:E.
    + destruct (IH (S p) (color_name_of (s p))) as (n & c & Hn).
      { replace (S p + d)%nat with (p + S d)%nat by lia. exact Hd. }
      exists (S n), c. intros ext. simpl. rewrite E.
      rewrite (random_color_name_draw (s p) [] (Hv p)).
      apply Hn.
    + exists 0%nat, b. intros ext. apply redraw_exit.
      apply String.eqb_neq. exact E.
Qed.

Lemma returns_redraw a b : returns (redraw_until_different a b) (fun _ => True).
Proof.
  intros s Hv Hvar p.
  assert (Hj : exists d, color_name_of (s (p + d)%nat) <> a).
  { destruct (string_dec (color_name_of (s p)) a) as [Heq | Hne].
    - destruct (Hvar p) as (j & Hlt & Hidx).
      exists (j - p)%nat. replace (p + (j - p))%nat with j by lia.
      rewrite <- Heq. apply color_name_of_inj; auto.
    - exists 0%nat. rewrite Nat.add_0_r. exact Hne. }
  destruct Hj as (d & Hd).
  destruct (redraw_reaches s a Hv d p b Hd) as (n & c & Hn).
  exists n, c. split; [exact I | exact Hn].
Qed.

Lemma returns_pickTwoDifferentColorNames :
  returns pickTwoDifferentColorNames (fun _ => True).
Proof.
  unfold pickTwoDifferentColorNames.
  eapply returns_bind; [apply returns_random_color_name | intros a _].
  eapply returns_bind; [apply returns_random_color_name | intros b _].
  eapply returns_bind; [apply returns_redraw | intros c _].
  apply returns_ret. exact I.
Qed.

Lemma swap_in_range {A : Type} (i j : nat) (arr : list A) :
  (i < length arr)%nat -> (j < length arr)%nat ->
  exists arr', swap i j arr = Some arr' /\ length arr' = length arr.
Proof.
  intros Hi Hj. unfold swap.
  destruct (lookup_lt_is_Some_2 arr i Hi) as [x Hx].
  destruct (lookup_lt_is_Some_2 arr j Hj) as [y Hy].
  rewrite Hx, Hy. eexists. split; [reflexivity|].
  rewrite !length_insert. reflexivity.
Qed.

Lemma returns_shuffle_from {A : Type} i : forall (arr : list A),
  (i < length arr)%nat \/ i = 0%nat ->
  returns (shuffle_from i arr) (fun arr' => length arr' = length arr).
Proof.
  induction i as [|i IH]; intros arr Hi; simpl.
  - apply returns_ret. reflexivity.
  - destruct Hi as [Hi | Hi]; [|discriminate].
    eapply returns_bind; [apply returns_random_index; lia|].
    intros j Hj. simpl in Hj.
    destruct (swap_in_range (S i) j arr) as (arr' & Hs & Hl); [lia | lia |].
    rewrite Hs. eapply returns_weaken.
    + apply IH. left. lia.
    + intros a Ha. simpl in Ha. congruence.
Qed.

Lemma returns_shuffle {A : Type} (arr : list A) :
  returns (shuffle arr) (fun arr' => length arr' = length arr).
Proof.
  unfold shuffle. apply returns_shuffle_from.
  destruct arr; simpl; [right; reflexivity | left; lia].
Qed.

Lemma returns_generate_one i rate : returns (generate_one i rate) (fun _ => True).
Proof.
  unfold generate_one.
  eapply returns_bind; [apply returns_Math_random | intros r _].
  eapply returns_bind with (P := fun _ => True).
  - destruct (lt_num r rate).
    + apply returns_pickTwoDifferentColorNames.
    + eapply returns_bind; [apply returns_random_color_name | intros w _].
      apply returns_ret. exact I.
  - intros [wd ik] _.
    eapply returns_bind; [apply returns_shuffle|].
    intros opts Hlen. simpl in Hlen.
    destruct opts as [|l [|r' [|x opts]]]; simpl in Hlen; try discriminate.
    simpl. apply returns_ret. exact I.
Qed.

Lemma returns_generate_from k : forall i rate,
  returns (generate_from k i rate) (fun _ => True).
Proof.
  induction k as [|k IH]; intros i rate; simpl.
  - apply returns_ret. exact I.
  - eapply returns_bind; [apply returns_generate_one | intros t _].
    eapply returns_bind; [apply IH | intros ts _].
    apply returns_ret. exact I.
Qed.

(** The generator returns, and what it returns is as [generateTrials_inv] says. *)
Lemma returns_generateTrials n rate :
  returns (generateTrials n rate)
          (fun ts => length ts = iterations n /\ Forall trial_invariant ts).
Proof.
  eapply returns_weaken.
  - apply returns_strengthen with (P := fun _ => True)
      (Q := fun ts => length ts = iterations n /\ Forall trial_invariant ts).
    + apply returns_generate_from.
    + intros rs ts rs' H. apply generateTrials_inv in H. tauto.
  - intros ts [_ H]. exact H.
Qed.

(** ** The session state machine *)

Lemma stopRecognition_state w :
  state (stopRecognition w) = set_recActive false (state w).
Proof. unfold stopRecognition. destruct (rec (state w) && recActive (state w)); reflexivity. Qed.

Lemma stopRecognition_dom w : dom (stopRecognition w) = dom w.
Proof. unfold stopRecognition. destruct (rec (state w) && recActive (state w)); reflexivity. Qed.

Lemma stopRecognition_timers w : timers (stopRecognition w) = timers w.
Proof. unfold stopRecognition. destruct (rec (state w) && recActive (state w)); reflexivity. Qed.

Lemma finish_state w : state (finish w) = set_recActive false (state w).
Proof. unfold finish. simpl. apply stopRecognition_state. Qed.

Lemma finish_timers w : timers (finish w) = timers w.
Proof. unfold finish. simpl. apply stopRecognition_timers. Qed.

Lemma finish_visible w : visible (dom (finish w)) = screenDone.
Proof. reflexivity. Qed.

Lemma presentTrial_depth_1 w rs w' rs' :
  phase (state w) <> "practice" ->
  presentTrial_depth 1 w rs = Some (w', rs') -> presented w w'.
Proof.
  intros Hph H. simpl in H.
  destruct (trials (state w) !! idx (state w)) as [trial|] eqn:Et.
  - bind_inv H. apply Math_random_inv in Hm. destruct Hm as [-> Hu].
    apply ret_Some in H. destruct H as [-> _].
    apply presented_trial; assumption.
  - apply String.eqb_neq in Hph. rewrite Hph in H.
    apply ret_Some in H. destruct H as [-> _].
    apply presented_finish. exact Et.
Qed.

Lemma presentTrial_inv w rs w' rs' :
  presentTrial w rs = Some (w', rs') ->
  (presented w w'
   /\ (trials (state w) !! idx (state w) = None -> phase (state w) <> "practice"))
  \/ (trials (state w) !! idx (state w) = None
      /\ phase (state w) = "practice"
      /\ exists ts rs1,
           generateTrials (s_nTrials (settings (state w)))
                          (s_inconRate (settings (state w))) rs = Some (ts, rs1)
           /\ presented (on_state (set_trials ts) (startPhase "test" w)) w').
Proof.
  intros H. unfold presentTrial in H.
  change (presentTrial_depth 2 w) with
    (match trials (state w) !! idx (state w) with
     | None =>
         if String.eqb (phase (state w)) "practice" then
           let w1 := startPhase "test" w in
           let* ts := generateTrials (s_nTrials (settings (state w1)))
                                     (s_inconRate (settings (state w1))) in
           presentTrial_depth 1 (on_state (set_trials ts) w1)
         else ret (finish w)
     | Some trial =>
         let w1 := lockChoices true (on_state (set_answered false) w) in
         let* r := Math_random in
         let delay := 250 + Math_floor (r * 250) in
         let w2 := clear_stimulus w1 in
         ret (set_timers (timers w2 ++ [mkTimer trial delay]) w2)
     end) in H.
  destruct (trials (state w) !! idx (state w)) as [trial|] eqn:Et.
  - left. bind_inv H. apply Math_random_inv in Hm. destruct Hm as [-> Hu].
    apply ret_Some in H. destruct H as [-> _].
    split; [apply presented_trial; assumption | discriminate].
  - destruct (String.eqb (phase (state w)) "practice") eqn:Eph.
    + right. apply String.eqb_eq in Eph. split; [reflexivity|]. split; [exact Eph|].
      cbv zeta in H. bind_inv H. exists a, rs0. split; [exact Hm|].
      eapply presentTrial_depth_1; [|exact H]. simpl. discriminate.
    + left. apply ret_Some in H. destruct H as [-> _].
      split; [apply presented_finish; exact Et|].
      intros _. apply String.eqb_neq. exact Eph.
Qed.

(** Deeper nesting than two never changes the result. *)
Lemma presentTrial_depth_enough d w rs :
  presentTrial_depth (2 + d) w rs = presentTrial w rs.
Proof.
  unfold presentTrial. simpl.
  destruct (trials (state w) !! idx (state w)); [reflexivity|].
  destruct (String.eqb (phase (state w)) "practice"); [|reflexivity].
  unfold bind. simpl.
  destruct (generateTrials (s_nTrials (settings (state w)))
              (s_inconRate (settings (state w))) rs) as [[ts rs1]|]; [|reflexivity].
  destruct (ts !! 0%nat); reflexivity.
Qed.

Lemma presented_state w w' :
  presented w w' ->
  state w' = set_answered false (state w) \/ state w' = set_recActive false (state w).
Proof.
  intros [trial r Ht Hu | Ht].
  - left. reflexivity.
  - right. apply finish_state.
Qed.

Lemma presented_results w w' :
  presented w w' -> results (state w') = results (state w).
Proof. intros H. apply presented_state in H. destruct H as [-> | ->]; reflexivity. Qed.

Lemma presented_t0 w w' : presented w w' -> t0 (state w') = t0 (state w).
Proof. intros H. apply presented_state in H. destruct H as [-> | ->]; reflexivity. Qed.

Lemma presented_trials w w' :
  presented w w' ->
  trials (state w') = trials (state w) /\ phase (state w') = phase (state w)
  /\ idx (state w') = idx (state w) /\ settings (state w') = settings (state w).
Proof.
  intros H. apply presented_state in H.
  destruct H as [-> | ->]; repeat split; reflexivity.
Qed.

(** Outside the practice phase one valid draw is all [presentTrial] needs. *)
Lemma presentTrial_returns_outside_practice w r rs :
  phase (state w) <> "practice" -> unit_draw r = true ->
  exists w' rs', presentTrial w (r :: rs) = Some (w', rs') /\ presented w w'.
Proof.
  intros Hph Hu. unfold presentTrial. simpl.
  destruct (trials (state w) !! idx (state w)) as [trial|] eqn:Et.
  - unfold bind. simpl. rewrite Hu. unfold ret.
    eexists. eexists. split; [reflexivity|].
    apply presented_trial; assumption.
  - apply String.eqb_neq in Hph. rewrite Hph. unfold ret.
    eexists. eexists. split; [reflexivity|].
    apply presented_finish. exact Et.
Qed.

Lemma recordAnswer_with_trial e chosen w trial :
  trials (state w) !! idx (state w) = Some trial ->
  recordAnswer e chosen w = presentTrial (answer_recorded e chosen trial w).
Proof.
  intros Ht. unfold recordAnswer, answer_recorded.
  rewrite stopRecognition_state. simpl. rewrite Ht. reflexivity.
Qed.

Lemma recordAnswer_without_trial e chosen w rs :
  trials (state w) !! idx (state w) = None ->
  recordAnswer e chosen w rs = Some (call uncaught_TypeError (stopRecognition w), rs).
Proof.
  intros Ht. unfold recordAnswer.
  rewrite stopRecognition_state. simpl. rewrite Ht. reflexivity.
Qed.

Lemma answer_recorded_results e chosen trial w :
  results (state (answer_recorded e chosen trial w)) =
  if String.eqb (phase (state w)) "test"
  then results (state w)
         ++ [make_response e (state w) trial chosen
               (Math_round (number_sub (now e) (t0 (state w))))]
  else results (state w).
Proof.
  unfold answer_recorded, stopRecognition.
  destruct (rec (state w) && recActive (state w)); simpl;
    destruct (String.eqb (phase (state w)) "test"); reflexivity.
Qed.

Lemma answer_recorded_phase e chosen trial w :
  phase (state (answer_recorded e chosen trial w)) = phase (state w).
Proof.
  unfold answer_recorded, stopRecognition.
  destruct (rec (state w) && recActive (state w)); simpl;
    destruct (String.eqb (phase (state w)) "test"); reflexivity.
Qed.

Lemma answer_recorded_settings e chosen trial w :
  settings (state (answer_recorded e chosen trial w)) = settings (state w).
Proof.
  unfold answer_recorded, stopRecognition.
  destruct (rec (state w) && recActive (state w)); simpl;
    destruct (String.eqb (phase (state w)) "test"); reflexivity.
Qed.

Lemma answer_recorded_frame e chosen trial w :
  timers (answer_recorded e chosen trial w) = timers w
  /\ trials (state (answer_recorded e chosen trial w)) = trials (state w)
  /\ idx (state (answer_recorded e chosen trial w)) = S (idx (state w)).
Proof.
  unfold answer_recorded, stopRecognition.
  destruct (rec (state w) && recActive (state w)); simpl;
    destruct (String.eqb (phase (state w)) "test"); simpl;
    rewrite Nat.add_1_r; repeat split.
Qed.

(** C5: an answer is appended to the results exactly when the phase is
    ["test"].  For a current trial, in the test phase [recordAnswer] returns
    (one valid draw suffices) and the results grow by exactly the record of
    this answer; in any other phase whatever it returns has the results it
    started with, or none at all (the switch from practice to test empties
    them), so nothing is appended. *)
Theorem recordAnswer_appends_iff_test (e : Env) (chosen : string) (w : World) (trial : Trial) :
  trials (state w) !! idx (state w) = Some trial ->
  (phase (state w) = "test" ->
   forall r rs, unit_draw r = true ->
   exists w' rs',
     recordAnswer e chosen w (r :: rs) = Some (w', rs')
     /\ results (state w') =
        results (state w)
          ++ [make_response e (state w) trial chosen
                (Math_round (number_sub (now e) (t0 (state w))))])
  /\ (phase (state w) <> "test" ->
      forall rs w' rs', recordAnswer e chosen w rs = Some (w', rs') ->
      (results (state w') = results (state w) \/ results (state w') = [])
      /\ (length (results (state w')) <= length (results (state w)))%nat).
Proof.
  intros Ht. rewrite (recordAnswer_with_trial e chosen w trial Ht). split.
  - intros Hph r rs Hu.
    destruct (presentTrial_returns_outside_practice
                (answer_recorded e chosen trial w) r rs) as (w' & rs' & Hp & Hpres).
    { rewrite answer_recorded_phase, Hph. discriminate. }
    { exact Hu. }
    exists w', rs'. split; [exact Hp|].
    rewrite (presented_results _ _ Hpres), answer_recorded_results.
    rewrite Hph. reflexivity.
  - intros Hph rs w' rs' H.
    assert (Hres : results (state (answer_recorded e chosen trial w)) = results (state w)).
    { rewrite answer_recorded_results.
      apply String.eqb_neq in Hph. rewrite Hph. reflexivity. }
    apply presentTrial_inv in H.
    destruct H as [[Hpres _] | (_ & _ & ts & rs1 & _ & Hpres)].
    + rewrite (presented_results _ _ Hpres), Hres. split; [left; reflexivity | lia].
    + rewrite (presented_results _ _ Hpres). simpl. split; [right; reflexivity | lia].
Qed.

(** ** Reaction time *)

Lemma Math_round_nearest x :
  (inject_Z (Math_round x) - (1 # 2) <= x)%Q /\ (x < inject_Z (Math_round x) + (1 # 2))%Q.
Proof.
  unfold Math_round.
  pose proof (Qfloor_le (x + (1 # 2))) as Hlo.
  pose proof (Qlt_floor (x + (1 # 2))) as Hhi.
  rewrite inject_Z_plus in Hhi. change (inject_Z 1) with 1%Q in Hhi.
  split; lra.
Qed.

Lemma Math_round_nonneg x : (0 <= x)%Q -> 0 <= Math_round x.
Proof.
  intros Hx. unfold Math_round. rewrite <- (Qfloor_Z 0).
  apply Qfloor_resp_le. change (inject_Z 0) with 0%Q. lra.
Qed.

Lemma startRecognitionForTrial_state e w :
  exists b, state (startRecognitionForTrial e w) = set_recActive b (state w)
            /\ dom (startRecognitionForTrial e w) = dom w
            /\ timers (startRecognitionForTrial e w) = timers w.
Proof.
  unfold startRecognitionForTrial.
  destruct (negb (s_voice (settings (state w))) || negb (rec (state w))).
  - exists (recActive (state w)). destruct w as [[] ? ? ?]. repeat split.
  - destruct (rec_start_ok e).
    + exists true. unfold stopRecognition.
      destruct (rec (state w) && recActive (state w)); repeat split.
    + exists false. unfold stopRecognition. simpl.
      destruct (rec (state w) && recActive (state w)); simpl;
        destruct (rec (state w)); repeat split.
Qed.

(** The timer callback: the stimulus and both labels are set from the
    captured trial, the choices are enabled, and [t0] is the clock reading
    of this instant; nothing else of the session changes except the
    recognizer flag. *)
Lemma timer_callback_effect e trial w :
  exists b,
    state (timer_callback e trial w) = set_recActive b (set_t0 (now e) (state w))
    /\ choiceA (dom (timer_callback e trial w))
       = mkButton (choice_left trial) (choice_left trial) false
    /\ choiceB (dom (timer_callback e trial w))
       = mkButton (choice_right trial) (choice_right trial) false
    /\ timers (timer_callback e trial w) = timers w.
Proof.
  unfold timer_callback.
  set (w2 := on_state (set_t0 (now e)) (lockChoices false (setStimulus trial w))).
  destruct (startRecognitionForTrial_state e w2) as (b & Hs & Hd & Ht).
  exists b.
  assert (H : forall w3, state w3 = set_recActive b (state w2) -> dom w3 = dom w2 ->
                         timers w3 = timers w2 ->
          state (if beepFn (state w3) then call call_beep w3 else w3)
            = set_recActive b (set_t0 (now e) (state w))
          /\ choiceA (dom (if beepFn (state w3) then call call_beep w3 else w3))
             = mkButton (choice_left trial) (choice_left trial) false
          /\ choiceB (dom (if beepFn (state w3) then call call_beep w3 else w3))
             = mkButton (choice_right trial) (choice_right trial) false
          /\ timers (if beepFn (state w3) then call call_beep w3 else w3) = timers w).
  { intros w3 H1 H2 H3. destruct (beepFn (state w3)); simpl;
      rewrite H1, H2, H3; repeat split. }
  apply H; assumption.
Qed.

Lemma recordAnswer_test_results e chosen w trial rs w' rs' :
  trials (state w) !! idx (state w) = Some trial ->
  phase (state w) = "test" ->
  recordAnswer e chosen w rs = Some (w', rs') ->
  results (state w') =
  results (state w)
    ++ [make_response e (state w) trial chosen (Math_round (number_sub (now e) (t0 (state w))))].
Proof.
  intros Ht Hph H. rewrite (recordAnswer_with_trial e chosen w trial Ht) in H.
  apply presentTrial_inv in H.
  destruct H as [[Hpres _] | (_ & Hpr & _)].
  - rewrite (presented_results _ _ Hpres), answer_recorded_results, Hph. reflexivity.
  - rewrite answer_recorded_phase, Hph in Hpr. discriminate.
Qed.

(** A click that passes both guards of [onChoice]. *)
Lemma onChoice_accepted e c w :
  value (button_of c (dom w)) <> "" -> answered (state w) = false ->
  onChoice e c w =
  recordAnswer e (value (button_of c (dom w)))
    (stopRecognition (lockChoices true (on_state (set_answered true) w))).
Proof.
  intros Hv Ha. unfold onChoice.
  apply String.eqb_neq in Hv. rewrite Hv, Ha. reflexivity.
Qed.

Lemma presentTrial_keeps_t0 w rs w' rs' :
  presentTrial w rs = Some (w', rs') -> t0 (state w') = t0 (state w).
Proof.
  intros H. apply presentTrial_inv in H.
  destruct H as [[Hpres _] | (_ & _ & ts & rs1 & _ & Hpres)];
    rewrite (presented_t0 _ _ Hpres); reflexivity.
Qed.

(** ** Response arbitration *)

Section Arbitration.

Variable mapSpeech : option string -> option string.

Lemma dispatch_discarded e ev w rs :
  is_response ev = true -> accepted_label mapSpeech ev w = None ->
  dispatch mapSpeech e ev w rs = Some (w, rs).
Proof.
  destruct ev as [i|k|c|t| | | |]; simpl; try discriminate; intros _ H.
  - unfold onChoice.
    destruct (String.eqb (value (button_of c (dom w))) ""); [reflexivity|].
    destruct (answered (state w)); [reflexivity|]. discriminate.
  - unfold onresult. destruct (answered (state w)); [reflexivity|].
    unfold speech_label in H.
    destruct (mapSpeech (Some (match t with Some t0 => t0 | None => "" end))) as [m|];
      [|reflexivity].
    destruct (String.eqb m ""); [reflexivity | discriminate].
Qed.

Lemma dispatch_accepted e ev w chosen :
  accepted_label mapSpeech ev w = Some chosen ->
  dispatch mapSpeech e ev w =
  recordAnswer e chosen (stopRecognition (lockChoices true (on_state (set_answered true) w))).
Proof.
  destruct ev as [i|k|c|t| | | |]; simpl; try discriminate; intros H.
  - unfold onChoice.
    destruct (String.eqb (value (button_of c (dom w))) ""); [discriminate|].
    destruct (answered (state w)); [discriminate|].
    simpl in H. inversion H. reflexivity.
  - unfold onresult. destruct (answered (state w)); [discriminate|].
    unfold speech_label in H.
    destruct (mapSpeech (Some (match t with Some t0 => t0 | None => "" end))) as [m|];
      [|discriminate].
    destruct (String.eqb m ""); [discriminate|].
    inversion H. reflexivity.
Qed.

Lemma latch_discards ev w :
  answered (state w) = true -> accepted_label mapSpeech ev w = None.
Proof.
  intros Ha. destruct ev; simpl; try reflexivity; rewrite Ha; try reflexivity.
  rewrite orb_true_r. reflexivity.
Qed.

Lemma closed_discards_tap c w :
  closed_to_taps w -> accepted_label mapSpeech (ev_tap c) w = None.
Proof.
  intros [Ha | [HA HB]].
  - apply latch_discards. exact Ha.
  - simpl. destruct c; simpl; [rewrite HA | rewrite HB]; reflexivity.
Qed.

Lemma presented_closed w w' :
  presented w w' -> answered (state w) = true -> closed_to_taps w'.
Proof.
  intros [trial r Ht Hu | Ht] Ha.
  - right. split; reflexivity.
  - left. rewrite finish_state. exact Ha.
Qed.

Lemma recordAnswer_closed e chosen w rs w' rs' :
  answered (state w) = true ->
  recordAnswer e chosen w rs = Some (w', rs') -> closed_to_taps w'.
Proof.
  intros Ha H.
  destruct (trials (state w) !! idx (state w)) as [trial|] eqn:Et.
  - rewrite (recordAnswer_with_trial e chosen w trial Et) in H.
    assert (Ha' : answered (state (answer_recorded e chosen trial w)) = true).
    { unfold answer_recorded, stopRecognition.
      destruct (rec (state w) && recActive (state w)); simpl;
        destruct (String.eqb (phase (state w)) "test"); exact Ha. }
    apply presentTrial_inv in H.
    destruct H as [[Hpres _] | (_ & _ & ts & rs1 & _ & Hpres)].
    + eapply presented_closed; eassumption.
    + eapply presented_closed; [exact Hpres|]. exact Ha'.
  - rewrite (recordAnswer_without_trial e chosen w rs Et) in H.
    inversion H; subst. left.
    change (answered (state (stopRecognition w)) = true).
    rewrite stopRecognition_state. exact Ha.
Qed.

Lemma run_discarded xs : forall w,
  Forall (fun x => is_response (snd x) = true
                   /\ accepted_label mapSpeech (snd x) w = None) xs ->
  run mapSpeech xs w = Some w.
Proof.
  induction xs as [|[[e rs] ev] xs IH]; intros w Hall; [reflexivity|].
  inversion Hall as [|? ? [Hr Hn] Hall']; subst. simpl in Hr, Hn.
  simpl. rewrite (dispatch_discarded e ev w rs Hr Hn). apply IH. exact Hall'.
Qed.

Lemma run_app xs ys w :
  run mapSpeech (xs ++ ys) w =
  match run mapSpeech xs w with
  | Some w' => run mapSpeech ys w'
  | None => None
  end.
Proof.
  revert w. induction xs as [|x xs IH]; intros w; [reflexivity|].
  simpl. destruct (step mapSpeech x w) as [w'|]; [apply IH | reflexivity].
Qed.

Lemma run_cons x xs w :
  run mapSpeech (x :: xs) w =
  match step mapSpeech x w with
  | Some w' => run mapSpeech xs w'
  | None => None
  end.
Proof. reflexivity. Qed.

Lemma accepted_state w :
  state (stopRecognition (lockChoices true (on_state (set_answered true) w)))
  = set_recActive false (set_answered true (state w)).
Proof. rewrite stopRecognition_state. reflexivity. Qed.

End Arbitration.

(** C5 on the sample trial: the click in the test phase appends its record. *)
Lemma recordAnswer_appends_iff_test_witness :
  exists w' rs',
    recordAnswer (env_at 1500) "RED" armed_world [1 # 5]%Q = Some (w', rs')
    /\ results (state w') =
       results (state armed_world)
         ++ [make_response (env_at 1500) (state armed_world)
               (mkTrial 1 "RED" "GREEN" "incongruent" "RED" "GREEN" "GREEN") "RED"
               (Math_round (number_sub (now (env_at 1500)) (t0 (state armed_world))))].
Proof.
  apply (proj1 (recordAnswer_appends_iff_test (env_at 1500) "RED" armed_world
                  (mkTrial 1 "RED" "GREEN" "incongruent" "RED" "GREEN" "GREEN")
                  eq_refl) eq_refl (1 # 5)%Q [] eq_refl).
Defined.

(** ** Starting a run *)

Lemma startTest_unfold e i w :
  startTest e i w =
  (let* ts := (if in_practiceToggle i
               then generateTrials (Num 2) (in_inconRate i)
               else generateTrials (in_nTrials i) (in_inconRate i)) in
   presentTrial (start_prepared e i ts w)).
Proof. reflexivity. Qed.

Lemma start_prepared_state e i ts w :
  phase (state (start_prepared e i ts w))
    = (if in_practiceToggle i then "practice" else "test")
  /\ trials (state (start_prepared e i ts w)) = ts
  /\ idx (state (start_prepared e i ts w)) = 0%nat
  /\ results (state (start_prepared e i ts w)) = []
  /\ s_nTrials (settings (state (start_prepared e i ts w))) = in_nTrials i
  /\ s_inconRate (settings (state (start_prepared e i ts w))) = in_inconRate i
  /\ timers (start_prepared e i ts w) = timers w.
Proof.
  unfold start_prepared. simpl. destruct (in_practiceToggle i); repeat split.
Qed.

Lemma startTest_inv e i w rs w' rs' :
  startTest e i w rs = Some (w', rs') ->
  exists ts rs1,
    (if in_practiceToggle i
     then generateTrials (Num 2) (in_inconRate i)
     else generateTrials (in_nTrials i) (in_inconRate i)) rs = Some (ts, rs1)
    /\ presented (start_prepared e i ts w) w'.
Proof.
  rewrite startTest_unfold. intros H. bind_inv H.
  exists a, rs0. split; [exact Hm|].
  destruct (start_prepared_state e i a w) as (Hph & Htr & Hidx & _).
  apply presentTrial_inv in H.
  destruct H as [[Hpres _] | (Hnone & Hprac & _)]; [exact Hpres|].
  exfalso. rewrite Hph in Hprac.
  destruct (in_practiceToggle i); [|discriminate].
  apply generateTrials_inv in Hm. destruct Hm as (Hlen & _).
  rewrite Htr, Hidx in Hnone.
  destruct a; [discriminate Hlen | discriminate Hnone].
Qed.

Lemma returns_presentTrial_depth_1 w :
  phase (state w) <> "practice" ->
  returns (presentTrial_depth 1 w) (fun _ => True).
Proof.
  intros Hph. simpl.
  destruct (trials (state w) !! idx (state w)).
  - eapply returns_bind; [apply returns_Math_random|].
    intros r _. apply returns_ret. exact I.
  - apply String.eqb_neq in Hph. rewrite Hph. apply returns_ret. exact I.
Qed.

Lemma returns_presentTrial w : returns (presentTrial w) (fun _ => True).
Proof.
  unfold presentTrial. simpl.
  destruct (trials (state w) !! idx (state w)).
  - eapply returns_bind; [apply returns_Math_random|].
    intros r _. apply returns_ret. exact I.
  - destruct (String.eqb (phase (state w)) "practice").
    + eapply returns_bind; [apply returns_generateTrials|].
      intros ts _.
      apply (returns_presentTrial_depth_1 (on_state (set_trials ts) (startPhase "test" w))).
      simpl. discriminate.
    + apply returns_ret. exact I.
Qed.

Lemma returns_startTest e i w : returns (startTest e i w) (fun _ => True).
Proof.
  rewrite startTest_unfold.
  eapply returns_bind with (P := fun _ => True).
  - destruct (in_practiceToggle i);
      (eapply returns_weaken; [apply returns_generateTrials | intros; exact I]).
  - intros ts _. apply returns_presentTrial.
Qed.

Lemma iterations_nonpositive n :
  n = NaN \/ (exists q, n = Num q /\ (q <= 0)%Q) -> iterations n = 0%nat.
Proof.
  intros [-> | (q & -> & Hq)]; [reflexivity|]. simpl.
  apply Qceiling_resp_le in Hq. change (Qceiling 0) with 0 in Hq. lia.
Qed.

(** C7 (as amended): [startTest] validates nothing.  Whatever the trial
    count and the rate are, [NaN] included, it returns with a run started:
    both values are stored as they came and the phase is ["practice"] or
    ["test"] as the practice toggle says.  With practice off and a trial
    count that is [NaN] or not positive the test batch is empty and the
    summary screen is shown at once with no results.  A rate of one or more
    makes every trial of the batch incongruent, a rate that is [NaN] or not
    positive makes every trial congruent. *)
Theorem startTest_without_validation (e : Env) (i : Inputs) (w : World) :
  returns (startTest e i w)
    (fun w' =>
       s_nTrials (settings (state w')) = in_nTrials i
       /\ s_inconRate (settings (state w')) = in_inconRate i
       /\ phase (state w') = (if in_practiceToggle i then "practice" else "test"))
  /\ (forall rs w' rs',
        startTest e i w rs = Some (w', rs') ->
        (in_practiceToggle i = false ->
         in_nTrials i = NaN \/ (exists q, in_nTrials i = Num q /\ (q <= 0)%Q) ->
         trials (state w') = [] /\ results (state w') = []
         /\ visible (dom w') = screenDone /\ timers w' = timers w)
        /\ (forall q, in_inconRate i = Num q -> (1 <= q)%Q ->
            Forall (fun t => word t <> ink t /\ congruency t = "incongruent")
                   (trials (state w')))
        /\ (in_inconRate i = NaN \/ (exists q, in_inconRate i = Num q /\ (q <= 0)%Q) ->
            Forall (fun t => word t = ink t /\ congruency t = "congruent")
                   (trials (state w')))).
Proof.
  split.
  - assert (Hinv : forall rs w' rs', startTest e i w rs = Some (w', rs') ->
               s_nTrials (settings (state w')) = in_nTrials i
               /\ s_inconRate (settings (state w')) = in_inconRate i
               /\ phase (state w') = (if in_practiceToggle i then "practice" else "test")).
    { intros rs w' rs' H. apply startTest_inv in H.
      destruct H as (ts & rs1 & _ & Hpres).
      destruct (start_prepared_state e i ts w) as (Hph & _ & _ & _ & Hn & Hr & _).
      destruct (presented_trials _ _ Hpres) as (_ & Hph' & _ & Hset).
      rewrite Hset, Hph'. exact (conj Hn (conj Hr Hph)). }
    eapply returns_weaken.
    + exact (returns_strengthen _ (fun _ => True) _ (returns_startTest e i w) Hinv).
    + intros w' [_ H]. exact H.
  - intros rs w' rs' H. apply startTest_inv in H.
    destruct H as (ts & rs1 & Hgen & Hpres).
    destruct (start_prepared_state e i ts w) as (Hph & Htr & Hidx & Hres & _ & _ & Htm).
    destruct (presented_trials _ _ Hpres) as (Htr' & _).
    split; [|split].
    + intros Hoff Hbad. rewrite Hoff in Hgen.
      apply generateTrials_inv in Hgen. destruct Hgen as (Hlen & _).
      rewrite (iterations_nonpositive _ Hbad) in Hlen.
      destruct ts; [|discriminate Hlen].
      rewrite Htr', Htr, (presented_results _ _ Hpres), Hres.
      split; [reflexivity|]. split; [reflexivity|].
      inversion Hpres as [trial r Ht _ Hw | Ht Hw].
      * rewrite Htr, Hidx in Ht. discriminate Ht.
      * split; [apply finish_visible|]. rewrite finish_timers. exact Htm.
    + intros q Hq H1. rewrite Htr', Htr.
      destruct (in_practiceToggle i);
        apply generateTrials_inv in Hgen; destruct Hgen as (_ & _ & Hinc & _);
        eapply Hinc; eassumption.
    + intros Hbad. rewrite Htr', Htr.
      destruct (in_practiceToggle i);
        apply generateTrials_inv in Hgen; destruct Hgen as (_ & _ & _ & Hcon);
        apply Hcon; exact Hbad.
Qed.

(** C7, the claim as stated fails: a rate of 7 is neither refused nor
    clamped (the run starts in the test phase with two trials and a timer
    pending, the rate stored as 7), and a trial count and rate that are not
    numbers are not refused either (the values are stored as [NaN], the
    phase becomes ["test"] and the summary screen is shown). *)
Lemma invalid_settings_start_a_run :
  option_map run_summary
    (step mapSpeechToColor (env_at 0, incongruent_draws, ev_start out_of_range_inputs)
          initial_world)
  = Some ("test", Num 2, Num 7, 2%nat, screenTest, 1%nat)
  /\ option_map run_summary
       (step mapSpeechToColor (env_at 0, [], ev_start non_numeric_inputs) initial_world)
     = Some ("test", NaN, NaN, 0%nat, screenDone, 0%nat).
Proof. vm_compute. split; reflexivity. Qed.

(** The amended statement on the two forms: the out-of-range rate yields
    only incongruent trials, the count that is no number yields none. *)
Lemma startTest_without_validation_witness :
  Forall (fun t => word t <> ink t /\ congruency t = "incongruent")
         (trials (state out_of_range_world))
  /\ (trials (state non_numeric_world) = [] /\ results (state non_numeric_world) = []
      /\ visible (dom non_numeric_world) = screenDone
      /\ timers non_numeric_world = timers initial_world).
Proof.
  split.
  - apply (proj1 (proj2 (proj2 (startTest_without_validation
                                  (env_at 0) out_of_range_inputs initial_world)
                                incongruent_draws out_of_range_world [] eq_refl))
             7%Q eq_refl).
    discriminate.
  - apply (proj1 (proj2 (startTest_without_validation
                           (env_at 0) non_numeric_inputs initial_world)
                        [] non_numeric_world [] eq_refl) eq_refl).
    left. reflexivity.
Defined.

Lemma iterations_counts n : counts_up_to n (iterations n).
Proof.
  intros k. rewrite <- iterations_guard. unfold loop_guard, lt_num.
  destruct n as [|q]; [split; [discriminate | contradiction]|].
  destruct (Qle_bool q (inject_Z (Z.of_nat k))) eqn:E; simpl.
  - apply Qle_bool_iff in E. split; [discriminate|].
    intros H. exfalso. apply (Qlt_not_le _ _ H). exact E.
  - split; [|reflexivity]. intros _. apply Qnot_le_lt.
    intros H. apply Qle_bool_iff in H. congruence.
Qed.

Lemma iterations_whole z : iterations (Num (inject_Z z)) = Z.to_nat z.
Proof. simpl. rewrite Qceiling_Z. reflexivity. Qed.

(** The size of a batch generated for the count [n]. *)
Lemma generateTrials_length n rate rs ts rs' :
  generateTrials n rate rs = Some (ts, rs') ->
  counts_up_to n (length ts)
  /\ (forall z, n = Num (inject_Z z) -> length ts = Z.to_nat z).
Proof.
  intros H. apply generateTrials_inv in H. destruct H as (-> & _).
  split; [apply iterations_counts|].
  intros z ->. apply iterations_whole.
Qed.

(** C10: with the practice toggle on, [startTest] returns in the practice
    phase with a batch of exactly two trials, whatever the trial count is.
    The configured count sizes the test batch only: with the toggle off
    the batch of [startTest], and with it on the batch that replaces the
    practice trials when the last of them is answered, has one trial for
    each of the counter values 0, 1, ... below the count, that is [n]
    trials for a whole count [n] (none when it is negative or [NaN]), and
    the test phase starts with no record. *)
Theorem practice_block_has_two_trials :
  (forall e i w,
      in_practiceToggle i = true ->
      returns (startTest e i w)
        (fun w' => phase (state w') = "practice"
                   /\ length (trials (state w')) = 2%nat))
  /\ (forall e i w rs w' rs',
        startTest e i w rs = Some (w', rs') ->
        (in_practiceToggle i = true ->
         phase (state w') = "practice" /\ length (trials (state w')) = 2%nat
         /\ s_nTrials (settings (state w')) = in_nTrials i)
        /\ (in_practiceToggle i = false ->
            phase (state w') = "test"
            /\ counts_up_to (in_nTrials i) (length (trials (state w')))
            /\ (forall z, in_nTrials i = Num (inject_Z z) ->
                  length (trials (state w')) = Z.to_nat z)))
  /\ (forall w rs w' rs',
        phase (state w) = "practice" ->
        trials (state w) !! idx (state w) = None ->
        presentTrial w rs = Some (w', rs') ->
        phase (state w') = "test"
        /\ results (state w') = []
        /\ counts_up_to (s_nTrials (settings (state w))) (length (trials (state w')))
        /\ (forall z, s_nTrials (settings (state w)) = Num (inject_Z z) ->
              length (trials (state w')) = Z.to_nat z))
  /\ (forall mapSpeech e rs c w trial w',
        phase (state w) = "practice" ->
        trials (state w) !! idx (state w) = Some trial ->
        trials (state w) !! S (idx (state w)) = None ->
        answered (state w) = false ->
        value (button_of c (dom w)) <> "" ->
        step mapSpeech (e, rs, ev_tap c) w = Some w' ->
        phase (state w') = "test"
        /\ results (state w') = []
        /\ counts_up_to (s_nTrials (settings (state w))) (length (trials (state w')))
        /\ (forall z, s_nTrials (settings (state w)) = Num (inject_Z z) ->
              length (trials (state w')) = Z.to_nat z)).
Proof.
  assert (Hinv : forall e i w rs w' rs',
             startTest e i w rs = Some (w', rs') ->
             (in_practiceToggle i = true ->
              phase (state w') = "practice" /\ length (trials (state w')) = 2%nat
              /\ s_nTrials (settings (state w')) = in_nTrials i)
             /\ (in_practiceToggle i = false ->
                 phase (state w') = "test"
                 /\ counts_up_to (in_nTrials i) (length (trials (state w')))
                 /\ (forall z, in_nTrials i = Num (inject_Z z) ->
                       length (trials (state w')) = Z.to_nat z))).
  { intros e i w rs w' rs' H. apply startTest_inv in H.
    destruct H as (ts & rs1 & Hgen & Hpres).
    destruct (start_prepared_state e i ts w) as (Hph & Htr & _ & _ & Hn & _).
    destruct (presented_trials _ _ Hpres) as (Htr' & Hph' & _ & Hset).
    rewrite Htr', Hph', Htr, Hph, Hset, Hn.
    split; intros Hp; rewrite Hp in *.
    - apply generateTrials_inv in Hgen. destruct Hgen as (Hlen & _).
      split; [reflexivity|]. split; [exact Hlen | reflexivity].
    - split; [reflexivity|]. eapply generateTrials_length. exact Hgen. }
  assert (Hswitch : forall w rs w' rs',
             phase (state w) = "practice" ->
             trials (state w) !! idx (state w) = None ->
             presentTrial w rs = Some (w', rs') ->
             phase (state w') = "test"
             /\ results (state w') = []
             /\ counts_up_to (s_nTrials (settings (state w)))
                             (length (trials (state w')))
             /\ (forall z, s_nTrials (settings (state w)) = Num (inject_Z z) ->
                   length (trials (state w')) = Z.to_nat z)).
  { intros w rs w' rs' Hph Ht H. apply presentTrial_inv in H.
    destruct H as [[_ Hne] | (_ & _ & ts & rs1 & Hgen & Hpres)].
    - exfalso. apply (Hne Ht). exact Hph.
    - destruct (presented_trials _ _ Hpres) as (Htr' & Hph' & _).
      rewrite Htr', Hph', (presented_results _ _ Hpres). simpl.
      split; [reflexivity|]. split; [reflexivity|].
      eapply generateTrials_length. exact Hgen. }
  split; [|split; [exact Hinv | split; [exact Hswitch|]]].
  - intros e i w Hp. eapply returns_weaken.
    + exact (returns_strengthen _ (fun _ => True) _ (returns_startTest e i w) (Hinv e i w)).
    + intros w' [_ [H _]]. destruct (H Hp) as (H1 & H2 & _). split; assumption.
  - intros mapSpeech e rs c w trial w' Hph Ht Hlast Ha Hv Hstep.
    unfold step in Hstep. simpl in Hstep.
    rewrite (onChoice_accepted e c w Hv Ha) in Hstep.
    set (w1 := stopRecognition (lockChoices true (on_state (set_answered true) w))) in *.
    assert (Hs1 : state w1 = set_recActive false (set_answered true (state w))).
    { apply accepted_state. }
    assert (Ht1 : trials (state w1) !! idx (state w1) = Some trial).
    { rewrite Hs1. exact Ht. }
    rewrite (recordAnswer_with_trial e _ w1 trial Ht1) in Hstep.
    destruct (presentTrial _ rs) as [[w2 rs2]|] eqn:Hp; [|discriminate].
    inversion Hstep; subst w2. clear Hstep.
    destruct (answer_recorded_frame e (value (button_of c (dom w))) trial w1)
      as (_ & Htr2 & Hidx2).
    assert (Hset : settings (state (answer_recorded e (value (button_of c (dom w))) trial w1))
                   = settings (state w)).
    { rewrite answer_recorded_settings, Hs1. reflexivity. }
    rewrite <- Hset. eapply Hswitch; [| |exact Hp].
    + rewrite answer_recorded_phase, Hs1. exact Hph.
    + rewrite Htr2, Hidx2, Hs1. exact Hlast.
Qed.

Lemma alternating_valid : valid_stream alternating.
Proof. intros i. unfold alternating. destruct (Nat.even i); reflexivity. Qed.

Lemma alternating_varied : varied alternating.
Proof.
  intros p. exists (S p). split; [lia|].
  unfold alternating. rewrite Nat.even_succ, <- Nat.negb_even.
  destruct (Nat.even p); vm_compute; discriminate.
Qed.

(** C10 on the sample form with practice on and a trial count of five: the
    start returns on the alternating stream with two practice trials, and
    the click that answers the second of them starts a test phase of five
    trials. *)
Lemma practice_block_has_two_trials_witness :
  (exists n w',
     (phase (state w') = "practice" /\ length (trials (state w')) = 2%nat)
     /\ forall ext,
          startTest (env_at 0) practice_inputs initial_world
                    (segment alternating 0 n ++ ext) = Some (w', ext))
  /\ (phase (state practice_world) = "practice"
      /\ length (trials (state practice_world)) = 2%nat
      /\ s_nTrials (settings (state practice_world)) = Num 5)
  /\ (phase (state test_started_world) = "test"
      /\ results (state test_started_world) = []
      /\ counts_up_to (Num 5) (length (trials (state test_started_world)))
      /\ length (trials (state test_started_world)) = 5%nat).
Proof.
  split; [|split].
  - apply (proj1 practice_block_has_two_trials (env_at 0) practice_inputs initial_world
             eq_refl alternating alternating_valid alternating_varied 0%nat).
  - apply (proj1 (proj1 (proj2 practice_block_has_two_trials)
                    (env_at 0) practice_inputs initial_world sample_draws
                    practice_world [] eq_refl)).
    reflexivity.
  - destruct (proj2 (proj2 (proj2 practice_block_has_two_trials))
                mapSpeechToColor (env_at 2400) (segment alternating 0 40) choice_A
                practice_answered_world
                (mkTrial 2 "BLUE" "BLUE" "congruent" "BLUE" "BLUE" "BLUE")
                test_started_world)
      as (H1 & H2 & H3 & H4).
    + reflexivity.
    + reflexivity.
    + reflexivity.
    + reflexivity.
    + discriminate.
    + reflexivity.
    + split; [exact H1|]. split; [exact H2|]. split; [exact H3|].
      exact (H4 5 eq_refl).
Defined.

(** ** Abort and restart *)

Lemma fire_timer_frame e k w :
  phase (state (fire_timer e k w)) = phase (state w)
  /\ trials (state (fire_timer e k w)) = trials (state w)
  /\ results (state (fire_timer e k w)) = results (state w)
  /\ idx (state (fire_timer e k w)) = idx (state w)
  /\ answered (state (fire_timer e k w)) = answered (state w).
Proof.
  unfold fire_timer. destruct (timers w !! k) as [tm|]; [|repeat split].
  destruct (timer_callback_effect e (tm_trial tm) (set_timers (delete k (timers w)) w))
    as (b & -> & _). repeat split.
Qed.

Lemma reset_session_effect w :
  state (reset_session w)
  = set_results [] (set_trials [] (set_phase "setup" (state w)))
  /\ visible (dom (reset_session w)) = screenSetup
  /\ timers (reset_session w) = timers w
  /\ calls (reset_session w) = calls w.
Proof. repeat split. Qed.


Lemma stopRecognition_twice w :
  stopRecognition (stopRecognition w) = stopRecognition w.
Proof.
  unfold stopRecognition.
  destruct (rec (state w) && recActive (state w)); simpl;
    rewrite andb_false_r; reflexivity.
Qed.




(** ** The claims about the generator *)

(** C3: every trial [generateTrials] produces, for any count and any rate,
    is labelled congruent exactly when its word is its ink, has the ink as
    its correct answer, and offers the word and the ink as its two choices,
    in one order or the other. *)
Theorem generateTrials_trial_invariant (n rate : num) (rs : list Q)
    (ts : list Trial) (rs' : list Q) :
  generateTrials n rate rs = Some (ts, rs') ->
  Forall (fun t =>
            (congruency t = "congruent" <-> word t = ink t)
            /\ correct_answer t = ink t
            /\ Permutation [choice_left t; choice_right t] [word t; ink t]) ts.
Proof.
  intros H. apply generateTrials_inv in H. destruct H as (_ & H & _). exact H.
Qed.

(** C3 on the batch of the sample session. *)
Lemma generateTrials_trial_invariant_witness :
  Forall (fun t =>
            (congruency t = "congruent" <-> word t = ink t)
            /\ correct_answer t = ink t
            /\ Permutation [choice_left t; choice_right t] [word t; ink t])
         (trials (state started_world)).
Proof.
  apply (generateTrials_trial_invariant (Num 2) (Num (7 # 10)) sample_draws
           (trials (state started_world)) [(1 # 2)%Q]).
  reflexivity.
Defined.

(** C4: a trial whose Bernoulli draw selects incongruent has a word that
    differs from its ink, because the second colour is drawn again until it
    differs from the first.  With a rate of one every draw selects
    incongruent, so whatever the generator returns has only such trials,
    as many as the loop runs; and for a count of three it does return, on
    every stream of valid draws in which no colour repeats for ever, with
    exactly three trials, all of them with word and ink different. *)
Theorem incongruent_trials_differ :
  (forall i rate r rs t rs',
      generate_one i rate (r :: rs) = Some (t, rs') ->
      lt_num r rate = true -> word t <> ink t)
  /\ (forall n rs ts rs',
        generateTrials n (Num 1) rs = Some (ts, rs') ->
        length ts = iterations n /\ Forall (fun t => word t <> ink t) ts)
  /\ returns (generateTrials (Num 3) (Num 1))
       (fun ts => length ts = 3%nat /\ Forall (fun t => word t <> ink t) ts).
Proof.
  assert (Hall : forall n rs ts rs',
             generateTrials n (Num 1) rs = Some (ts, rs') ->
             length ts = iterations n /\ Forall (fun t => word t <> ink t) ts).
  { intros n rs ts rs' H. apply generateTrials_inv in H.
    destruct H as (Hlen & _ & Hinc & _). split; [exact Hlen|].
    eapply Forall_impl; [apply (Hinc 1%Q eq_refl); discriminate|].
    intros t [Hne _]. exact Hne. }
  split; [|split].
  - intros i rate r rs t rs' H Hlt. apply generate_one_inv in H.
    destruct H as (r0 & rs0 & Hrs & _ & _ & _ & _ & Hin & _).
    inversion Hrs; subst. apply Hin. exact Hlt.
  - exact Hall.
  - eapply returns_weaken.
    + exact (returns_strengthen _ (fun _ => True) _
               (returns_generate_from 3 0 (Num 1)) (Hall (Num 3))).
    + intros ts [_ H]. exact H.
Qed.

(** C4 on the alternating stream. *)
Lemma incongruent_trials_differ_witness :
  exists n ts,
    (length ts = 3%nat /\ Forall (fun t => word t <> ink t) ts)
    /\ forall ext, generateTrials (Num 3) (Num 1) (segment alternating 0 n ++ ext)
                   = Some (ts, ext).
Proof.
  apply (proj2 (proj2 incongruent_trials_differ)
           alternating alternating_valid alternating_varied 0%nat).
Defined.

(** ** Summary statistics *)

Lemma insert_sorted_perm x l : Permutation (insert_sorted x l) (x :: l).
Proof.
  induction l as [|y l IH]; simpl; [reflexivity|].
  destruct (x <=? y); [reflexivity|].
  rewrite IH. apply perm_swap.
Qed.

Lemma sort_ascending_perm l : Permutation (sort_ascending l) l.
Proof.
  induction l as [|x l IH]; simpl; [reflexivity|].
  rewrite insert_sorted_perm. constructor. exact IH.
Qed.

Lemma insert_sorted_head x l z :
  z <= x -> HdRel Z.le z l -> HdRel Z.le z (insert_sorted x l).
Proof.
  intros Hzx Hl. destruct l as [|y l]; simpl.
  - constructor. exact Hzx.
  - inversion Hl; subst. destruct (x <=? y); constructor; assumption.
Qed.

Lemma insert_sorted_sorted x l : Sorted Z.le l -> Sorted Z.le (insert_sorted x l).
Proof.
  induction l as [|y l IH]; simpl; intros Hs.
  - repeat constructor.
  - inversion Hs as [|? ? Hs' Hhd]; subst.
    destruct (x <=? y) eqn:E.
    + constructor; [exact Hs|]. constructor. apply Z.leb_le. exact E.
    + apply Z.leb_gt in E. constructor; [apply IH; exact Hs'|].
      apply insert_sorted_head; [lia | exact Hhd].
Qed.

Lemma sort_ascending_sorted l : Sorted Z.le (sort_ascending l).
Proof.
  induction l as [|x l IH]; simpl; [constructor|].
  apply insert_sorted_sorted. exact IH.
Qed.

Lemma sort_ascending_length l : length (sort_ascending l) = length l.
Proof. apply Permutation_length. apply sort_ascending_perm. Qed.

Lemma fold_left_add_shift (f : Response -> Z) rs : forall acc,
  fold_left (fun s r => s + f r) rs acc = acc + fold_left (fun s r => s + f r) rs 0.
Proof.
  induction rs as [|r rs IH]; intros acc; simpl; [lia|].
  rewrite (IH (acc + f r)), (IH (0 + f r)). lia.
Qed.

(** [count_correct] counts the records whose [correct] field is truthy. *)
Lemma count_correct_counts rs :
  count_correct rs
  = Z.of_nat (length (List.filter (fun r => negb (r_correct r =? 0)) rs)).
Proof.
  unfold count_correct. induction rs as [|r rs IH]; [reflexivity|].
  simpl fold_left. rewrite fold_left_add_shift, IH.
  unfold correct_bit. simpl List.filter.
  destruct (r_correct r =? 0); simpl negb; cbv iota; simpl length; lia.
Qed.

Lemma filter_finite values : List.filter Number_isFinite values = values.
Proof.
  induction values as [|v values IH]; [reflexivity|].
  simpl. rewrite IH. reflexivity.
Qed.

Lemma even_mod2 n : (n mod 2 =? 0)%nat = Nat.even n.
Proof.
  destruct (Nat.even n) eqn:E.
  - apply Nat.even_spec in E. destruct E as [k Hk]. apply Nat.eqb_eq.
    rewrite Hk, Nat.mul_comm. apply Nat.Div0.mod_mul.
  - apply Nat.eqb_neq. intros Hm.
    assert (Hev : Nat.even n = true); [|congruence].
    apply Nat.even_spec. exists (n / 2)%nat.
    pose proof (Nat.div_mod_eq n 2). lia.
Qed.

(** The four figures [finish] writes, as functions of the results list. *)
Lemma finish_metrics w :
  let rs := results (state w) in
  let rts := List.filter Number_isFinite (map r_rt_ms rs) in
  mTrials (dom (finish w)) = string_of_Z (Z.of_nat (length rs))
  /\ mAcc (dom (finish w))
     = match rs with
       | [] => dash
       | _ => (string_of_Z (Math_round (number_mul (accuracy rs) 100)) ++ "%")%string
       end
  /\ mMean (dom (finish w))
     = match rts with
       | [] => dash
       | _ => (round_text (mean rts) ++ " ms")%string
       end
  /\ mMedian (dom (finish w))
     = match rts with
       | [] => dash
       | _ => (round_text (median rts) ++ " ms")%string
       end.
Proof.
  unfold finish, stopRecognition.
  destruct (rec (state w) && recActive (state w)); repeat split.
Qed.

Lemma fold_left_Zadd l : forall acc, fold_left Z.add l acc = acc + fold_left Z.add l 0.
Proof.
  induction l as [|x l IH]; intros acc; simpl; [lia|].
  rewrite (IH (acc + x)), (IH (0 + x)). lia.
Qed.

Lemma sum_values_cons x l : sum_values (x :: l) = x + sum_values l.
Proof. unfold sum_values. simpl. apply fold_left_Zadd. Qed.

(** [reduce] from the left with [0] gives the sum of the values. *)
Lemma sum_values_sum l : sum_values l = fold_right Z.add 0 l.
Proof.
  induction l as [|x l IH]; [reflexivity|].
  rewrite sum_values_cons, IH. reflexivity.
Qed.

(** The exact proportion of correct records. *)
Lemma proportion_unit rs :
  rs <> [] ->
  (0 <= inject_Z (count_correct rs) / inject_Z (Z.of_nat (length rs)) <= 1)%Q.
Proof.
  intros Hne.
  assert (Hn : (0 < inject_Z (Z.of_nat (length rs)))%Q).
  { change 0%Q with (inject_Z 0). rewrite <- Zlt_Qlt.
    destruct rs; [contradiction | simpl; lia]. }
  rewrite count_correct_counts.
  pose proof (filter_length_le (fun r0 => negb (r_correct r0 =? 0)) rs) as Hle.
  split.
  - apply Qle_shift_div_l; [exact Hn|]. rewrite Qmult_0_l.
    change 0%Q with (inject_Z 0). rewrite <- Zle_Qle. lia.
  - apply Qle_shift_div_r; [exact Hn|]. rewrite Qmult_1_l.
    rewrite <- Zle_Qle. lia.
Qed.

Lemma accuracy_unit rs : (0 <= accuracy rs <= 1)%Q.
Proof.
  destruct rs as [|r rs]; [split; discriminate|].
  destruct (proportion_unit (r :: rs)) as [H0 H1]; [discriminate|].
  unfold accuracy, number_div. split.
  - apply binary64_nonneg. exact H0.
  - apply (binary64_le_int _ 1); [exact H0 | exact H1 | lia].
Qed.

(** The accuracy is the proportion of correct records up to the rounding
    of the quotient. *)
Lemma accuracy_near rs :
  rs <> [] ->
  (Qabs (accuracy rs - inject_Z (count_correct rs) / inject_Z (Z.of_nat (length rs)))
   <= pow2 (-52))%Q.
Proof.
  intros Hne. destruct (proportion_unit rs Hne) as [H0 H1].
  destruct rs as [|r rs]; [contradiction|].
  unfold accuracy, number_div.
  apply (binary64_error _ 1); [exact H0 | exact H1 | lia].
Qed.

Lemma percent_range a : (0 <= a <= 1)%Q -> 0 <= percent a <= 100.
Proof.
  intros [H0 H1]. unfold percent, number_mul.
  assert (Hlo : (0 <= binary64 (a * 100))%Q).
  { apply binary64_nonneg. lra. }
  assert (Hhi : (binary64 (a * 100) <= inject_Z 100)%Q).
  { apply binary64_le_int; [lra | change (inject_Z 100) with 100%Q; lra | lia]. }
  change (inject_Z 100) with 100%Q in Hhi.
  unfold Math_round. split.
  - change 0 with (Qfloor 0). apply Qfloor_resp_le. lra.
  - apply Z.le_trans with (Qfloor (201 # 2)); [|vm_compute; discriminate].
    apply Qfloor_resp_le. lra.
Qed.

(** The figure shown is the exact percentage rounded to a whole number, up
    to the rounding of the quotient and of the product. *)
Lemma percent_near rs :
  rs <> [] ->
  (Qabs (inject_Z (percent (accuracy rs))
         - 100 * (inject_Z (count_correct rs) / inject_Z (Z.of_nat (length rs))))
   <= (1 # 2) + pow2 (-44))%Q.
Proof.
  intros Hne. pose proof (accuracy_near rs Hne) as Ha.
  pose proof (accuracy_unit rs) as [H0 H1].
  set (x := (inject_Z (count_correct rs) / inject_Z (Z.of_nat (length rs)))%Q) in *.
  set (a := accuracy rs) in *.
  assert (Hm : (Qabs (binary64 (a * 100) - a * 100) <= pow2 (Z.log2 100 - 52))%Q).
  { apply binary64_error; [lra | change (inject_Z 100) with 100%Q; lra | lia]. }
  change (Z.log2 100 - 52) with (-46) in Hm.
  unfold percent, number_mul.
  pose proof (Math_round_nearest (binary64 (a * 100))) as [Hlo Hhi].
  set (p := inject_Z (Math_round (binary64 (a * 100)))) in *.
  set (y := binary64 (a * 100)) in *.
  apply Qabs_Qle_condition in Ha. apply Qabs_Qle_condition in Hm.
  apply Qabs_Qle_condition.
  change (pow2 (-52)) with (1 # 4503599627370496)%Q in Ha.
  change (pow2 (-46)) with (1 # 70368744177664)%Q in Hm.
  change (pow2 (-44)) with (1 # 17592186044416)%Q.
  split; lra.
Qed.

(** C8: with no records the summary shows the sentinel for accuracy, mean
    and median, and [mean] and [median] of no values are [NaN], not zero.
    With records, the accuracy is the quotient of the number of correct
    records by their total, a double within [2 ^ -52] of the exact
    proportion, and the figure shown is [Math.round] of a hundred times
    it, within a half and [2 ^ -44] of the exact percentage; the mean is
    the sum of the reaction times over their number; and the median is
    taken from the ascending rearrangement of the reaction times: the
    middle value for an odd count, the average of the two middle values
    for an even one; the screen shows each rounded.  For the records with
    reaction times 100 and 300, the first correct and the second not, the
    mean is 200, the median is 200 and the accuracy is one half, shown as
    50%.  For 23 correct records of 40 the screen shows 57%: the product
    in double precision lies just below 57.5. *)
Theorem summary_statistics :
  (forall w, results (state w) = [] ->
      mTrials (dom (finish w)) = "0"
      /\ mAcc (dom (finish w)) = dash
      /\ mMean (dom (finish w)) = dash
      /\ mMedian (dom (finish w)) = dash)
  /\ mean [] = NaN
  /\ median [] = NaN
  /\ (forall w r rs,
        results (state w) = r :: rs ->
        let all := r :: rs in
        let rts := map r_rt_ms all in
        let correct :=
          Z.of_nat (length (List.filter (fun x => negb (r_correct x =? 0)) all)) in
        let total := Z.of_nat (length all) in
        accuracy all = number_div (inject_Z correct) (inject_Z total)
        /\ (Qabs (accuracy all - inject_Z correct / inject_Z total) <= pow2 (-52))%Q
        /\ mAcc (dom (finish w))
           = (string_of_Z (Math_round (number_mul (accuracy all) 100)) ++ "%")%string
        /\ (Qabs (inject_Z (Math_round (number_mul (accuracy all) 100))
                  - 100 * (inject_Z correct / inject_Z total))
            <= (1 # 2) + pow2 (-44))%Q
        /\ mean rts
           = Num (inject_Z (fold_right Z.add 0 rts) / inject_Z (Z.of_nat (length rts)))
        /\ mMean (dom (finish w)) = (round_text (mean rts) ++ " ms")%string
        /\ mMedian (dom (finish w)) = (round_text (median rts) ++ " ms")%string)
  /\ (forall v vs,
        let a := sort_ascending (v :: vs) in
        let mid := (length a / 2)%nat in
        Permutation a (v :: vs)
        /\ Sorted Z.le a
        /\ median (v :: vs)
           = if Nat.even (length a)
             then Num ((inject_Z (nth (mid - 1) a 0) + inject_Z (nth mid a 0)) / 2)
             else Num (inject_Z (nth mid a 0)))
  /\ num_is (mean (map r_rt_ms example_results)) 200
  /\ num_is (median (map r_rt_ms example_results)) 200
  /\ accuracy example_results == 1 # 2
  /\ (forall w, results (state w) = example_results ->
        mTrials (dom (finish w)) = "2"
        /\ mAcc (dom (finish w)) = "50%"
        /\ mMean (dom (finish w)) = "200 ms"
        /\ mMedian (dom (finish w)) = "200 ms")
  /\ (forall w, results (state w) = forty_results ->
        mTrials (dom (finish w)) = "40" /\ mAcc (dom (finish w)) = "57%").
Proof.
  split; [|split; [reflexivity|split; [reflexivity|split; [|split]]]].
  - intros w Hrs. destruct (finish_metrics w) as (H1 & H2 & H3 & H4).
    rewrite H1, H2, H3, H4, Hrs. repeat split.
  - intros w r rs Hrs all rts correct total.
    destruct (finish_metrics w) as (_ & H2 & H3 & H4).
    rewrite Hrs, filter_finite in *. fold all in H2, H3, H4. fold rts in H3, H4.
    assert (Hc : count_correct all = correct).
    { apply count_correct_counts. }
    assert (Hne : all <> []) by discriminate.
    pose proof (accuracy_near all Hne) as Hnear.
    pose proof (percent_near all Hne) as Hpct.
    rewrite Hc in Hnear, Hpct. fold total in Hnear, Hpct.
    split; [unfold accuracy, all; fold all; rewrite Hc; reflexivity|].
    split; [exact Hnear|]. split; [exact H2|]. split; [exact Hpct|].
    split; [|split; [exact H3 | exact H4]].
    unfold mean, rts, all. simpl map. rewrite sum_values_sum. reflexivity.
  - intros v vs a mid. split; [apply sort_ascending_perm|].
    split; [apply sort_ascending_sorted|].
    unfold median. fold a. fold mid. rewrite even_mod2.
    destruct (Nat.even (length a)); reflexivity.
  - split; [reflexivity|]. split; [reflexivity|]. split; [reflexivity|].
    split.
    + intros w Hrs. destruct (finish_metrics w) as (H1 & H2 & H3 & H4).
      rewrite H1, H2, H3, H4, Hrs. repeat split.
    + intros w Hrs. destruct (finish_metrics w) as (H1 & H2 & _).
      rewrite H1, H2, Hrs. split; vm_compute; reflexivity.
Qed.

(** ** CSV export *)

Lemma esc_cell v : esc v = esc_string (cell_text v).
Proof. destruct v; reflexivity. Qed.

Lemma toCSV_render rows : toCSV rows = render (table_of rows).
Proof.
  destruct rows as [|r0 rows]; [reflexivity|].
  assert (Htail : forall headers rs,
             map (csv_line headers) rs
             = map render_row
                   (map (fun r => map (fun h => cell_text (get_field h r)) headers) rs)).
  { intros headers rs. rewrite map_map. apply map_ext. intros r.
    unfold csv_line, render_row. f_equal.
    rewrite map_map. apply map_ext. intros h. apply esc_cell. }
  unfold toCSV, render, table_of. cbv zeta.
  rewrite Htail. reflexivity.
Qed.

Lemma string_app_assoc (a b c : string) : ((a ++ b) ++ c = a ++ (b ++ c))%string.
Proof. induction a as [|x a IH]; simpl; [reflexivity | rewrite IH; reflexivity]. Qed.

Lemma string_app_nil_r (a : string) : (a ++ "" = a)%string.
Proof. induction a as [|x a IH]; simpl; [reflexivity | rewrite IH; reflexivity]. Qed.

(** Plain characters are taken over one by one. *)
Lemma read_plain s : forall field row rest,
  has_special s = false ->
  read_from in_plain field row (s ++ rest) = read_from in_plain (field ++ s) row rest.
Proof.
  induction s as [|c s IH]; intros field row rest Hs; simpl.
  - rewrite string_app_nil_r. reflexivity.
  - simpl in Hs. apply orb_false_elim in Hs. destruct Hs as [Hc Hs].
    unfold is_special in Hc.
    apply orb_false_elim in Hc. destruct Hc as [Hc Hn].
    apply orb_false_elim in Hc. destruct Hc as [Hq Hc].
    rewrite Hc, Hn, Hq. rewrite IH by exact Hs.
    rewrite string_app_assoc. reflexivity.
Qed.

(** Inside quotes every character is taken over, a doubled quote as one,
    up to the closing quote. *)
Lemma read_quoted s : forall field row rest,
  field_end rest ->
  read_from in_quoted field row
    (double_quotes s ++ String quote_char rest)
  = read_from after_quote (field ++ s) row rest.
Proof.
  induction s as [|c s IH]; intros field row rest Hrest; simpl.
  - rewrite string_app_nil_r. reflexivity.
  - destruct (Ascii.eqb c quote_char) eqn:Ec.
    + apply Ascii.eqb_eq in Ec. subst c. simpl.
      rewrite IH by exact Hrest. rewrite string_app_assoc. reflexivity.
    + simpl. rewrite Ec. rewrite IH by exact Hrest.
      rewrite string_app_assoc. reflexivity.
Qed.

(** After a complete field the three modes that can follow it agree on a
    separator. *)
Lemma read_after_field m field row c rest :
  m <> in_quoted -> c = comma_char \/ c = newline_char ->
  read_from m field row (String c rest) = read_from in_plain field row (String c rest).
Proof.
  intros Hm [-> | ->]; destruct m; try contradiction; reflexivity.
Qed.

(** One escaped cell, read from the start of a field. *)
Lemma read_field f row rest :
  field_end rest ->
  f <> "" \/ row <> [] \/ rest <> "" ->
  read_from at_field_start "" row (esc_string f ++ rest)
  = read_from in_plain f row rest.
Proof.
  intros Hrest Hne. unfold esc_string.
  destruct (has_special f) eqn:Hs.
  - change (String quote_char (double_quotes f ++ String quote_char "") ++ rest)%string
      with (String quote_char ((double_quotes f ++ String quote_char "") ++ rest))%string.
    rewrite string_app_assoc.
    change (read_from at_field_start "" row
              (String quote_char (double_quotes f ++ String quote_char "" ++ rest)))
      with (read_from in_quoted "" row (double_quotes f ++ String quote_char rest)).
    rewrite read_quoted by exact Hrest. simpl.
    destruct rest as [|c rest].
    + destruct row; reflexivity.
    + apply read_after_field; [discriminate | exact Hrest].
  - destruct f as [|c f].
    + simpl. destruct rest as [|c rest].
      * destruct row as [|x row]; [|reflexivity].
        destruct Hne as [H | [H | H]]; contradiction.
      * apply read_after_field; [discriminate | exact Hrest].
    + simpl in Hs. apply orb_false_elim in Hs. destruct Hs as [Hc Hs].
      unfold is_special in Hc.
      apply orb_false_elim in Hc. destruct Hc as [Hc Hn].
      apply orb_false_elim in Hc. destruct Hc as [Hq Hc].
      simpl. rewrite Hc, Hn, Hq. simpl.
      rewrite read_plain by exact Hs. reflexivity.
Qed.

Lemma read_plain_end field row : read_from in_plain field row "" = [row ++ [field]].
Proof. destruct row; reflexivity. Qed.

(** One written row, read from the start of a record. *)
Lemma read_row cells : forall row rest,
  cells <> [] ->
  rest = "" \/ (exists rest', rest = String newline_char rest') ->
  row ++ cells <> [""] \/ rest <> "" ->
  read_from at_field_start "" row (render_row cells ++ rest)
  = match rest with
    | EmptyString => [row ++ cells]
    | String _ rest' => (row ++ cells) :: read_from at_field_start "" [] rest'
    end.
Proof.
  induction cells as [|f cells IH]; intros row rest Hcells Hrest Hne; [contradiction|].
  assert (Hend : field_end rest).
  { destruct Hrest as [-> | (rest' & ->)]; simpl; auto. }
  destruct cells as [|f2 cells].
  - unfold render_row. simpl map. simpl join.
    rewrite read_field; [| exact Hend |].
    + destruct Hrest as [-> | (rest' & ->)]; [apply read_plain_end | reflexivity].
    + destruct f; [|left; discriminate].
      destruct row; [|right; left; discriminate].
      destruct Hne as [H | H]; [contradiction H; reflexivity | right; right; exact H].
  - unfold render_row. simpl map.
    change (join comma (esc_string f :: esc_string f2 :: map esc_string cells))
      with (esc_string f ++ comma ++ render_row (f2 :: cells))%string.
    rewrite !string_app_assoc.
    rewrite read_field; [| simpl; auto | right; right; discriminate].
    change (read_from in_plain f row
              (comma ++ render_row (f2 :: cells) ++ rest)%string)
      with (read_from at_field_start "" (row ++ [f])
              (render_row (f2 :: cells) ++ rest)).
    rewrite IH; [| discriminate | exact Hrest |].
    + rewrite <- app_assoc. reflexivity.
    + left. rewrite <- app_assoc. simpl.
      destruct row; simpl; [discriminate|].
      destruct row; discriminate.
Qed.

(** A whole written table reads back, provided every row has a cell and the
    last row is not a single empty cell. *)
Lemma read_render table :
  table <> [] ->
  Forall (fun cells => cells <> []) table ->
  List.last table [] <> [""] ->
  csv_read (render table) = table.
Proof.
  unfold csv_read, render.
  induction table as [|cells table IH]; intros Hne Hall Hlast; [contradiction|].
  inversion Hall as [|? ? Hcells Hall']; subst.
  destruct table as [|cells2 table].
  - simpl map. simpl join.
    rewrite <- (string_app_nil_r (render_row cells)).
    rewrite read_row; [reflexivity | exact Hcells | left; reflexivity |].
    left. exact Hlast.
  - simpl map.
    change (join newline (render_row cells :: render_row cells2 :: map render_row table))
      with (render_row cells ++ newline
              ++ join newline (map render_row (cells2 :: table)))%string.
    rewrite read_row; [| exact Hcells | right; eexists; reflexivity | right; discriminate].
    simpl app. f_equal.
    apply IH; [discriminate | exact Hall' | exact Hlast].
Qed.

Lemma table_of_shape r0 rows :
  (1 < length r0)%nat ->
  table_of (r0 :: rows) <> []
  /\ Forall (fun cells => cells <> []) (table_of (r0 :: rows))
  /\ List.last (table_of (r0 :: rows)) [] <> [""].
Proof.
  intros Hlen.
  assert (Hrows : Forall (fun cells : list string => length cells = length r0)
                         (table_of (r0 :: rows))).
  { unfold table_of. constructor; [rewrite length_map; reflexivity|].
    apply Forall_forall. intros cells Hin. apply list_elem_of_In in Hin.
    apply in_map_iff in Hin.
    destruct Hin as (r & <- & _). rewrite !length_map. reflexivity. }
  split; [discriminate|]. split.
  - eapply Forall_impl; [exact Hrows|]. intros cells Hc ->. simpl in Hc. lia.
  - intros Hl.
    assert (Hin : In (List.last (table_of (r0 :: rows)) []) (table_of (r0 :: rows))).
    { destruct (exists_last (l := table_of (r0 :: rows))) as (l' & x & Heq);
        [discriminate|].
      rewrite Heq, last_last. apply in_or_app. right. left. reflexivity. }
    rewrite Hl in Hin. rewrite Forall_forall in Hrows.
    apply list_elem_of_In in Hin.
    specialize (Hrows _ Hin). simpl in Hrows. lia.
Qed.

(** C9: [toCSV] of no rows is the empty text; otherwise it writes the
    property names of the first row as header line, then one line per row
    with the cells in the order of the header, joined by line feeds.  A
    cell that holds a double quote, a comma or a line feed is written
    between double quotes with every double quote inside doubled, any other
    cell as it is.  A reader of the format gets back from such a cell the
    string that was written, and from the whole export the table of the
    cell texts (for rows of two or more properties, as the response records
    are). *)
Theorem toCSV_round_trip :
  toCSV [] = ""
  /\ (forall r0 rows,
        toCSV (r0 :: rows)
        = join newline
            (join comma (map (fun h => esc (v_string h)) (map fst r0))
               :: map (fun r => join comma (map (fun h => esc (get_field h r)) (map fst r0)))
                      (r0 :: rows)))
  /\ (forall s,
        esc (v_string s)
        = if has_special s
          then String quote_char (double_quotes s ++ String quote_char "")%string
          else s)
  /\ (forall s, s <> "" -> csv_read (esc (v_string s)) = [[s]])
  /\ (forall r0 rows,
        (1 < length r0)%nat ->
        csv_read (toCSV (r0 :: rows)) = table_of (r0 :: rows))
  /\ (forall r rs,
        csv_read (toCSV (map row_of_response (r :: rs)))
        = table_of (map row_of_response (r :: rs))).
Proof.
  assert (Hall : forall r0 rows,
             (1 < length r0)%nat ->
             csv_read (toCSV (r0 :: rows)) = table_of (r0 :: rows)).
  { intros r0 rows Hlen. rewrite toCSV_render.
    destruct (table_of_shape r0 rows Hlen) as (H1 & H2 & H3).
    apply read_render; assumption. }
  split; [reflexivity|]. split; [reflexivity|]. split; [reflexivity|].
  split; [|split; [exact Hall|]].
  - intros s Hs. change (esc (v_string s)) with (render [[s]]).
    apply read_render; [discriminate | repeat constructor; discriminate |].
    simpl. congruence.
  - intros r rs. simpl map. apply Hall. simpl. lia.
Qed.

(** C9 on a row whose notes hold a comma, double quotes and a line feed. *)
Lemma toCSV_round_trip_witness :
  csv_read (esc (v_string sample_notes)) = [[sample_notes]]
  /\ csv_read (toCSV sample_rows)
     = [ ["participant_id"; "notes"; "rt_ms"];
         ["P01"; sample_notes; "512"];
         ["P01"; ""; "-3"] ].
Proof.
  split.
  - apply (proj1 (proj2 (proj2 (proj2 toCSV_round_trip)))). discriminate.
  - apply (proj1 (proj2 (proj2 (proj2 (proj2 toCSV_round_trip))))
             [("participant_id", v_string "P01"); ("notes", v_string sample_notes);
              ("rt_ms", v_number 512)]).
    simpl. lia.
Defined.

(** C8 on a session that holds the two example records, and on one that
    holds none. *)
Lemma summary_statistics_witness :
  (mTrials (dom (finish (on_state (set_results example_results) initial_world))) = "2"
   /\ mAcc (dom (finish (on_state (set_results example_results) initial_world))) = "50%"
   /\ mMean (dom (finish (on_state (set_results example_results) initial_world))) = "200 ms"
   /\ mMedian (dom (finish (on_state (set_results example_results) initial_world)))
      = "200 ms")
  /\ (mTrials (dom (finish initial_world)) = "0"
      /\ mAcc (dom (finish initial_world)) = dash
      /\ mMean (dom (finish initial_world)) = dash
      /\ mMedian (dom (finish initial_world)) = dash).
Proof.
  split.
  - apply (proj2 (proj2 (proj2 (proj2 (proj2 (proj2 (proj2 (proj2 summary_statistics)))))))).
    reflexivity.
  - apply (proj1 summary_statistics). reflexivity.
Defined.

(** ** Invariants of a session *)

Lemma session_invariant_later t t' s :
  (t <= t')%Q -> session_invariant t s -> session_invariant t' s.
Proof.
  intros Hle (H0 & Hrt & Hpr). split; [|split; assumption].
  eapply Qle_trans; eassumption.
Qed.

(** Changes of the flags, the trial list and the trial index do not touch
    what the invariant speaks of. *)
Lemma session_invariant_frame t s s' :
  t0 s' = t0 s -> results s' = results s -> phase s' = phase s ->
  session_invariant t s -> session_invariant t s'.
Proof.
  intros H0 Hr Hp (I0 & Irt & Ipr). unfold session_invariant.
  rewrite H0, Hr, Hp. repeat split; assumption.
Qed.

Lemma session_invariant_cleared t s s' :
  t0 s' = t0 s -> results s' = [] ->
  session_invariant t s -> session_invariant t s'.
Proof.
  intros H0 Hr (I0 & _). unfold session_invariant.
  rewrite H0, Hr. repeat split; [exact I0 | constructor].
Qed.

Lemma presented_invariant t w w' :
  presented w w' -> session_invariant t (state w) -> session_invariant t (state w').
Proof.
  intros Hpres. apply session_invariant_frame.
  - apply presented_t0. exact Hpres.
  - apply presented_results. exact Hpres.
  - apply presented_trials. exact Hpres.
Qed.

Lemma presentTrial_invariant t w rs w' rs' :
  presentTrial w rs = Some (w', rs') ->
  session_invariant t (state w) -> session_invariant t (state w').
Proof.
  intros H Hinv. apply presentTrial_inv in H.
  destruct H as [[Hpres _] | (_ & _ & ts & rs1 & _ & Hpres)].
  - eapply presented_invariant; eassumption.
  - eapply presented_invariant; [exact Hpres|].
    eapply session_invariant_cleared; [| |exact Hinv]; reflexivity.
Qed.

Lemma answer_recorded_invariant e chosen trial w :
  session_invariant (now e) (state w) ->
  session_invariant (now e) (state (answer_recorded e chosen trial w)).
Proof.
  intros (I0 & Irt & Ipr).
  assert (Ht0 : t0 (state (answer_recorded e chosen trial w)) = t0 (state w)).
  { unfold answer_recorded, stopRecognition.
    destruct (rec (state w) && recActive (state w)); simpl;
      destruct (String.eqb (phase (state w)) "test"); reflexivity. }
  unfold session_invariant.
  rewrite Ht0, answer_recorded_results, answer_recorded_phase.
  split; [exact I0|].
  destruct (String.eqb (phase (state w)) "test") eqn:E.
  - apply String.eqb_eq in E. split.
    + apply Forall_app. split; [exact Irt|].
      constructor; [|constructor]. simpl.
      apply Math_round_nonneg. apply number_sub_nonneg. exact I0.
    + rewrite E. discriminate.
  - split; assumption.
Qed.

Lemma recordAnswer_invariant e chosen w rs w' rs' :
  recordAnswer e chosen w rs = Some (w', rs') ->
  session_invariant (now e) (state w) -> session_invariant (now e) (state w').
Proof.
  intros H Hinv.
  destruct (trials (state w) !! idx (state w)) as [trial|] eqn:Et.
  - rewrite (recordAnswer_with_trial e chosen w trial Et) in H.
    eapply presentTrial_invariant; [exact H|].
    apply answer_recorded_invariant. exact Hinv.
  - rewrite (recordAnswer_without_trial e chosen w rs Et) in H.
    inversion H; subst.
    change (session_invariant (now e) (state (stopRecognition w))).
    rewrite stopRecognition_state.
    eapply session_invariant_frame; [| | |exact Hinv]; reflexivity.
Qed.

Lemma step_invariant mapSpeech t e rs ev w w' :
  (t <= now e)%Q ->
  step mapSpeech (e, rs, ev) w = Some w' ->
  session_invariant t (state w) -> session_invariant (now e) (state w').
Proof.
  intros Hle Hstep Hinv0.
  pose proof (session_invariant_later _ _ _ Hle Hinv0) as Hinv.
  unfold step in Hstep.
  destruct (dispatch mapSpeech e ev w rs) as [[w1 rs1]|] eqn:Hd; [|discriminate].
  inversion Hstep; subst w1. clear Hstep.
  destruct ev as [i|k|c|tr| | | |]; simpl in Hd.
  - apply startTest_inv in Hd. destruct Hd as (ts & rs2 & _ & Hpres).
    eapply presented_invariant; [exact Hpres|].
    destruct (start_prepared_state e i ts w) as (_ & _ & _ & Hres & _).
    eapply session_invariant_cleared; [|exact Hres|exact Hinv].
    unfold start_prepared. simpl. destruct (in_practiceToggle i); reflexivity.
  - apply ret_Some in Hd. destruct Hd as [-> _].
    destruct (fire_timer_frame e k w) as (Hp & _ & Hr & _).
    destruct Hinv as (I0 & Irt & Ipr). unfold session_invariant.
    rewrite Hp, Hr. split; [|split; assumption].
    unfold fire_timer. destruct (timers w !! k) as [tm|]; [|exact I0].
    destruct (timer_callback_effect e (tm_trial tm) (set_timers (delete k (timers w)) w))
      as (b & -> & _). simpl. apply Qle_refl.
  - destruct (accepted_label mapSpeech (ev_tap c) w) as [chosen|] eqn:Ea.
    + change (onChoice e c w rs) with (dispatch mapSpeech e (ev_tap c) w rs) in Hd.
      rewrite (dispatch_accepted mapSpeech e (ev_tap c) w chosen Ea) in Hd.
      eapply recordAnswer_invariant; [exact Hd|].
      rewrite accepted_state.
      eapply session_invariant_frame; [| | |exact Hinv]; reflexivity.
    + change (onChoice e c w rs) with (dispatch mapSpeech e (ev_tap c) w rs) in Hd.
      rewrite (dispatch_discarded mapSpeech e (ev_tap c) w rs eq_refl Ea) in Hd.
      inversion Hd; subst. exact Hinv.
  - destruct (accepted_label mapSpeech (ev_result tr) w) as [chosen|] eqn:Ea.
    + change (onresult mapSpeech e tr w rs)
        with (dispatch mapSpeech e (ev_result tr) w rs) in Hd.
      rewrite (dispatch_accepted mapSpeech e (ev_result tr) w chosen Ea) in Hd.
      eapply recordAnswer_invariant; [exact Hd|].
      rewrite accepted_state.
      eapply session_invariant_frame; [| | |exact Hinv]; reflexivity.
    + change (onresult mapSpeech e tr w rs)
        with (dispatch mapSpeech e (ev_result tr) w rs) in Hd.
      rewrite (dispatch_discarded mapSpeech e (ev_result tr) w rs eq_refl Ea) in Hd.
      inversion Hd; subst. exact Hinv.
  - apply ret_Some in Hd. destruct Hd as [-> _]. unfold onerror.
    rewrite stopRecognition_state.
    eapply session_invariant_frame; [| | |exact Hinv]; reflexivity.
  - apply ret_Some in Hd. destruct Hd as [-> _].
    eapply session_invariant_frame; [| | |exact Hinv]; reflexivity.
  - apply ret_Some in Hd. destruct Hd as [-> _]. unfold onAbort.
    rewrite stopRecognition_twice.
    destruct (reset_session_effect (stopRecognition w)) as (-> & _).
    rewrite stopRecognition_state.
    eapply session_invariant_cleared; [| |exact Hinv]; reflexivity.
  - apply ret_Some in Hd. destruct Hd as [-> _]. unfold onRestart.
    destruct (reset_session_effect (stopRecognition w)) as (-> & _).
    rewrite stopRecognition_state.
    eapply session_invariant_cleared; [| |exact Hinv]; reflexivity.
Qed.

Lemma reachable_invariant mapSpeech t w :
  reachable_at mapSpeech t w -> session_invariant t (state w).
Proof.
  induction 1 as [d | t w e rs ev w' Hreach IH Hle Hstep].
  - repeat split; [apply Qle_refl | constructor].
  - eapply step_invariant; eassumption.
Qed.

(** X1: in every reachable world, whatever the events, the oracle and the
    binding of the speech mapping were, no recorded reaction time is
    negative, provided the clock never ran backwards. *)
Theorem reaction_times_never_negative (mapSpeech : option string -> option string)
    (t : Q) (w : World) :
  reachable_at mapSpeech t w ->
  Forall (fun r => 0 <= r_rt_ms r) (results (state w)).
Proof. intros H. apply reachable_invariant in H. apply H. Qed.

(** X2: in every reachable world that is in the practice phase the results list
    is empty, and so is the text an export would write: what is answered in
    the practice block is never recorded. *)
Theorem practice_is_never_recorded (mapSpeech : option string -> option string)
    (t : Q) (w : World) :
  reachable_at mapSpeech t w ->
  phase (state w) = "practice" ->
  results (state w) = [] /\ export_csv w = "".
Proof.
  intros H Hph. apply reachable_invariant in H. destruct H as (_ & _ & Hpr).
  unfold export_csv. rewrite (Hpr Hph). split; reflexivity.
Qed.

Lemma answered_world_reachable : reachable_at mapSpeechToColor 1500 answered_world.
Proof.
  apply (reach_step mapSpeechToColor 1000 armed_world (env_at 1500) [1 # 5]%Q
           (ev_tap choice_A) answered_world); [|discriminate|reflexivity].
  apply (reach_step mapSpeechToColor 0 started_world (env_at 1000) []
           (ev_timer 0%nat) armed_world); [|discriminate|reflexivity].
  apply (reach_step mapSpeechToColor 0 initial_world (env_at 0) sample_draws
           (ev_start sample_inputs) started_world); [|discriminate|reflexivity].
  apply reach_initial.
Qed.

Lemma practice_world_reachable : reachable_at mapSpeechToColor 0 practice_world.
Proof.
  apply (reach_step mapSpeechToColor 0 initial_world (env_at 0) sample_draws
           (ev_start practice_inputs) practice_world); [|discriminate|reflexivity].
  apply reach_initial.
Qed.

Lemma reaction_times_never_negative_witness :
  Forall (fun r => 0 <= r_rt_ms r) (results (state answered_world)).
Proof.
  apply (reaction_times_never_negative mapSpeechToColor 1500 answered_world).
  exact answered_world_reachable.
Defined.

Lemma practice_is_never_recorded_witness :
  results (state practice_world) = [] /\ export_csv practice_world = "".
Proof.
  apply (practice_is_never_recorded mapSpeechToColor 0 practice_world).
  - exact practice_world_reachable.
  - reflexivity.
Defined.

(** ** Further properties of the helpers *)

Lemma insert_moves_out {A : Type} (l : list A) : forall j x y,
  l !! j = Some y -> Permutation (y :: <[j := x]> l) (x :: l).
Proof.
  induction l as [|a l IH]; intros j x y Hj; [discriminate|].
  destruct j as [|j]; simpl in *.
  - inversion Hj; subst. apply perm_swap.
  - rewrite perm_swap. rewrite (IH j x y Hj). apply perm_swap.
Qed.

Lemma swap_Permutation {A : Type} (l : list A) : forall i j l',
  swap i j l = Some l' -> Permutation l l'.
Proof.
  unfold swap.
  induction l as [|a l IH]; intros i j l' H; [destruct i; discriminate|].
  destruct i as [|i], j as [|j]; simpl in H.
  - inversion H; subst. reflexivity.
  - destruct (l !! j) as [y|] eqn:Ej; [|discriminate].
    inversion H; subst. simpl. symmetry. apply insert_moves_out. exact Ej.
  - destruct (l !! i) as [x|] eqn:Ei; [|discriminate].
    inversion H; subst. simpl. symmetry. apply insert_moves_out. exact Ei.
  - destruct (l !! i) as [x|] eqn:Ei; [|discriminate].
    destruct (l !! j) as [y|] eqn:Ej; [|discriminate].
    inversion H; subst. simpl. constructor.
    apply (IH i j). rewrite Ei, Ej. reflexivity.
Qed.

Lemma shuffle_from_Permutation {A : Type} i : forall (arr : list A) rs arr' rs',
  shuffle_from i arr rs = Some (arr', rs') -> Permutation arr arr'.
Proof.
  induction i as [|i IH]; intros arr rs arr' rs' H; simpl in H.
  - apply ret_Some in H. destruct H as [-> _]. reflexivity.
  - bind_inv H. destruct (swap (S i) a arr) as [arr1|] eqn:Es; [|discriminate].
    apply swap_Permutation in Es. rewrite Es. eapply IH. exact H.
Qed.

(** On valid draws [shuffle] returns, having used one draw for each element
    but the first. *)
Lemma shuffle_from_total {A : Type} i : forall (arr : list A) rs,
  (i < length arr)%nat \/ i = 0%nat ->
  Forall (fun r => unit_draw r = true) rs ->
  (i <= length rs)%nat ->
  exists arr',
    shuffle_from i arr rs = Some (arr', drop i rs) /\ length arr' = length arr.
Proof.
  induction i as [|i IH]; intros arr rs Hi Hv Hl.
  - exists arr. split; reflexivity.
  - destruct Hi as [Hi | Hi]; [|discriminate].
    destruct rs as [|r rs]; [simpl in Hl; lia|].
    inversion Hv as [|? ? Hr Hv']; subst.
    pose proof (unit_draw_range r Hr) as [H0 H1].
    pose proof (floor_scaled_range r (Z.of_nat (S i) + 1) H0 H1 ltac:(lia)) as Hj.
    set (j := Z.to_nat (Math_floor (r * inject_Z (Z.of_nat (S i) + 1)))).
    destruct (swap_in_range (S i) j arr) as (arr1 & Hs & Hl1); [lia | unfold j; lia |].
    destruct (IH arr1 rs) as (arr' & Hrun & Hlen); [left; lia | exact Hv' | simpl in Hl; lia |].
    exists arr'. split; [|congruence].
    simpl shuffle_from. unfold bind, random_index, bind, Math_random.
    rewrite Hr. unfold ret. fold j. rewrite Hs. exact Hrun.
Qed.

(** X3: whatever the draws, what [shuffle] returns is a rearrangement of its
    argument; and on every list of valid draws that holds one draw for each
    element but the first it does return, leaving the draws it did not
    use. *)
Theorem shuffle_permutes :
  (forall (arr : list string) rs arr' rs',
      shuffle arr rs = Some (arr', rs') -> Permutation arr arr')
  /\ (forall (arr : list string) (rs : list Q),
        Forall (fun r => unit_draw r = true) rs ->
        (length arr - 1 <= length rs)%nat ->
        exists arr',
          shuffle arr rs = Some (arr', drop (length arr - 1) rs)
          /\ Permutation arr arr').
Proof.
  assert (H : forall (arr : list string) rs arr' rs',
             shuffle arr rs = Some (arr', rs') -> Permutation arr arr').
  { intros arr rs arr' rs'. apply shuffle_from_Permutation. }
  split; [exact H|]. intros arr rs Hv Hl.
  destruct (shuffle_from_total (length arr - 1) arr rs) as (arr' & Hrun & _);
    [lia | exact Hv | exact Hl |].
  exists arr'. split; [exact Hrun|]. eapply H. exact Hrun.
Qed.

Lemma shuffle_permutes_witness :
  Permutation ["RED"; "BLUE"; "GREEN"; "YELLOW"] ["YELLOW"; "GREEN"; "BLUE"; "RED"]
  /\ exists arr',
       shuffle ["RED"; "BLUE"; "GREEN"; "YELLOW"] [0; 0; 0; 0]%Q
       = Some (arr', drop (length ["RED"; "BLUE"; "GREEN"; "YELLOW"] - 1) [0; 0; 0; 0]%Q)
       /\ Permutation ["RED"; "BLUE"; "GREEN"; "YELLOW"] arr'.
Proof.
  split.
  - apply (proj1 shuffle_permutes ["RED"; "BLUE"; "GREEN"; "YELLOW"]
             [0; 1 # 2; 3 # 4]%Q ["YELLOW"; "GREEN"; "BLUE"; "RED"] []).
    reflexivity.
  - apply (proj2 shuffle_permutes ["RED"; "BLUE"; "GREEN"; "YELLOW"] [0; 0; 0; 0]%Q).
    + repeat constructor.
    + simpl. lia.
Defined.

Lemma generate_from_indices k : forall i rate rs ts rs',
  generate_from k i rate rs = Some (ts, rs') ->
  map trial_index ts = map (fun j => i + Z.of_nat j + 1) (seq 0 k).
Proof.
  induction k as [|k IH]; intros i rate rs ts rs' H; simpl in H.
  - apply ret_Some in H. destruct H as [-> _]. reflexivity.
  - bind_inv H. bind_inv H. apply ret_Some in H. destruct H as [-> _].
    apply generate_one_inv in Hm.
    destruct Hm as (r & rest & _ & _ & Hidx & _).
    apply IH in Hm0. simpl. rewrite Hidx, Hm0. f_equal; [lia|].
    rewrite <- seq_shift, map_map. apply map_ext. intros j. lia.
Qed.

(** X4: the trials of a batch are numbered 1, 2, ... in the order generated. *)
Theorem generateTrials_numbers_trials (n rate : num) (rs : list Q)
    (ts : list Trial) (rs' : list Q) :
  generateTrials n rate rs = Some (ts, rs') ->
  map trial_index ts = map (fun j => Z.of_nat j + 1) (seq 0 (iterations n)).
Proof. intros H. apply generate_from_indices in H. exact H. Qed.

Lemma generateTrials_numbers_trials_witness :
  map trial_index (trials (state started_world)) = [1; 2].
Proof.
  apply (generateTrials_numbers_trials (Num 2) (Num (7 # 10)) sample_draws
           (trials (state started_world)) [(1 # 2)%Q]).
  reflexivity.
Defined.

(** X5: every timer [presentTrial] schedules is for the trial that is current
    when it returns and has a delay of at least 250 and less than 500
    milliseconds; it schedules at most one. *)
Theorem presentation_delay_window (w : World) (rs : list Q) (w' : World) (rs' : list Q) :
  presentTrial w rs = Some (w', rs') ->
  timers w' = timers w
  \/ exists tm,
       timers w' = timers w ++ [tm]
       /\ trials (state w') !! idx (state w') = Some (tm_trial tm)
       /\ 250 <= tm_delay tm < 500.
Proof.
  assert (Hp : forall v v', presented v v' ->
             timers v' = timers v
             \/ exists tm,
                  timers v' = timers v ++ [tm]
                  /\ trials (state v') !! idx (state v') = Some (tm_trial tm)
                  /\ 250 <= tm_delay tm < 500).
  { intros v v' [trial r Ht Hu | Ht].
    - right. eexists. split; [reflexivity|]. split; [exact Ht|].
      change (250 <= 250 + Math_floor (r * inject_Z 250) < 500).
      apply unit_draw_range in Hu. destruct Hu as [H0 H1].
      pose proof (floor_scaled_range r 250 H0 H1 eq_refl) as Hr. lia.
    - left. apply finish_timers. }
  intros H. apply presentTrial_inv in H.
  destruct H as [[Hpres _] | (_ & _ & ts & rs1 & _ & Hpres)].
  - apply Hp. exact Hpres.
  - apply Hp in Hpres. exact Hpres.
Qed.

Lemma presentation_delay_window_witness :
  timers answered_world = timers (answer_recorded (env_at 1500) "RED"
      (mkTrial 1 "RED" "GREEN" "incongruent" "RED" "GREEN" "GREEN")
      (stopRecognition (lockChoices true (on_state (set_answered true) armed_world))))
  \/ exists tm,
       timers answered_world
       = timers (answer_recorded (env_at 1500) "RED"
           (mkTrial 1 "RED" "GREEN" "incongruent" "RED" "GREEN" "GREEN")
           (stopRecognition (lockChoices true (on_state (set_answered true) armed_world))))
         ++ [tm]
       /\ trials (state answered_world) !! idx (state answered_world) = Some (tm_trial tm)
       /\ 250 <= tm_delay tm < 500.
Proof.
  apply (presentation_delay_window _ [1 # 5]%Q answered_world []).
  reflexivity.
Defined.

(** X6: the speech table: each of the eight words maps to its colour, and
    whatever [mapSpeechToColor] returns is one of the four colour names. *)
Theorem mapSpeechToColor_table :
  Forall (fun kv => mapSpeechToColor (Some (fst kv)) = Some (snd kv)) speech_table
  /\ (forall transcript c,
        mapSpeechToColor transcript = Some c -> In c (map name COLORS)).
Proof.
  split.
  - repeat constructor.
  - intros transcript c H. unfold mapSpeechToColor in H.
    assert (Hin : forall f, match find f speech_table with
                            | Some kv => In (snd kv) (map name COLORS)
                            | None => True
                            end).
    { intros f. destruct (find f speech_table) as [kv|] eqn:E; [|exact I].
      apply find_some in E. destruct E as [E _].
      simpl in E. unfold In.
      repeat (destruct E as [<- | E]; [simpl; tauto|]). contradiction. }
    set (f1 := fun kv : string * string =>
                 String.eqb (normalizeSpeech transcript) (fst kv)) in H.
    pose proof (Hin f1) as H1.
    destruct (find f1 speech_table) as [kv|].
    + inversion H; subst. exact H1.
    + match type of H with
      | match find ?f2 _ with _ => _ end = _ =>
          pose proof (Hin f2) as H2; destruct (find f2 speech_table) as [kv|]
      end; [|discriminate].
      inversion H; subst. exact H2.
Qed.

Lemma mapSpeechToColor_table_witness :
  mapSpeechToColor (Some "The answer is: BLUE!") = Some "BLUE"
  /\ In "BLUE" (map name COLORS).
Proof.
  split; [reflexivity|].
  apply (proj2 mapSpeechToColor_table (Some "The answer is: BLUE!") "BLUE").
  reflexivity.
Defined.

(** ** What every session keeps *)

(** The invariant speaks of ten components of the world only. *)
Lemma session_wf_frame w w' :
  participant (state w') = participant (state w) ->
  phase (state w') = phase (state w) ->
  trials (state w') = trials (state w) ->
  idx (state w') = idx (state w) ->
  results (state w') = results (state w) ->
  rec (state w') = rec (state w) ->
  recActive (state w') = recActive (state w) ->
  visible (dom w') = visible (dom w) ->
  shown (dom w') = shown (dom w) ->
  calls w' = calls w ->
  session_wf w -> session_wf w'.
Proof.
  intros Hpa Hp Ht Hi Hr Hrec Hact Hv Hsh Hc [W1 W2 W3 W4 W5 W6 WS WP W7 W8 W9].
  constructor; rewrite ?Hpa, ?Hp, ?Ht, ?Hi, ?Hr, ?Hrec, ?Hact, ?Hv, ?Hsh, ?Hc;
    assumption.
Qed.

(** With no recognizer and no active flag, stopping and arming do nothing. *)
Lemma stopRecognition_idle w :
  rec (state w) = false -> recActive (state w) = false -> stopRecognition w = w.
Proof.
  intros Hrec Hact. unfold stopRecognition. rewrite Hrec. simpl.
  destruct w as [[p st ph tr res i t b r ra an] d tm cl]. simpl in *.
  subst. reflexivity.
Qed.

Lemma startRecognitionForTrial_idle e w :
  rec (state w) = false -> startRecognitionForTrial e w = w.
Proof.
  intros Hrec. unfold startRecognitionForTrial. rewrite Hrec.
  rewrite orb_true_r. reflexivity.
Qed.

Lemma session_wf_call c w :
  recognizer_call c = false -> session_wf w -> session_wf (call c w).
Proof.
  intros Hc [W1 W2 W3 W4 W5 W6 WS WP W7 W8 W9].
  constructor; try assumption.
  simpl. apply Forall_app. split; [exact W9|]. constructor; [exact Hc | constructor].
Qed.

Lemma session_wf_finish w :
  session_wf w -> phase (state w) = "test" ->
  trials (state w) !! idx (state w) = None ->
  session_wf (finish w).
Proof.
  intros Hwf Hph Hnone. pose proof Hwf as [W1 W2 W3 W4 W5 W6 WS WP W7 W8 W9].
  unfold finish. rewrite (stopRecognition_idle w W7 W8).
  constructor; simpl; try assumption.
  - intros _. split; assumption.
  - intros _. reflexivity.
Qed.

Lemma session_wf_presented w w' :
  session_wf w ->
  (trials (state w) !! idx (state w) = None -> phase (state w) = "test") ->
  presented w w' -> session_wf w'.
Proof.
  intros Hwf Hph [trial r Ht Hu | Ht].
  - eapply session_wf_frame; [| | | | | | | | | |exact Hwf]; reflexivity.
  - apply session_wf_finish; auto.
Qed.

(** A fresh batch installed at the start of a phase. *)
Lemma session_wf_batch ph n rate rs ts rs' w :
  session_wf w ->
  ph = "practice" \/ ph = "test" ->
  visible (dom w) <> screenDone ->
  generateTrials n rate rs = Some (ts, rs') ->
  session_wf (on_state (set_trials ts) (startPhase ph w)).
Proof.
  intros [W1 W2 W3 W4 W5 W6 WS WP W7 W8 W9] Hph Hv Hgen.
  constructor; simpl; try assumption.
  - right. exact Hph.
  - intros ->. destruct Hph; discriminate.
  - intros _. lia.
  - pose proof Hgen as Hlen. apply generateTrials_inv in Hlen.
    destruct Hlen as (Hlen & _).
    apply generate_from_indices in Hgen. rewrite Hgen, Hlen.
    apply map_ext. intros j. lia.
  - intros _. constructor.
  - intros Hd. contradiction.
  - intros Hd. contradiction.
  - constructor.
Qed.

Lemma session_wf_presentTrial w rs w' rs' :
  session_wf w -> phase (state w) <> "setup" ->
  presentTrial w rs = Some (w', rs') -> session_wf w'.
Proof.
  intros Hwf Hns H. apply presentTrial_inv in H.
  destruct H as [[Hpres Hnp] | (Hnone & Hprac & ts & rs1 & Hgen & Hpres)].
  - eapply session_wf_presented; [exact Hwf| |exact Hpres].
    intros Hnone. specialize (Hnp Hnone).
    destruct (wf_phase w Hwf) as [H | [H | H]]; [contradiction | contradiction | exact H].
  - eapply session_wf_presented; [| |exact Hpres].
    + eapply session_wf_batch; [exact Hwf | right; reflexivity | | exact Hgen].
      intros Hd. apply (wf_done w Hwf) in Hd. destruct Hd as [Hd _].
      rewrite Hprac in Hd. discriminate.
    + intros _. reflexivity.
Qed.

(** The world an accepted response hands to [recordAnswer]. *)
Lemma session_wf_accepted w :
  session_wf w ->
  session_wf (stopRecognition (lockChoices true (on_state (set_answered true) w))).
Proof.
  intros Hwf. rewrite stopRecognition_idle.
  - eapply session_wf_frame; [| | | | | | | | | |exact Hwf]; reflexivity.
  - exact (wf_rec w Hwf).
  - exact (wf_recActive w Hwf).
Qed.

Lemma take_snoc_lookup {A : Type} (l : list A) (i : nat) (x : A) :
  l !! i = Some x -> take (S i) l = take i l ++ [x].
Proof.
  revert i. induction l as [|a l IH]; intros i H; [discriminate|].
  destruct i as [|i]; simpl in *.
  - inversion H. reflexivity.
  - rewrite (IH i H). reflexivity.
Qed.

Lemma session_wf_answer_recorded e chosen trial w :
  session_wf w ->
  trials (state w) !! idx (state w) = Some trial ->
  session_wf (answer_recorded e chosen trial w)
  /\ phase (state (answer_recorded e chosen trial w)) <> "setup".
Proof.
  intros Hwf Ht. pose proof Hwf as [W1 W2 W3 W4 W5 W6 WS WP W7 W8 W9].
  assert (Hne : trials (state w) <> []).
  { intros He. rewrite He in Ht. discriminate. }
  assert (Hlt : (idx (state w) < length (trials (state w)))%nat).
  { apply lookup_lt_is_Some. eauto. }
  unfold answer_recorded. rewrite (stopRecognition_idle w W7 W8).
  split.
  - destruct (String.eqb (phase (state w)) "test") eqn:E.
    + apply String.eqb_eq in E.
      constructor; simpl; try assumption.
      * intros _. lia.
      * intros _. replace (idx (state w) + 1)%nat with (S (idx (state w))) by lia.
        rewrite (take_snoc_lookup _ _ _ Ht).
        apply Forall2_app; [apply W5; exact E|].
        constructor; [|constructor].
        unfold record_of, make_response. simpl. repeat split; reflexivity.
      * intros Hd. apply W6 in Hd. destruct Hd as [_ Hd]. congruence.
      * intros Hd. apply W6 in Hd. destruct Hd as [_ Hd]. congruence.
      * apply Forall_app. split; [exact WP|].
        constructor; [|constructor].
        unfold participant_of, make_response. simpl.
        destruct (participant (state w)). reflexivity.
    + apply String.eqb_neq in E.
      constructor; simpl; try assumption.
      * intros _. lia.
      * intros Hp. contradiction.
      * intros Hd. apply W6 in Hd. destruct Hd as [_ Hd]. congruence.
  - intros Hs.
    assert (Hs' : phase (state w) = "setup").
    { destruct (String.eqb (phase (state w)) "test"); exact Hs. }
    apply Hne. apply W2. exact Hs'.
Qed.

Lemma session_wf_recordAnswer e chosen w rs w' rs' :
  session_wf w -> recordAnswer e chosen w rs = Some (w', rs') -> session_wf w'.
Proof.
  intros Hwf H.
  destruct (trials (state w) !! idx (state w)) as [trial|] eqn:Et.
  - rewrite (recordAnswer_with_trial e chosen w trial Et) in H.
    destruct (session_wf_answer_recorded e chosen trial w Hwf Et) as [Hwf' Hns].
    eapply session_wf_presentTrial; eassumption.
  - rewrite (recordAnswer_without_trial e chosen w rs Et) in H.
    inversion H; subst.
    rewrite (stopRecognition_idle w (wf_rec w Hwf) (wf_recActive w Hwf)).
    apply session_wf_call; [reflexivity | exact Hwf].
Qed.

Lemma session_wf_start_prepared e i rs ts rs' w :
  session_wf w ->
  (if in_practiceToggle i
   then generateTrials (Num 2) (in_inconRate i)
   else generateTrials (in_nTrials i) (in_inconRate i)) rs = Some (ts, rs') ->
  session_wf (start_prepared e i ts w)
  /\ phase (state (start_prepared e i ts w)) <> "setup".
Proof.
  intros [W1 W2 W3 W4 W5 W6 WS WP W7 W8 W9] Hgen.
  assert (Hnum : map trial_index ts = map (fun j => Z.of_nat j + 1) (seq 0 (length ts))).
  { destruct (in_practiceToggle i);
      pose proof Hgen as Hlen; apply generateTrials_inv in Hlen;
      destruct Hlen as (Hlen & _);
      apply generate_from_indices in Hgen; rewrite Hgen, Hlen;
      apply map_ext; intros j; lia. }
  destruct (start_prepared_state e i ts w) as (Hph & Htr & Hidx & Hres & _).
  assert (Hns : phase (state (start_prepared e i ts w)) <> "setup").
  { rewrite Hph. destruct (in_practiceToggle i); discriminate. }
  split; [|exact Hns].
  constructor; rewrite ?Hph, ?Htr, ?Hidx, ?Hres.
  - right. destruct (in_practiceToggle i); [left | right]; reflexivity.
  - intros Hs. destruct (in_practiceToggle i); discriminate.
  - intros _. lia.
  - exact Hnum.
  - intros _. constructor.
  - unfold start_prepared. simpl. discriminate.
  - unfold start_prepared. simpl. discriminate.
  - constructor.
  - unfold start_prepared. simpl. destruct (in_practiceToggle i); exact W7.
  - unfold start_prepared. simpl. destruct (in_practiceToggle i); exact W8.
  - unfold start_prepared. simpl. destruct (in_practiceToggle i); exact W9.
Qed.

Lemma session_wf_fire_timer e k w : session_wf w -> session_wf (fire_timer e k w).
Proof.
  intros Hwf. unfold fire_timer. destruct (timers w !! k) as [tm|]; [|exact Hwf].
  unfold timer_callback.
  rewrite startRecognitionForTrial_idle by exact (wf_rec w Hwf).
  match goal with
  | |- session_wf (if ?b then call call_beep ?v else ?v) =>
      assert (Hv : session_wf v);
      [| destruct b; [apply session_wf_call; [reflexivity | exact Hv] | exact Hv]]
  end.
  eapply session_wf_frame; [| | | | | | | | | |exact Hwf]; reflexivity.
Qed.

Lemma session_wf_reset w : session_wf w -> session_wf (reset_session (stopRecognition w)).
Proof.
  intros Hwf. pose proof Hwf as [W1 W2 W3 W4 W5 W6 WS WP W7 W8 W9].
  rewrite (stopRecognition_idle w W7 W8).
  constructor; simpl; try assumption.
  - left. reflexivity.
  - reflexivity.
  - intros H. contradiction.
  - reflexivity.
  - discriminate.
  - discriminate.
  - discriminate.
  - constructor.
Qed.

Lemma session_wf_step mapSpeech e rs ev w w' :
  session_wf w -> step mapSpeech (e, rs, ev) w = Some w' -> session_wf w'.
Proof.
  intros Hwf Hstep. unfold step in Hstep.
  destruct (dispatch mapSpeech e ev w rs) as [[w1 rs1]|] eqn:Hd; [|discriminate].
  inversion Hstep; subst w1. clear Hstep.
  destruct (accepted_label mapSpeech ev w) as [chosen|] eqn:Ea.
  - rewrite (dispatch_accepted mapSpeech e ev w chosen Ea) in Hd.
    eapply session_wf_recordAnswer; [|exact Hd].
    apply session_wf_accepted. exact Hwf.
  - destruct ev as [i|k|c|tr| | | |]; simpl in Hd.
    + rewrite startTest_unfold in Hd. bind_inv Hd.
      destruct (session_wf_start_prepared e i rs a rs0 w Hwf Hm) as [Hwf' Hns].
      eapply session_wf_presentTrial; eassumption.
    + apply ret_Some in Hd. destruct Hd as [-> _].
      apply session_wf_fire_timer. exact Hwf.
    + change (onChoice e c w rs) with (dispatch mapSpeech e (ev_tap c) w rs) in Hd.
      rewrite (dispatch_discarded mapSpeech e (ev_tap c) w rs eq_refl Ea) in Hd.
      inversion Hd; subst. exact Hwf.
    + change (onresult mapSpeech e tr w rs)
        with (dispatch mapSpeech e (ev_result tr) w rs) in Hd.
      rewrite (dispatch_discarded mapSpeech e (ev_result tr) w rs eq_refl Ea) in Hd.
      inversion Hd; subst. exact Hwf.
    + apply ret_Some in Hd. destruct Hd as [-> _]. unfold onerror.
      rewrite stopRecognition_idle;
        [exact Hwf | exact (wf_rec w Hwf) | exact (wf_recActive w Hwf)].
    + apply ret_Some in Hd. destruct Hd as [-> _]. unfold onend.
      eapply session_wf_frame; [| | | | | | | | | |exact Hwf]; try reflexivity.
      simpl. symmetry. exact (wf_recActive w Hwf).
    + apply ret_Some in Hd. destruct Hd as [-> _]. unfold onAbort.
      rewrite stopRecognition_twice. apply session_wf_reset. exact Hwf.
    + apply ret_Some in Hd. destruct Hd as [-> _]. unfold onRestart.
      apply session_wf_reset. exact Hwf.
Qed.

Lemma session_invariant_holds mapSpeech w : session mapSpeech w -> session_wf w.
Proof.
  induction 1 as [d Hd | w e rs ev w' Hs IH Hstep].
  - constructor; simpl;
      [ left; reflexivity | reflexivity | intros H; contradiction | reflexivity
      | discriminate | rewrite Hd; discriminate | rewrite Hd; discriminate
      | constructor | reflexivity | reflexivity
      | constructor ].
  - eapply session_wf_step; eassumption.
Qed.

Lemma record_of_numbers rs ts :
  Forall2 record_of rs ts -> map r_trial rs = map trial_index ts.
Proof.
  induction 1 as [|r t rs ts Hr _ IH]; [reflexivity|].
  simpl. rewrite IH. destruct Hr as (-> & _). reflexivity.
Qed.

Lemma answered_world_session : session mapSpeechToColor answered_world.
Proof.
  apply (session_step mapSpeechToColor armed_world (env_at 1500) [1 # 5]%Q
           (ev_tap choice_A) answered_world); [|reflexivity].
  apply (session_step mapSpeechToColor started_world (env_at 1000) []
           (ev_timer 0%nat) armed_world); [|reflexivity].
  apply (session_step mapSpeechToColor initial_world (env_at 0) sample_draws
           (ev_start sample_inputs) started_world); [|reflexivity].
  apply session_initial. reflexivity.
Qed.

Lemma finished_world_session : session mapSpeechToColor finished_world.
Proof.
  apply (session_step mapSpeechToColor second_armed_world (env_at 2400) []
           (ev_tap choice_B) finished_world); [|reflexivity].
  apply (session_step mapSpeechToColor answered_world (env_at 2000) []
           (ev_timer 0%nat) second_armed_world); [|reflexivity].
  exact answered_world_session.
Qed.

(** X7: at every moment of the test phase of a session, whatever events led
    there, the results list holds exactly one record for each of the first
    [idx] trials of the batch, in the order of the batch: each record
    repeats the word, ink, congruency, choices and correct answer of its
    trial, its correctness flag says whether the response equals that
    correct answer, and the records are numbered 1, 2, ..., [idx]. *)
Theorem results_follow_the_trials mapSpeech w :
  session mapSpeech w -> phase (state w) = "test" ->
  Forall2 record_of (results (state w)) (take (idx (state w)) (trials (state w)))
  /\ length (results (state w)) = idx (state w)
  /\ (idx (state w) <= length (trials (state w)))%nat
  /\ map r_trial (results (state w))
     = map (fun j => Z.of_nat j + 1) (seq 0 (idx (state w))).
Proof.
  intros Hs Hph. apply session_invariant_holds in Hs.
  destruct Hs as [W1 W2 W3 W4 W5 W6 WS WP W7 W8 W9].
  assert (Hle : (idx (state w) <= length (trials (state w)))%nat).
  { apply W3. rewrite Hph. discriminate. }
  specialize (W5 Hph).
  repeat split; [exact W5 | | exact Hle |].
  - apply Forall2_length in W5. rewrite W5, length_take. lia.
  - rewrite (record_of_numbers _ _ W5), <- firstn_map, W4, firstn_map, take_seq.
    rewrite Nat.min_l by exact Hle. reflexivity.
Qed.

Lemma results_follow_the_trials_witness :
  Forall2 record_of (results (state answered_world))
          (take (idx (state answered_world)) (trials (state answered_world)))
  /\ length (results (state answered_world)) = idx (state answered_world)
  /\ (idx (state answered_world) <= length (trials (state answered_world)))%nat
  /\ map r_trial (results (state answered_world))
     = map (fun j => Z.of_nat j + 1) (seq 0 (idx (state answered_world))).
Proof.
  apply (results_follow_the_trials mapSpeechToColor answered_world).
  - exact answered_world_session.
  - reflexivity.
Defined.



(** X9: as the script stands no session ever uses speech recognition:
    [state.rec] is never assigned, so it stays [null], the active flag
    stays [false], and neither [start] nor [stop] of a recognizer is ever
    called, whatever the voice setting and whatever events arrive. *)
Theorem recognizer_is_never_used mapSpeech w :
  session mapSpeech w ->
  rec (state w) = false
  /\ recActive (state w) = false
  /\ Forall (fun c => recognizer_call c = false) (calls w).
Proof.
  intros Hs. apply session_invariant_holds in Hs.
  destruct Hs as [W1 W2 W3 W4 W5 W6 WS WP W7 W8 W9]. auto.
Qed.

Lemma recognizer_is_never_used_witness :
  rec (state finished_world) = false
  /\ recActive (state finished_world) = false
  /\ Forall (fun c => recognizer_call c = false) (calls finished_world).
Proof.
  apply (recognizer_is_never_used mapSpeechToColor finished_world).
  exact finished_world_session.
Defined.

(** X10: every record of a session carries the participant details the
    state holds, that is, those stored (trimmed) by the start of the run the
    record belongs to: the rows of an export agree on them. *)
Theorem records_carry_the_participant mapSpeech w :
  session mapSpeech w ->
  Forall (fun r => participant_of r = participant (state w)) (results (state w)).
Proof.
  intros Hs. apply session_invariant_holds in Hs. exact (wf_participant w Hs).
Qed.

Lemma records_carry_the_participant_witness :
  Forall (fun r => participant_of r = participant (state finished_world))
         (results (state finished_world)).
Proof.
  apply (records_carry_the_participant mapSpeechToColor finished_world).
  exact finished_world_session.
Defined.

(** ** The palette *)

Lemma redraw_until_different_palette a rs : forall b c rs',
  In b palette_names ->
  redraw_until_different a b rs = Some (c, rs') -> In c palette_names.
Proof.
  induction rs as [|r rs IH]; intros b c rs' Hb H; simpl in H.
  - destruct (String.eqb b a); [discriminate|]. inversion H; subst. exact Hb.
  - destruct (String.eqb b a).
    + destruct (random_color_name [r]) as [[b' l]|] eqn:E; [|discriminate].
      apply random_color_name_inv in E. destruct E as [Hb' _].
      eapply IH; [exact Hb' | exact H].
    + inversion H; subst. exact Hb.
Qed.

Lemma pickTwoDifferentColorNames_palette rs a b rs' :
  pickTwoDifferentColorNames rs = Some ((a, b), rs') ->
  In a palette_names /\ In b palette_names.
Proof.
  intros H. unfold pickTwoDifferentColorNames in H.
  bind_inv H. bind_inv H. bind_inv H.
  apply ret_Some in H. destruct H as [H ->]. inversion H; subst.
  apply random_color_name_inv in Hm. destruct Hm as [Ha _].
  apply random_color_name_inv in Hm0. destruct Hm0 as [Hb _].
  split; [exact Ha|]. eapply redraw_until_different_palette; eassumption.
Qed.

Lemma generate_one_palette i rate rs t rs' :
  generate_one i rate rs = Some (t, rs') -> palette_trial t.
Proof.
  intros H. unfold generate_one in H. bind_inv H. bind_inv H.
  destruct a0 as [wd ik].
  assert (Hp : In wd palette_names /\ In ik palette_names).
  { destruct (lt_num a rate).
    - eapply pickTwoDifferentColorNames_palette. exact Hm0.
    - bind_inv Hm0. apply ret_Some in Hm0. destruct Hm0 as [Hq _].
      inversion Hq; subst. apply random_color_name_inv in Hm1.
      destruct Hm1 as [Hw _]. split; exact Hw. }
  bind_inv H. apply shuffle_pair in Hm1.
  destruct Hm1 as [-> | ->]; simpl in H;
    apply ret_Some in H; destruct H as [-> _]; exact Hp.
Qed.

Lemma generate_from_palette k : forall i rate rs ts rs',
  generate_from k i rate rs = Some (ts, rs') -> Forall palette_trial ts.
Proof.
  induction k as [|k IH]; intros i rate rs ts rs' H; simpl in H.
  - apply ret_Some in H. destruct H as [-> _]. constructor.
  - bind_inv H. bind_inv H. apply ret_Some in H. destruct H as [-> _].
    constructor.
    + eapply generate_one_palette. exact Hm.
    + eapply IH. exact Hm0.
Qed.

Lemma palette_name_nonempty s : In s palette_names -> s <> "".
Proof.
  intros H E. subst. simpl in H. intuition discriminate.
Qed.

Lemma labels_nonempty t c :
  trial_invariant t -> palette_trial t -> label_of c t <> "".
Proof.
  intros (_ & _ & Hperm) [Hw Hi].
  assert (Hin : In (label_of c t) [word t; ink t]).
  { eapply Permutation_in; [exact Hperm|].
    destruct c; simpl; auto. }
  apply palette_name_nonempty.
  destruct Hin as [<- | [<- | []]]; assumption.
Qed.

Lemma palette_css s :
  In s palette_names ->
  In (mkColor s (getColorCssByName s)) COLORS /\ getColorCssByName s <> "#ffffff".
Proof.
  intros H. simpl in H.
  destruct H as [<- | [<- | [<- | [<- | []]]]];
    (split; [simpl; tauto | discriminate]).
Qed.

(** X11: every trial the generator returns is drawn from the palette: its
    word, its ink and both choice labels are among the four colour names,
    and the colour looked up for its ink is the css value of that palette
    entry, never the white fallback of [getColorCssByName]. *)
Theorem generated_trials_use_the_palette n rate rs ts rs' :
  generateTrials n rate rs = Some (ts, rs') ->
  Forall (fun t =>
            In (word t) palette_names /\ In (ink t) palette_names
            /\ In (choice_left t) palette_names /\ In (choice_right t) palette_names
            /\ In (mkColor (ink t) (getColorCssByName (ink t))) COLORS
            /\ getColorCssByName (ink t) <> "#ffffff") ts.
Proof.
  intros H. pose proof H as Hinv. apply generateTrials_inv in Hinv.
  destruct Hinv as (_ & Hinv & _).
  apply generate_from_palette in H.
  rewrite Forall_forall in *. intros t Ht.
  destruct (H t Ht) as [Hw Hi]. destruct (Hinv t Ht) as (_ & _ & Hperm).
  assert (Hin : forall s, In s [choice_left t; choice_right t] -> In s palette_names).
  { intros s Hs. apply (Permutation_in _ Hperm) in Hs.
    destruct Hs as [<- | [<- | []]]; assumption. }
  split; [exact Hw|]. split; [exact Hi|].
  split; [apply Hin; simpl; auto|]. split; [apply Hin; simpl; auto|].
  apply palette_css. exact Hi.
Qed.

Lemma generated_trials_use_the_palette_witness :
  Forall (fun t =>
            In (word t) palette_names /\ In (ink t) palette_names
            /\ In (choice_left t) palette_names /\ In (choice_right t) palette_names
            /\ In (mkColor (ink t) (getColorCssByName (ink t))) COLORS
            /\ getColorCssByName (ink t) <> "#ffffff")
         (trials (state started_world)).
Proof.
  apply (generated_trials_use_the_palette (Num 2) (Num (7 # 10)) sample_draws
           (trials (state started_world)) [(1 # 2)%Q]).
  reflexivity.
Defined.

(** ** A run answered to its end *)

Lemma pending_presented w w' : timers w = [] -> presented w w' -> pending w'.
Proof.
  intros Htm [trial r Ht Hu | Ht]; unfold pending.
  - simpl. rewrite Ht. split; [reflexivity|]. rewrite Htm. eexists. reflexivity.
  - rewrite finish_state.
    change (trials (set_recActive false (state w)) !! idx (set_recActive false (state w)))
      with (trials (state w) !! idx (state w)).
    rewrite Ht. apply finish_visible.
Qed.

Lemma fire_pending_timer e w t d :
  rec (state w) = false -> timers w = [mkTimer t d] ->
  state (fire_timer e 0 w) = set_t0 (now e) (state w)
  /\ timers (fire_timer e 0 w) = []
  /\ (forall c, value (button_of c (dom (fire_timer e 0 w))) = label_of c t).
Proof.
  intros Hrec Htm. unfold fire_timer. rewrite Htm. simpl.
  unfold timer_callback.
  rewrite startRecognitionForTrial_idle by exact Hrec.
  match goal with
  | |- context [if ?b then _ else _] => destruct b
  end; (split; [reflexivity|]); (split; [reflexivity|]); intros [|]; reflexivity.
Qed.

Lemma one_turn mapSpeech x w t :
  session_wf w -> phase (state w) = "test" ->
  trials (state w) !! idx (state w) = Some t ->
  pending w ->
  label_of (tapped x) t <> "" ->
  unit_draw (next_delay x) = true ->
  exists w',
    run mapSpeech (turn_events x) w = Some w'
    /\ session_wf w' /\ pending w'
    /\ phase (state w') = "test"
    /\ trials (state w') = trials (state w)
    /\ idx (state w') = S (idx (state w))
    /\ exists r,
         results (state w') = results (state w) ++ [r]
         /\ r_response r = label_of (tapped x) t
         /\ r_rt_ms r = Math_round (number_sub (now (tapped_at x)) (now (shown_at x))).
Proof.
  intros Hwf Hph Ht Hpend Hlab Hdraw.
  unfold pending in Hpend. rewrite Ht in Hpend. destruct Hpend as [Hans [d Htm]].
  destruct (fire_pending_timer (shown_at x) w t d (wf_rec w Hwf) Htm)
    as (Hst1 & Htm1 & Hval1).
  set (w1 := fire_timer (shown_at x) 0 w) in *.
  assert (Hwf1 : session_wf w1).
  { apply session_wf_fire_timer. exact Hwf. }
  assert (Hacc : accepted_label mapSpeech (ev_tap (tapped x)) w1
                 = Some (label_of (tapped x) t)).
  { simpl. rewrite Hval1, Hst1. simpl. rewrite Hans.
    apply String.eqb_neq in Hlab. rewrite Hlab. reflexivity. }
  set (w1' := stopRecognition (lockChoices true (on_state (set_answered true) w1))).
  assert (Hst1' : state w1' = set_recActive false (set_answered true (state w1))).
  { apply accepted_state. }
  assert (Ht1' : trials (state w1') !! idx (state w1') = Some t).
  { rewrite Hst1', Hst1. exact Ht. }
  assert (Hph1' : phase (state w1') = "test").
  { rewrite Hst1', Hst1. exact Hph. }
  destruct (presentTrial_returns_outside_practice
              (answer_recorded (tapped_at x) (label_of (tapped x) t) t w1')
              (next_delay x) [])
    as (w2 & rs2 & Hpt & Hpres); [|exact Hdraw|].
  { rewrite answer_recorded_phase, Hph1'. discriminate. }
  assert (Hstep2 : step mapSpeech (tapped_at x, [next_delay x], ev_tap (tapped x)) w1
                   = Some w2).
  { unfold step. rewrite (dispatch_accepted mapSpeech _ _ _ _ Hacc).
    fold w1'. rewrite (recordAnswer_with_trial _ _ _ _ Ht1'), Hpt. reflexivity. }
  exists w2. split.
  { unfold turn_events. rewrite run_cons.
    change (step mapSpeech (shown_at x, [], ev_timer 0%nat) w) with (Some w1).
    cbv beta iota. rewrite run_cons, Hstep2. reflexivity. }
  split; [eapply session_wf_step; [exact Hwf1 | exact Hstep2]|].
  destruct (answer_recorded_frame (tapped_at x) (label_of (tapped x) t) t w1')
    as (Htm2 & Htr2 & Hidx2).
  destruct (presented_trials _ _ Hpres) as (Htr3 & Hph3 & Hidx3 & _).
  split.
  { eapply pending_presented; [|exact Hpres].
    rewrite Htm2. unfold w1'. rewrite stopRecognition_timers. exact Htm1. }
  split; [rewrite Hph3, answer_recorded_phase; exact Hph1'|].
  split; [rewrite Htr3, Htr2, Hst1', Hst1; reflexivity|].
  split; [rewrite Hidx3, Hidx2, Hst1', Hst1; reflexivity|].
  eexists. split; [|split].
  - rewrite (presented_results _ _ Hpres), answer_recorded_results, Hph1'.
    change (String.eqb "test" "test") with true. cbv iota.
    rewrite Hst1' at 1. rewrite Hst1. reflexivity.
  - reflexivity.
  - unfold make_response. cbn [r_rt_ms]. rewrite Hst1', Hst1. reflexivity.
Qed.

Lemma all_turns mapSpeech : forall turns w,
  session_wf w -> phase (state w) = "test" -> pending w ->
  Forall (fun t => forall c, label_of c t <> "") (trials (state w)) ->
  length turns = (length (trials (state w)) - idx (state w))%nat ->
  Forall (fun x => unit_draw (next_delay x) = true) turns ->
  exists w',
    run mapSpeech (play turns) w = Some w'
    /\ visible (dom w') = screenDone
    /\ trials (state w') = trials (state w)
    /\ exists new,
         results (state w') = results (state w) ++ new
         /\ map r_response new
            = zip_with label_of (map tapped turns)
                       (drop (idx (state w)) (trials (state w)))
         /\ map r_rt_ms new
            = map (fun x => Math_round (number_sub (now (tapped_at x)) (now (shown_at x)))) turns.
Proof.
  induction turns as [|x turns IH]; intros w Hwf Hph Hpend Hlab Hlen Hdraw.
  - exists w. split; [reflexivity|].
    assert (Hle : (idx (state w) <= length (trials (state w)))%nat).
    { apply (wf_idx w Hwf). rewrite Hph. discriminate. }
    assert (Hnone : trials (state w) !! idx (state w) = None).
    { apply lookup_ge_None. simpl in Hlen. lia. }
    unfold pending in Hpend. rewrite Hnone in Hpend.
    split; [exact Hpend|]. split; [reflexivity|].
    exists []. rewrite app_nil_r. repeat split.
  - assert (Hsome : is_Some (trials (state w) !! idx (state w))).
    { apply lookup_lt_is_Some. simpl in Hlen. lia. }
    destruct Hsome as [t Ht].
    inversion Hdraw as [|? ? Hx Hrest]; subst.
    assert (Hl : label_of (tapped x) t <> "").
    { exact (Forall_lookup_1 _ _ _ _ Hlab Ht (tapped x)). }
    destruct (one_turn mapSpeech x w t Hwf Hph Ht Hpend Hl Hx)
      as (w1 & Hrun1 & Hwf1 & Hpend1 & Hph1 & Htr1 & Hidx1 & r & Hres1 & Hr1 & Hr2).
    destruct (IH w1 Hwf1 Hph1 Hpend1) as (w' & Hrun & Hvis & Htr & new & Hres & Hn1 & Hn2).
    + rewrite Htr1. exact Hlab.
    + rewrite Htr1, Hidx1. simpl in Hlen. lia.
    + exact Hrest.
    + exists w'. split.
      { change (play (x :: turns)) with (turn_events x ++ play turns).
        rewrite run_app, Hrun1. exact Hrun. }
      split; [exact Hvis|]. split; [rewrite Htr; exact Htr1|].
      exists (r :: new). split; [|split].
      * rewrite Hres, Hres1, <- app_assoc. reflexivity.
      * rewrite (drop_S _ _ _ Ht). simpl. rewrite Hr1, Hn1, Htr1, Hidx1. reflexivity.
      * simpl. rewrite Hr2, Hn2. reflexivity.
Qed.

(** X12: a run started with the practice block off, on a page with no timer
    pending, and answered to its end reaches the summary: when each trial's
    timer fires and the participant then clicks one of the two buttons, the
    script accepts every click, ends on the summary screen after the last
    one, and holds one record per trial whose response is the label of the
    button clicked and whose reaction time is the rounded difference of the
    two clock readings. *)
Theorem answering_every_trial_completes_the_run mapSpeech e i rs w w0 turns :
  session mapSpeech w -> timers w = [] ->
  in_practiceToggle i = false ->
  step mapSpeech (e, rs, ev_start i) w = Some w0 ->
  length turns = length (trials (state w0)) ->
  Forall (fun x => unit_draw (next_delay x) = true) turns ->
  exists w',
    run mapSpeech (play turns) w0 = Some w'
    /\ visible (dom w') = screenDone
    /\ trials (state w') = trials (state w0)
    /\ map r_response (results (state w'))
       = zip_with label_of (map tapped turns) (trials (state w0))
    /\ map r_rt_ms (results (state w'))
       = map (fun x => Math_round (number_sub (now (tapped_at x)) (now (shown_at x)))) turns.
Proof.
  intros Hs Htm Hprac Hstep Hlen Hdraw.
  apply session_invariant_holds in Hs.
  assert (Hwf0 : session_wf w0) by (eapply session_wf_step; eassumption).
  unfold step in Hstep. simpl in Hstep.
  destruct (startTest e i w rs) as [[w0' rs0]|] eqn:Hst; [|discriminate].
  inversion Hstep; subst w0'. clear Hstep.
  apply startTest_inv in Hst. destruct Hst as (ts & rs1 & Hgen & Hpres).
  rewrite Hprac in Hgen.
  destruct (start_prepared_state e i ts w) as (Hph & Htr & Hidx & Hres & _ & _ & Htm').
  rewrite Hprac in Hph.
  destruct (presented_trials _ _ Hpres) as (Htr0 & Hph0 & Hidx0 & _).
  rewrite Htr in Htr0. rewrite Hph in Hph0. rewrite Hidx in Hidx0.
  assert (Hlab : Forall (fun t => forall c, label_of c t <> "") (trials (state w0))).
  { rewrite Htr0. pose proof Hgen as Hinv. apply generateTrials_inv in Hinv.
    destruct Hinv as (_ & Hinv & _). apply generate_from_palette in Hgen.
    rewrite Forall_forall in *. intros t Hin c.
    apply labels_nonempty; auto. }
  destruct (all_turns mapSpeech turns w0 Hwf0 Hph0)
    as (w' & Hrun & Hvis & Htrs & new & Hnew & Hn1 & Hn2).
  - eapply pending_presented; [|exact Hpres]. rewrite Htm'. exact Htm.
  - exact Hlab.
  - rewrite Hidx0, Nat.sub_0_r. exact Hlen.
  - exact Hdraw.
  - exists w'. split; [exact Hrun|]. split; [exact Hvis|]. split; [exact Htrs|].
    rewrite (presented_results _ _ Hpres), Hres in Hnew. simpl in Hnew.
    rewrite Hidx0 in Hn1. simpl in Hn1.
    rewrite Hnew. split; [exact Hn1 | exact Hn2].
Qed.

Lemma sample_session_start : session mapSpeechToColor initial_world.
Proof. apply session_initial. reflexivity. Qed.

Lemma answering_every_trial_completes_the_run_witness :
  exists w',
    run mapSpeechToColor (play sample_turns) started_world = Some w'
    /\ visible (dom w') = screenDone
    /\ trials (state w') = trials (state started_world)
    /\ map r_response (results (state w'))
       = zip_with label_of (map tapped sample_turns) (trials (state started_world))
    /\ map r_rt_ms (results (state w'))
       = map (fun x => Math_round (number_sub (now (tapped_at x)) (now (shown_at x)))) sample_turns.
Proof.
  apply (answering_every_trial_completes_the_run mapSpeechToColor (env_at 0)
           sample_inputs sample_draws initial_world started_world sample_turns).
  - exact sample_session_start.
  - reflexivity.
  - reflexivity.
  - reflexivity.
  - reflexivity.
  - repeat constructor.
Defined.

(** ** Time stamp and export file name *)

Lemma all_chars_app p a b :
  all_chars p (a ++ b)%string = all_chars p a && all_chars p b.
Proof.
  induction a as [|c a IH]; simpl; [reflexivity|].
  rewrite IH. apply andb_assoc.
Qed.

Lemma all_chars_weaken (p q : ascii -> bool) s :
  (forall c, p c = true -> q c = true) -> all_chars p s = true -> all_chars q s = true.
Proof.
  intros Hpq. induction s as [|c s IH]; simpl; [reflexivity|].
  intros H. apply andb_true_iff in H. destruct H as [Hc Hs].
  rewrite (Hpq c Hc), (IH Hs). reflexivity.
Qed.

Lemma uint_chars u : all_chars is_filename_char (NilEmpty.string_of_uint u) = true.
Proof. induction u; simpl; try reflexivity; exact IHu. Qed.

Lemma string_of_Z_chars z : all_chars is_filename_char (string_of_Z z) = true.
Proof.
  unfold string_of_Z.
  assert (Hu : forall u, all_chars is_filename_char (NilZero.string_of_uint u) = true).
  { intros u. destruct u; try reflexivity; apply uint_chars. }
  destruct (Z.to_int z) as [u|u]; simpl.
  - apply Hu.
  - change (all_chars is_filename_char (NilZero.string_of_uint u) = true). apply Hu.
Qed.

Lemma repeat_char_chars p n c : p c = true -> all_chars p (repeat_char n c) = true.
Proof. intros H. induction n as [|n IH]; simpl; [reflexivity|]. rewrite H, IH. reflexivity. Qed.

Lemma pad2_chars n : all_chars is_filename_char (pad2 n) = true.
Proof.
  unfold pad2, padStart. rewrite all_chars_app, string_of_Z_chars.
  rewrite repeat_char_chars; reflexivity.
Qed.

Lemma keep_filename_chars_chars s :
  all_chars is_filename_char (keep_filename_chars s) = true.
Proof.
  induction s as [|c s IH]; simpl; [reflexivity|].
  destruct (is_filename_char c) eqn:E; [|exact IH].
  simpl. rewrite E, IH. reflexivity.
Qed.

Lemma slice_to_chars p n : forall s,
  all_chars p s = true -> all_chars p (slice_to n s) = true.
Proof.
  induction n as [|n IH]; intros [|c s] H; simpl; try reflexivity.
  simpl in H. apply andb_true_iff in H. destruct H as [Hc Hs].
  rewrite Hc, (IH s Hs). reflexivity.
Qed.

Lemma slice_to_length n : forall s, (String.length (slice_to n s) <= n)%nat.
Proof.
  induction n as [|n IH]; intros [|c s]; simpl; try lia.
  specialize (IH s). lia.
Qed.

Lemma slice_to_all n : forall s, (String.length s <= n)%nat -> slice_to n s = s.
Proof.
  induction n as [|n IH]; intros [|c s] H; simpl in *; try reflexivity; try lia.
  rewrite IH by lia. reflexivity.
Qed.

Lemma filename_char_not_space c : is_filename_char c = true -> is_space c = false.
Proof.
  destruct c as [[|] [|] [|] [|] [|] [|] [|] [|]]; vm_compute; congruence.
Qed.

Lemma trim_no_space s : all_chars (fun c => negb (is_space c)) s = true -> trim s = s.
Proof.
  intros H. unfold trim.
  assert (Hs : trimStart s = s).
  { destruct s as [|c s]; [reflexivity|]. simpl in *.
    apply andb_true_iff in H. destruct H as [Hc _].
    apply negb_true_iff in Hc. rewrite Hc. reflexivity. }
  rewrite Hs. clear Hs.
  induction s as [|c s IH]; [reflexivity|].
  simpl in H. apply andb_true_iff in H. destruct H as [Hc Hr].
  apply negb_true_iff in Hc.
  simpl. rewrite Hc. simpl. rewrite (IH Hr). reflexivity.
Qed.

Lemma underscore_no_space s :
  all_chars (fun c => negb (is_space c)) s = true -> underscore_from false s = s.
Proof.
  induction s as [|c s IH]; [reflexivity|].
  simpl. intros H. apply andb_true_iff in H. destruct H as [Hc Hr].
  apply negb_true_iff in Hc. rewrite Hc, (IH Hr). reflexivity.
Qed.

Lemma filename_no_space s :
  all_chars is_filename_char s = true ->
  all_chars (fun c => negb (is_space c)) s = true.
Proof.
  apply all_chars_weaken. intros c Hc.
  rewrite (filename_char_not_space c Hc). reflexivity.
Qed.

Lemma trim_filename s : all_chars is_filename_char s = true -> trim s = s.
Proof. intros H. apply trim_no_space, filename_no_space, H. Qed.

Lemma underscore_filename s :
  all_chars is_filename_char s = true -> underscore_from false s = s.
Proof. intros H. apply underscore_no_space, filename_no_space, H. Qed.

Lemma keep_filename s :
  all_chars is_filename_char s = true -> keep_filename_chars s = s.
Proof.
  induction s as [|c s IH]; [reflexivity|].
  simpl. intros H. apply andb_true_iff in H. destruct H as [Hc Hr].
  rewrite Hc, (IH Hr). reflexivity.
Qed.

Lemma safeFilename_chars s :
  all_chars is_filename_char (safeFilename s) = true
  /\ (String.length (safeFilename s) <= 40)%nat.
Proof.
  unfold safeFilename. split.
  - apply slice_to_chars, keep_filename_chars_chars.
  - apply slice_to_length.
Qed.

(** X13: whatever text it is given, [safeFilename] returns at most 40
    characters, each a letter, a digit, an underscore or a hyphen; a
    result that is not empty is left unchanged by a second application.
    The result is the sanitised default only for an empty or missing
    argument: a text that is not empty but holds neither a blank (the
    no-break space U+00A0 is one) nor a character of the class is
    sanitised to the empty string. *)
Theorem safeFilename_is_safe (s : option string) :
  all_chars is_filename_char (safeFilename s) = true
  /\ (String.length (safeFilename s) <= 40)%nat
  /\ (safeFilename s <> "" -> safeFilename (Some (safeFilename s)) = safeFilename s)
  /\ safeFilename None = "stroop" /\ safeFilename (Some "") = "stroop"
  /\ (forall x, x <> "" -> all_chars (fun c => negb (is_filename_char c || is_space c)) x = true ->
      safeFilename (Some x) = "").
Proof.
  destruct (safeFilename_chars s) as [Hc Hl].
  split; [exact Hc|]. split; [exact Hl|]. split; [|split; [reflexivity|split; [reflexivity|]]].
  - intros Hne. set (t := safeFilename s) in *.
    unfold safeFilename at 1. unfold or_else.
    destruct (String.eqb t "") eqn:E; [apply String.eqb_eq in E; contradiction|].
    rewrite (trim_filename t Hc). unfold underscore_spaces.
    rewrite (underscore_filename t Hc), (keep_filename t Hc).
    apply slice_to_all. exact Hl.
  - intros x Hx Hall. unfold safeFilename, or_else.
    destruct (String.eqb x "") eqn:E; [apply String.eqb_eq in E; contradiction|].
    assert (Hns : all_chars (fun c => negb (is_space c)) x = true).
    { revert Hall. apply all_chars_weaken. intros c Hcx.
      apply negb_true_iff in Hcx. apply orb_false_iff in Hcx.
      destruct Hcx as [_ ->]. reflexivity. }
    rewrite (trim_no_space x Hns). unfold underscore_spaces.
    rewrite (underscore_no_space x Hns).
    assert (Hk : keep_filename_chars x = "").
    { clear -Hall. induction x as [|c x IH]; [reflexivity|].
      simpl in Hall. apply andb_true_iff in Hall. destruct Hall as [Hcx Hr].
      apply negb_true_iff in Hcx. apply orb_false_iff in Hcx.
      destruct Hcx as [Hcx _]. simpl. rewrite Hcx. exact (IH Hr). }
    rewrite Hk. reflexivity.
Qed.

(** A no-break space is a blank: it becomes an underscore, and the
    accented letters around it are dropped. *)
Lemma safeFilename_no_break_space : safeFilename (Some accented_text) = "_".
Proof. reflexivity. Qed.

Lemma safeFilename_is_safe_witness :
  all_chars is_filename_char (safeFilename (Some " P 01/a ")) = true
  /\ (String.length (safeFilename (Some " P 01/a ")) <= 40)%nat
  /\ (safeFilename (Some " P 01/a ") <> "" ->
      safeFilename (Some (safeFilename (Some " P 01/a "))) = safeFilename (Some " P 01/a "))
  /\ safeFilename None = "stroop" /\ safeFilename (Some "") = "stroop"
  /\ (forall x, x <> "" ->
      all_chars (fun c => negb (is_filename_char c || is_space c)) x = true ->
      safeFilename (Some x) = "").
Proof. exact (safeFilename_is_safe (Some " P 01/a ")). Defined.

Lemma string_length_app (a b : string) :
  String.length (a ++ b)%string = (String.length a + String.length b)%nat.
Proof. induction a as [|c a IH]; simpl; [reflexivity|]. rewrite IH. reflexivity. Qed.

Lemma string_app_inv (a a' b b' : string) :
  String.length a = String.length a' ->
  (a ++ b = a' ++ b')%string -> a = a' /\ b = b'.
Proof.
  revert a'. induction a as [|c a IH]; intros [|c' a'] Hl H; simpl in *;
    try discriminate.
  - split; [reflexivity | exact H].
  - inversion H; subst. destruct (IH a') as [-> ->]; [lia | assumption | ].
    split; reflexivity.
Qed.

(** The text of an integer determines it. *)
Lemma string_of_Z_inj a b : string_of_Z a = string_of_Z b -> a = b.
Proof.
  unfold string_of_Z. intros H.
  assert (Hn : forall z, NilZero.int_of_string (NilZero.string_of_int (Z.to_int z))
                         = Some (Z.to_int z)).
  { intros z. apply NilZero.isi; destruct z; simpl; try discriminate;
      intros E; inversion E; eapply DecimalPos.Unsigned.to_uint_nonnil; eassumption. }
  apply DecimalZ.to_int_inj.
  pose proof (Hn a) as Ha. rewrite H, Hn in Ha. inversion Ha. reflexivity.
Qed.

Lemma in_range_nat lo n x :
  Z.of_nat lo <= x < Z.of_nat lo + Z.of_nat n -> In (Z.to_nat x) (seq lo n).
Proof. intros H. apply in_seq. lia. Qed.

Lemma pad2_length n : 0 <= n <= 99 -> String.length (pad2 n) = 2%nat.
Proof.
  intros H.
  assert (Hall : forallb (fun k => (String.length (pad2 (Z.of_nat k)) =? 2)%nat)
                         (seq 0 100) = true) by (vm_compute; reflexivity).
  rewrite forallb_forall in Hall.
  specialize (Hall (Z.to_nat n) (in_range_nat 0 100 n ltac:(lia))).
  rewrite Z2Nat.id in Hall by lia. apply Nat.eqb_eq. exact Hall.
Qed.

Lemma pad2_inj a b : 0 <= a <= 99 -> 0 <= b <= 99 -> pad2 a = pad2 b -> a = b.
Proof.
  intros Ha Hb H.
  assert (Hall : forallb (fun i =>
                    forallb (fun j =>
                       implb (String.eqb (pad2 (Z.of_nat i)) (pad2 (Z.of_nat j)))
                             (i =? j)%nat) (seq 0 100)) (seq 0 100) = true)
    by (vm_compute; reflexivity).
  rewrite forallb_forall in Hall.
  specialize (Hall (Z.to_nat a) (in_range_nat 0 100 a ltac:(lia))).
  rewrite forallb_forall in Hall.
  specialize (Hall (Z.to_nat b) (in_range_nat 0 100 b ltac:(lia))).
  rewrite !Z2Nat.id in Hall by lia.
  apply String.eqb_eq in H. rewrite H in Hall. simpl in Hall.
  apply Nat.eqb_eq in Hall. lia.
Qed.

Lemma year_length y : 1000 <= y <= 9999 -> String.length (string_of_Z y) = 4%nat.
Proof.
  intros H.
  assert (Hall : forallb (fun k => (String.length (string_of_Z (Z.of_nat k)) =? 4)%nat)
                         (seq (10 * 100) (90 * 100)) = true)
    by (vm_compute; reflexivity).
  rewrite forallb_forall in Hall.
  specialize (Hall (Z.to_nat y) (in_range_nat (10 * 100) (90 * 100) y ltac:(lia))).
  rewrite Z2Nat.id in Hall by lia. apply Nat.eqb_eq. exact Hall.
Qed.

(** X14: the file name of a download is [stroop_] followed by a body and
    the extension [.csv]; the body holds letters, digits, underscores and
    hyphens only, whatever the participant id and the condition are, so the
    name has no path separator and no dot but that of the extension.  With a
    calendar date of a four-digit year the name has between 26 and 106
    characters. *)
Theorem download_name_is_safe (p : Participant) (stamp : DateFields) :
  (exists body,
     download_name p stamp = ("stroop_" ++ body ++ ".csv")%string
     /\ all_chars is_filename_char body = true)
  /\ (calendar_date stamp ->
      (26 <= String.length (download_name p stamp) <= 106)%nat).
Proof.
  set (a := safeFilename (Some (or_else (p_id p) "participant"))).
  set (b := safeFilename (Some (or_else (p_condition p) "condition"))).
  set (t := (string_of_Z (getFullYear stamp) ++ pad2 (getMonth stamp + 1)
             ++ pad2 (getDate stamp) ++ "_" ++ pad2 (getHours stamp)
             ++ pad2 (getMinutes stamp))%string).
  assert (Hname : download_name p stamp
                  = ("stroop_" ++ (a ++ "_" ++ b ++ "_" ++ t) ++ ".csv")%string).
  { unfold download_name, join. fold a b t. simpl.
    rewrite !string_app_assoc. reflexivity. }
  assert (Ha : all_chars is_filename_char a = true /\ (String.length a <= 40)%nat).
  { destruct (safeFilename_chars (Some (or_else (p_id p) "participant"))); auto. }
  assert (Hb : all_chars is_filename_char b = true /\ (String.length b <= 40)%nat).
  { destruct (safeFilename_chars (Some (or_else (p_condition p) "condition"))); auto. }
  split.
  - exists (a ++ "_" ++ b ++ "_" ++ t)%string. split; [exact Hname|].
    unfold t. rewrite !all_chars_app, !pad2_chars, string_of_Z_chars.
    destruct Ha as [-> _]. destruct Hb as [-> _]. reflexivity.
  - intros (Hy & Hm & Hd & Hh & Hmi & _).
    rewrite Hname. unfold t. rewrite !string_length_app.
    rewrite (year_length _ Hy), !pad2_length by lia. simpl. lia.
Qed.

Lemma download_name_is_safe_witness :
  (exists body,
     download_name (participant (state finished_world)) sample_stamp
     = ("stroop_" ++ body ++ ".csv")%string
     /\ all_chars is_filename_char body = true)
  /\ (calendar_date sample_stamp ->
      (26 <= String.length (download_name (participant (state finished_world))
                                          sample_stamp) <= 106)%nat).
Proof.
  exact (download_name_is_safe (participant (state finished_world)) sample_stamp).
Defined.

(** X15: for a calendar date of a four-digit year the time stamp of a
    record has exactly 19 characters (year, month, day, hours, minutes and
    seconds at fixed places), and two such dates with the same stamp are the
    same: the stamp loses nothing of the six fields. *)
Theorem nowISO_fixed_width (d : DateFields) :
  calendar_date d ->
  String.length (nowISO d) = 19%nat
  /\ forall d', calendar_date d' -> nowISO d = nowISO d' -> d = d'.
Proof.
  intros (Hy & Hm & Hd & Hh & Hmi & Hs). split.
  - unfold nowISO. rewrite !string_length_app.
    rewrite (year_length _ Hy), !pad2_length by lia. reflexivity.
  - intros d' (Hy' & Hm' & Hd' & Hh' & Hmi' & Hs') H. unfold nowISO in H.
    repeat match type of H with
    | (?a ++ ?b = ?a' ++ ?b')%string =>
        let Ha := fresh "E" in
        apply string_app_inv in H;
        [ destruct H as [Ha H]
        | first [ rewrite !year_length by assumption; reflexivity
                | rewrite !pad2_length by lia; reflexivity
                | reflexivity ] ]
    end.
    apply string_of_Z_inj in E.
    apply pad2_inj in E1; [|lia|lia]. apply pad2_inj in E3; [|lia|lia].
    apply pad2_inj in E5; [|lia|lia]. apply pad2_inj in E7; [|lia|lia].
    apply pad2_inj in H; [|lia|lia].
    destruct d, d'. simpl in *. f_equal; lia.
Qed.

Lemma nowISO_fixed_width_witness :
  calendar_date sample_stamp
  /\ nowISO sample_stamp = "2024-05-01T10:00:07"
  /\ String.length (nowISO sample_stamp) = 19%nat
  /\ forall d', calendar_date d' -> nowISO sample_stamp = nowISO d' -> sample_stamp = d'.
Proof.
  assert (H : calendar_date sample_stamp) by (unfold calendar_date; simpl; lia).
  split; [exact H|]. split; [reflexivity|].
  apply (nowISO_fixed_width sample_stamp). exact H.
Defined.

(** ** The figures of the summary *)

(** X16: the accuracy [finish] computes is a proportion, and the figure it
    shows is a whole percentage between 0 and 100, for every results list. *)
Theorem accuracy_is_a_percentage (rs : list Response) :
  (0 <= accuracy rs <= 1)%Q
  /\ 0 <= Math_round (number_mul (accuracy rs) 100) <= 100.
Proof.
  pose proof (accuracy_unit rs) as Ha. split; [exact Ha|].
  apply percent_range. exact Ha.
Qed.

Lemma sum_values_perm l l' : Permutation l l' -> sum_values l = sum_values l'.
Proof.
  induction 1 as [|x l l' _ IH|x y l|l l' l'' _ IH1 _ IH2].
  - reflexivity.
  - rewrite !sum_values_cons, IH. reflexivity.
  - rewrite !sum_values_cons. lia.
  - congruence.
Qed.

Lemma sum_values_bounds lo hi l :
  Forall (fun v => lo <= v <= hi) l ->
  Z.of_nat (length l) * lo <= sum_values l <= Z.of_nat (length l) * hi.
Proof.
  induction 1 as [|x l Hx _ IH]; [unfold sum_values; simpl; lia|].
  rewrite sum_values_cons. simpl length. lia.
Qed.

(** Two ascending lists with the same elements are the same list. *)
Lemma sorted_perm_eq : forall l l',
  StronglySorted Z.le l -> StronglySorted Z.le l' -> Permutation l l' -> l = l'.
Proof.
  induction l as [|a l IH]; intros l' Hs Hs' Hp.
  - apply Permutation_nil in Hp. subst. reflexivity.
  - destruct l' as [|b l'].
    { apply Permutation_sym, Permutation_nil in Hp. discriminate. }
    inversion Hs as [|? ? Hsl Ha]; subst. inversion Hs' as [|? ? Hsl' Hb]; subst.
    assert (Hab : a = b).
    { assert (H1 : In b (a :: l)).
      { eapply Permutation_in; [apply Permutation_sym; exact Hp | left; reflexivity]. }
      assert (H2 : In a (b :: l')).
      { eapply Permutation_in; [exact Hp | left; reflexivity]. }
      rewrite List.Forall_forall in Ha, Hb.
      destruct H1 as [H1 | H1]; [exact H1|].
      destruct H2 as [H2 | H2]; [symmetry; exact H2|].
      pose proof (Ha b H1). pose proof (Hb a H2). lia. }
    subst b. f_equal. apply IH; [exact Hsl | exact Hsl' |].
    eapply Permutation_cons_inv. exact Hp.
Qed.

Lemma sort_ascending_perm_eq l l' :
  Permutation l l' -> sort_ascending l = sort_ascending l'.
Proof.
  intros Hp. apply sorted_perm_eq.
  - apply Sorted_StronglySorted; [intros x y z; apply Z.le_trans|].
    apply sort_ascending_sorted.
  - apply Sorted_StronglySorted; [intros x y z; apply Z.le_trans|].
    apply sort_ascending_sorted.
  - rewrite !sort_ascending_perm. exact Hp.
Qed.

(** X17: the mean and the median of the reaction times do not depend on
    the order in which the values are given. *)
Theorem statistics_ignore_order (values values' : list Z) :
  Permutation values values' ->
  mean values = mean values' /\ median values = median values'.
Proof.
  intros Hp. split.
  - unfold mean. rewrite (sum_values_perm _ _ Hp), (Permutation_length Hp).
    destruct values as [|v vs], values' as [|v' vs']; try reflexivity.
    + apply Permutation_nil in Hp. discriminate.
    + apply Permutation_sym, Permutation_nil in Hp. discriminate.
  - unfold median. rewrite (sort_ascending_perm_eq _ _ Hp).
    destruct values as [|v vs], values' as [|v' vs']; try reflexivity.
    + apply Permutation_nil in Hp. discriminate.
    + apply Permutation_sym, Permutation_nil in Hp. discriminate.
Qed.

Lemma statistics_ignore_order_witness :
  mean [300; 100; 200] = mean [100; 200; 300]
  /\ median [300; 100; 200] = median [100; 200; 300].
Proof.
  apply (statistics_ignore_order [300; 100; 200] [100; 200; 300]).
  apply perm_trans with [100; 300; 200]; [apply perm_swap|].
  apply perm_skip. apply perm_swap.
Defined.

Lemma nth_in_bounds lo hi l i :
  Forall (fun v => lo <= v <= hi) l -> (i < length l)%nat -> lo <= nth i l 0 <= hi.
Proof.
  intros Hall Hi. rewrite List.Forall_forall in Hall. apply Hall. apply nth_In. exact Hi.
Qed.

(** X18: the mean and the median of a list of values that is not empty are
    numbers, and both lie between the smallest and the largest value. *)
Theorem mean_and_median_between_extremes (values : list Z) (lo hi : Z) :
  values <> [] ->
  Forall (fun v => lo <= v <= hi) values ->
  exists m md,
    mean values = Num m /\ median values = Num md
    /\ (inject_Z lo <= m <= inject_Z hi)%Q
    /\ (inject_Z lo <= md <= inject_Z hi)%Q.
Proof.
  intros Hne Hall.
  destruct values as [|v vs]; [contradiction|]. set (values := v :: vs) in *.
  assert (Hn : (0 < inject_Z (Z.of_nat (length values)))%Q).
  { change 0%Q with (inject_Z 0). rewrite <- Zlt_Qlt. simpl. lia. }
  pose proof (sum_values_bounds lo hi values Hall) as [Hs1 Hs2].
  set (a := sort_ascending values).
  assert (Ha : Forall (fun x => lo <= x <= hi) a).
  { rewrite List.Forall_forall in *. intros x Hx. apply Hall.
    eapply Permutation_in; [apply sort_ascending_perm | exact Hx]. }
  assert (Hlen : length a = S (length vs)).
  { unfold a. rewrite sort_ascending_length. reflexivity. }
  exists (inject_Z (sum_values values) / inject_Z (Z.of_nat (length values)))%Q.
  exists (if (length a mod 2 =? 0)%nat
          then ((inject_Z (nth (length a / 2 - 1) a 0%Z)
                 + inject_Z (nth (length a / 2) a 0%Z)) / 2)%Q
          else inject_Z (nth (length a / 2) a 0%Z)).
  split; [reflexivity|]. split.
  { unfold median, values. fold values. fold a. cbv zeta.
    destruct (length a mod 2 =? 0)%nat; reflexivity. }
  split.
  - split.
    + apply Qle_shift_div_l; [exact Hn|]. rewrite <- inject_Z_mult, <- Zle_Qle. lia.
    + apply Qle_shift_div_r; [exact Hn|]. rewrite <- inject_Z_mult, <- Zle_Qle. lia.
  - assert (Hmid : (length a / 2 < length a)%nat).
    { apply Nat.div_lt; lia. }
    destruct (length a mod 2 =? 0)%nat eqn:E.
    + assert (Hmid' : (length a / 2 - 1 < length a)%nat) by lia.
      pose proof (nth_in_bounds lo hi a _ Ha Hmid) as [H1 H2].
      pose proof (nth_in_bounds lo hi a _ Ha Hmid') as [H3 H4].
      rewrite Zle_Qle in H1, H2, H3, H4.
      generalize dependent (inject_Z (nth (length a / 2) a 0)).
      generalize dependent (inject_Z (nth (length a / 2 - 1) a 0)).
      generalize (inject_Z lo) (inject_Z hi). clear.
      intros l h x H3 H4 y H1 H2. unfold Qdiv.
      change (/ 2)%Q with (1 # 2)%Q.
      split; lra.
    + pose proof (nth_in_bounds lo hi a _ Ha Hmid) as [H1 H2].
      rewrite Zle_Qle in H1, H2. split; assumption.
Qed.

Lemma mean_and_median_between_extremes_witness :
  exists m md,
    mean [300; 100; 200; 150] = Num m /\ median [300; 100; 200; 150] = Num md
    /\ (inject_Z 100 <= m <= inject_Z 300)%Q
    /\ (inject_Z 100 <= md <= inject_Z 300)%Q.
Proof.
  apply (mean_and_median_between_extremes [300; 100; 200; 150] 100 300).
  - discriminate.
  - repeat constructor; lia.
Defined.

(** ** Speech mapping: what a colour is read from *)

Lemma prefix_app_l a : forall b t,
  String.prefix (a ++ b)%string t = true -> String.prefix a t = true.
Proof.
  induction a as [|c a IH]; intros b t H; [destruct t; reflexivity|].
  destruct t as [|c' t]; simpl in *; [discriminate|].
  destruct (ascii_dec c c'); [|discriminate]. eapply IH. exact H.
Qed.

Lemma includes_unfold t k :
  includes t k
  = String.prefix k t
    || match t with
       | EmptyString => false
       | String _ t' => includes t' k
       end.
Proof. destruct t; reflexivity. Qed.

Lemma includes_prefix t k : String.prefix k t = true -> includes t k = true.
Proof. intros H. rewrite includes_unfold, H. reflexivity. Qed.

Lemma includes_tail c k : forall t,
  includes t (String c k) = true -> includes t k = true.
Proof.
  induction t as [|c' t IH]; intros H; rewrite includes_unfold in H;
    apply orb_true_iff in H; destruct H as [H | H]; try discriminate.
  - simpl in H. destruct (ascii_dec c c'); [|discriminate].
    rewrite includes_unfold. rewrite (includes_prefix t k H). apply orb_true_r.
  - rewrite includes_unfold. rewrite (IH H). apply orb_true_r.
Qed.

Lemma includes_app_l a b : forall t,
  includes t (a ++ b)%string = true -> includes t a = true.
Proof.
  induction t as [|c t IH]; intros H; rewrite includes_unfold in H;
    apply orb_true_iff in H; destruct H as [H | H]; try discriminate.
  - apply includes_prefix. eapply prefix_app_l. exact H.
  - apply includes_prefix. eapply prefix_app_l. exact H.
  - rewrite includes_unfold, (IH H). apply orb_true_r.
Qed.

Lemma substring_includes k : forall t n,
  substring n (String.length k) t = k -> includes t k = true.
Proof.
  induction t as [|c t IH]; intros n H.
  - destruct n; simpl in H; destruct k; try discriminate; reflexivity.
  - destruct n as [|n].
    + apply includes_prefix. apply prefix_correct. exact H.
    + simpl in H. rewrite includes_unfold, (IH n H). apply orb_true_r.
Qed.

Lemma lower_char_idem c : lower_char (lower_char c) = lower_char c.
Proof. destruct c as [[|] [|] [|] [|] [|] [|] [|] [|]]; reflexivity. Qed.

Lemma toLowerCase_idem s : toLowerCase (toLowerCase s) = toLowerCase s.
Proof.
  induction s as [|c s IH]; simpl; [reflexivity|].
  rewrite lower_char_idem, IH. reflexivity.
Qed.

(** X19: [mapSpeechToColor] returns a colour only for a transcript whose
    normal form (lower case, trimmed, punctuation removed, blanks
    collapsed) contains one of the table's words for that colour; it never
    answers from a transcript that holds none of them.  Its answer does not
    change when the letters of the transcript change to lower case. *)
Theorem mapSpeechToColor_reads_a_table_word (transcript : option string) :
  (forall c,
     mapSpeechToColor transcript = Some c ->
     exists kw, In (kw, c) speech_table
                /\ includes (normalizeSpeech transcript) kw = true)
  /\ mapSpeechToColor (option_map toLowerCase transcript) = mapSpeechToColor transcript.
Proof.
  split.
  - intros c H. unfold mapSpeechToColor in H.
    set (t := normalizeSpeech transcript) in *.
    destruct (find (fun kv => String.eqb t (fst kv)) speech_table) as [kv|] eqn:E1.
    + inversion H; subst. apply List.find_some in E1. destruct E1 as [Hin Heq].
      apply String.eqb_eq in Heq. exists (fst kv). split.
      * destruct kv. exact Hin.
      * rewrite Heq. apply includes_prefix. apply prefix_correct.
        clear. induction (fst kv) as [|a k IH]; simpl; [reflexivity|].
        rewrite IH. reflexivity.
    + destruct (find _ speech_table) as [kv|] eqn:E2 in H; [|discriminate].
      inversion H; subst. apply List.find_some in E2. destruct E2 as [Hin Hm].
      exists (fst kv). split; [destruct kv; exact Hin|].
      apply orb_true_iff in Hm. destruct Hm as [Hm | Hm];
        [apply orb_true_iff in Hm; destruct Hm as [Hm | Hm]|].
      * apply includes_tail with (c := " "%char). exact Hm.
      * unfold startsWith in Hm. apply includes_prefix.
        eapply prefix_app_l. exact Hm.
      * unfold endsWith in Hm. apply andb_true_iff in Hm. destruct Hm as [_ Hm].
        apply String.eqb_eq in Hm.
        apply includes_tail with (c := " "%char).
        eapply substring_includes. exact Hm.
  - destruct transcript as [s|]; [|reflexivity].
    unfold mapSpeechToColor, normalizeSpeech. simpl option_map. cbv iota.
    rewrite toLowerCase_idem. reflexivity.
Qed.

Lemma mapSpeechToColor_reads_a_table_word_witness :
  (forall c,
     mapSpeechToColor (Some "It is  BLUE!") = Some c ->
     exists kw, In (kw, c) speech_table
                /\ includes (normalizeSpeech (Some "It is  BLUE!")) kw = true)
  /\ mapSpeechToColor (option_map toLowerCase (Some "It is  BLUE!"))
     = mapSpeechToColor (Some "It is  BLUE!").
Proof. exact (mapSpeechToColor_reads_a_table_word (Some "It is  BLUE!")). Defined.

(** X20: [presentTrial] calls itself at most once, and only at the end of
    the practice block: the nested call runs in the test phase, where no
    further switch is made.  Two levels of nesting therefore give the
    result the script computes, whatever larger bound is allowed. *)
Theorem presentTrial_nests_once (depth : nat) (w : World) (rs : list Q) :
  (2 <= depth)%nat -> presentTrial_depth depth w rs = presentTrial w rs.
Proof.
  intros H. replace depth with (2 + (depth - 2))%nat by lia.
  apply presentTrial_depth_enough.
Qed.

Lemma presentTrial_nests_once_witness :
  presentTrial_depth 5 practice_world [(1 # 5)%Q] = presentTrial practice_world [(1 # 5)%Q].
Proof. apply (presentTrial_nests_once 5 practice_world [(1 # 5)%Q]). lia. Defined.

(** ** Response arbitration in a session *)

Lemma armed_world_session : session mapSpeechToColor armed_world.
Proof.
  apply (session_step mapSpeechToColor started_world (env_at 1000) []
           (ev_timer 0%nat) armed_world); [|reflexivity].
  apply (session_step mapSpeechToColor initial_world (env_at 0) sample_draws
           (ev_start sample_inputs) started_world); [|reflexivity].
  apply session_initial. reflexivity.
Qed.

(** In a world without a recognizer the responses that can arrive are the
    clicks. *)
Lemma response_is_tap w ev :
  rec (state w) = false -> is_response ev = true -> can_receive w ev ->
  exists c, ev = ev_tap c.
Proof.
  intros Hrec Hr Hc. destruct ev as [i|k|c|t| | | |]; try discriminate.
  - exists c. reflexivity.
  - simpl in Hc. congruence.
Qed.

(** C1: on one armed trial of a session, whatever response events arrive,
    the first one dispatched is accepted and no other is.  An event of
    either source that finds the latch set is discarded and leaves the world
    as it was.  On an armed trial the first response dispatched passes the
    guards of its handler: it sets the latch and is handed to [recordAnswer]
    once, and its handler returns on every valid, varied stream of draws;
    every response dispatched after it leaves the world as the first one
    left it; and in the test phase the results have grown by exactly one
    record, that of the first event.  The responses a session can receive
    are the clicks: the script assigns no recognizer, so no speech result is
    ever dispatched. *)
Theorem first_accepted_response_wins (mapSpeech : option string -> option string)
    (w : World) (e : Env) (rs : list Q) (ev : Event)
    (post : list (Env * list Q * Event)) (w1 : World) :
  session mapSpeech w ->
  armed w ->
  is_response ev = true -> can_receive w ev ->
  Forall (fun x => is_response (snd x) = true /\ can_receive w (snd x)) post ->
  step mapSpeech (e, rs, ev) w = Some w1 ->
  (forall e' ev' w' rs',
      is_response ev' = true -> answered (state w') = true ->
      dispatch mapSpeech e' ev' w' rs' = Some (w', rs'))
  /\ exists chosen,
       accepted_label mapSpeech ev w = Some chosen
       /\ dispatch mapSpeech e ev w = recordAnswer e chosen (latched w)
       /\ answered (state (latched w)) = true
       /\ returns (dispatch mapSpeech e ev w) (fun _ => True)
       /\ run mapSpeech ((e, rs, ev) :: post) w = Some w1
       /\ (forall trial,
             phase (state w) = "test" ->
             trials (state w) !! idx (state w) = Some trial ->
             results (state w1) =
             results (state w)
               ++ [make_response e (state w) trial chosen
                     (Math_round (number_sub (now e) (t0 (state w))))]).
Proof.
  intros Hs (Ha & HA & HB) Hr Hc Hpost Hstep.
  apply session_invariant_holds in Hs. pose proof (wf_rec w Hs) as Hrec.
  split.
  { intros e' ev' w' rs' Hr' Ha'. apply dispatch_discarded; [exact Hr'|].
    apply latch_discards. exact Ha'. }
  destruct (response_is_tap w ev Hrec Hr Hc) as [c ->].
  set (chosen := value (button_of c (dom w))).
  assert (Hne : chosen <> "").
  { unfold chosen. destruct c; assumption. }
  assert (Hacc : accepted_label mapSpeech (ev_tap c) w = Some chosen).
  { simpl. fold chosen. apply String.eqb_neq in Hne. rewrite Hne, Ha. reflexivity. }
  pose proof (dispatch_accepted mapSpeech e (ev_tap c) w chosen Hacc) as Hd.
  fold (latched w) in Hd.
  assert (Hlatch : answered (state (latched w)) = true).
  { unfold latched. rewrite accepted_state. reflexivity. }
  assert (Hrec1 : exists rs', recordAnswer e chosen (latched w) rs = Some (w1, rs')).
  { unfold step in Hstep. rewrite Hd in Hstep.
    destruct (recordAnswer e chosen (latched w) rs) as [[w' rs']|]; [|discriminate].
    inversion Hstep; subst. exists rs'. reflexivity. }
  destruct Hrec1 as (rs' & Hrec1).
  assert (Hrun : run mapSpeech ((e, rs, ev_tap c) :: post) w = Some w1).
  { rewrite run_cons, Hstep. apply run_discarded.
    assert (Hcl : closed_to_taps w1).
    { eapply recordAnswer_closed; [exact Hlatch | exact Hrec1]. }
    eapply Forall_impl; [exact Hpost|].
    intros [[e' rs''] ev'] [Hr' Hc']. simpl in Hr', Hc'. simpl snd.
    destruct (response_is_tap w ev' Hrec Hr' Hc') as [c' ->].
    split; [reflexivity|]. apply closed_discards_tap. exact Hcl. }
  exists chosen. split; [exact Hacc|]. split; [exact Hd|].
  split; [exact Hlatch|]. split; [|split; [exact Hrun|]].
  { rewrite Hd.
    destruct (trials (state (latched w)) !! idx (state (latched w))) as [trial|] eqn:Et.
    - rewrite (recordAnswer_with_trial e chosen (latched w) trial Et).
      apply returns_presentTrial.
    - intros s _ _ p. exists 0%nat. eexists. split; [exact I|].
      intros ext. apply (recordAnswer_without_trial e chosen (latched w) ext Et). }
  intros trial Hph Ht.
  apply recordAnswer_test_results with (trial := trial) in Hrec1.
  - unfold latched in Hrec1. rewrite accepted_state in Hrec1. exact Hrec1.
  - unfold latched. rewrite accepted_state. exact Ht.
  - unfold latched. rewrite accepted_state. exact Hph.
Qed.

(** C1 on the sample trial: the click on the left, then a click on the
    right and a second one on the left, which change nothing. *)
Lemma first_accepted_response_wins_witness :
  (forall e' ev' w' rs',
      is_response ev' = true -> answered (state w') = true ->
      dispatch mapSpeechToColor e' ev' w' rs' = Some (w', rs'))
  /\ exists chosen,
       accepted_label mapSpeechToColor (ev_tap choice_A) armed_world = Some chosen
       /\ dispatch mapSpeechToColor (env_at 1500) (ev_tap choice_A) armed_world
          = recordAnswer (env_at 1500) chosen (latched armed_world)
       /\ answered (state (latched armed_world)) = true
       /\ returns (dispatch mapSpeechToColor (env_at 1500) (ev_tap choice_A) armed_world)
                  (fun _ => True)
       /\ run mapSpeechToColor (tap_left :: [tap_right; tap_left]) armed_world
          = Some answered_world
       /\ (forall trial,
             phase (state armed_world) = "test" ->
             trials (state armed_world) !! idx (state armed_world) = Some trial ->
             results (state answered_world) =
             results (state armed_world)
               ++ [make_response (env_at 1500) (state armed_world) trial chosen
                     (Math_round (number_sub (now (env_at 1500))
                                             (t0 (state armed_world))))]).
Proof.
  apply (first_accepted_response_wins mapSpeechToColor armed_world (env_at 1500)
           [1 # 5]%Q (ev_tap choice_A) [tap_right; tap_left] answered_world).
  - exact armed_world_session.
  - repeat split; discriminate.
  - reflexivity.
  - exact I.
  - repeat constructor.
  - reflexivity.
Defined.

(** ** The reaction time of a recorded trial *)

Lemma fire_timer_stimulus e k w tm :
  timers w !! k = Some tm ->
  stimulus_text (dom (fire_timer e k w)) = word (tm_trial tm)
  /\ stimulus_color (dom (fire_timer e k w)) = getColorCssByName (ink (tm_trial tm))
  /\ (forall c, value (button_of c (dom (fire_timer e k w))) = label_of c (tm_trial tm)).
Proof.
  intros Hk. unfold fire_timer. rewrite Hk. unfold timer_callback.
  set (w2 := on_state (set_t0 (now e))
               (lockChoices false
                  (setStimulus (tm_trial tm) (set_timers (delete k (timers w)) w)))).
  destruct (startRecognitionForTrial_state e w2) as (b & _ & Hd & _).
  assert (H : forall w3, dom w3 = dom w2 ->
            dom (if beepFn (state w3) then call call_beep w3 else w3) = dom w2).
  { intros w3 H3. destruct (beepFn (state w3)); exact H3. }
  rewrite (H _ Hd). split; [reflexivity|]. split; [reflexivity|].
  intros [|]; reflexivity.
Qed.

(** C2 (as amended): the recorded reaction time is [Math.round] of the
    double-precision difference between the clock reading at the response
    and the reading stored by the timer callback that ran last.
    Presenting a trial leaves [t0] alone, so the delay is not part of the
    measurement, and the callback sets it.  A test-phase click at clock
    [now e1] after a timer fired at clock [now e0] appends a record for
    the current trial whose [rt_ms] is [Math_round (number_sub (now e1)
    (now e0))]: within half a millisecond of the double difference, which
    is within a rounding error of the exact one, and not negative when the
    clock did not run backwards.  When the timer of the current trial is
    the only one pending, the callback is the one that showed the stimulus
    of the recorded trial; this is so after a start made with no timer
    pending and after every trial of the test phase answered in its turn.
    A timer left over by an abort or a restart starts the clock as well. *)
Theorem reaction_time_from_stimulus_onset :
  (forall w rs w' rs', presentTrial w rs = Some (w', rs') -> t0 (state w') = t0 (state w))
  /\ (forall e0 k w tm, timers w !! k = Some tm -> t0 (state (fire_timer e0 k w)) = now e0)
  /\ (forall e0 e1 k c w tm trial rs w2 rs',
        timers w !! k = Some tm ->
        phase (state w) = "test" ->
        trials (state w) !! idx (state w) = Some trial ->
        answered (state w) = false ->
        value (button_of c (dom (fire_timer e0 k w))) <> "" ->
        onChoice e1 c (fire_timer e0 k w) rs = Some (w2, rs') ->
        exists r,
          results (state w2) = results (state w) ++ [r]
          /\ r_trial r = trial_index trial
          /\ r_response r = label_of c (tm_trial tm)
          /\ r_rt_ms r = Math_round (number_sub (now e1) (now e0))
          /\ (inject_Z (r_rt_ms r) - (1 # 2) <= number_sub (now e1) (now e0))%Q
          /\ (number_sub (now e1) (now e0) < inject_Z (r_rt_ms r) + (1 # 2))%Q
          /\ ((now e0 <= now e1)%Q -> 0 <= r_rt_ms r)
          /\ (forall N, 1 <= N <= 2 ^ 50 ->
                (0 <= now e1 - now e0 <= inject_Z N)%Q ->
                (Qabs (number_sub (now e1) (now e0) - (now e1 - now e0))
                 <= pow2 (Z.log2 N - 52))%Q))
  /\ (forall e0 w trial,
        trials (state w) !! idx (state w) = Some trial ->
        pending w ->
        (forall k tm, timers w !! k = Some tm -> k = 0%nat /\ tm_trial tm = trial)
        /\ t0 (state (fire_timer e0 0 w)) = now e0
        /\ stimulus_text (dom (fire_timer e0 0 w)) = word trial
        /\ stimulus_color (dom (fire_timer e0 0 w)) = getColorCssByName (ink trial)
        /\ (forall c, value (button_of c (dom (fire_timer e0 0 w))) = label_of c trial))
  /\ (forall mapSpeech e i rs w w0,
        timers w = [] ->
        step mapSpeech (e, rs, ev_start i) w = Some w0 -> pending w0)
  /\ (forall mapSpeech e0 e1 c r w trial,
        session mapSpeech w ->
        phase (state w) = "test" ->
        trials (state w) !! idx (state w) = Some trial ->
        pending w ->
        label_of c trial <> "" ->
        unit_draw r = true ->
        exists w',
          run mapSpeech [(e0, [], ev_timer 0%nat); (e1, [r], ev_tap c)] w = Some w'
          /\ pending w').
Proof.
  assert (Ht0 : forall e0 k w tm,
             timers w !! k = Some tm -> t0 (state (fire_timer e0 k w)) = now e0).
  { intros e0 k w tm Hk. unfold fire_timer. rewrite Hk.
    destruct (timer_callback_effect e0 (tm_trial tm) (set_timers (delete k (timers w)) w))
      as (b & -> & _). reflexivity. }
  split; [exact presentTrial_keeps_t0|]. split; [exact Ht0|].
  split; [|split; [|split]].
  - intros e0 e1 k c w tm trial rs w2 rs' Hk Hph Ht Ha Hv H.
    destruct (fire_timer_stimulus e0 k w tm Hk) as (_ & _ & Hlab).
    rewrite <- (Hlab c).
    unfold fire_timer in *. rewrite Hk in *.
    set (w1 := timer_callback e0 (tm_trial tm) (set_timers (delete k (timers w)) w)) in *.
    destruct (timer_callback_effect e0 (tm_trial tm) (set_timers (delete k (timers w)) w))
      as (b & Hs & _). fold w1 in Hs. simpl in Hs.
    rewrite onChoice_accepted in H; [|exact Hv|rewrite Hs; exact Ha].
    assert (Hs1 : state (stopRecognition (lockChoices true (on_state (set_answered true) w1)))
                  = set_recActive false (set_answered true (state w1))).
    { rewrite stopRecognition_state. reflexivity. }
    apply recordAnswer_test_results with (trial := trial) in H;
      [| rewrite Hs1, Hs; exact Ht | rewrite Hs1, Hs; exact Hph].
    rewrite Hs1, Hs in H. simpl in H.
    eexists. split; [exact H|]. simpl.
    split; [reflexivity|]. split; [reflexivity|]. split; [reflexivity|].
    pose proof (Math_round_nearest (number_sub (now e1) (now e0))) as [Hlo Hhi].
    split; [exact Hlo|]. split; [exact Hhi|]. split.
    + intros Hmono. apply Math_round_nonneg. apply number_sub_nonneg. exact Hmono.
    + intros N HN [Hd0 HdN]. unfold number_sub.
      apply binary64_error; assumption.
  - intros e0 w trial Ht Hpend. unfold pending in Hpend. rewrite Ht in Hpend.
    destruct Hpend as (_ & d & Htm).
    assert (Hk : timers w !! 0%nat = Some (mkTimer trial d)).
    { rewrite Htm. reflexivity. }
    split.
    + intros k tm H. rewrite Htm in H. destruct k as [|k]; [|discriminate].
      inversion H. split; reflexivity.
    + split; [exact (Ht0 e0 0%nat w _ Hk)|].
      exact (fire_timer_stimulus e0 0%nat w _ Hk).
  - intros mapSpeech e i rs w w0 Htm Hstep.
    unfold step in Hstep. simpl in Hstep.
    destruct (startTest e i w rs) as [[w0' rs0]|] eqn:Hst; [|discriminate].
    inversion Hstep; subst w0'. clear Hstep.
    apply startTest_inv in Hst. destruct Hst as (ts & rs1 & _ & Hpres).
    destruct (start_prepared_state e i ts w) as (_ & _ & _ & _ & _ & _ & Htm').
    eapply pending_presented; [|exact Hpres]. rewrite Htm'. exact Htm.
  - intros mapSpeech e0 e1 c r w trial Hs Hph Ht Hpend Hlab Hr.
    apply session_invariant_holds in Hs.
    destruct (one_turn mapSpeech (mkTurn e0 e1 c r) w trial Hs Hph Ht Hpend Hlab Hr)
      as (w' & Hrun & _ & Hp & _).
    exists w'. split; [exact Hrun | exact Hp].
Qed.

(** C2, the claim as stated fails.  After an abort and a second start made
    while the first timer is pending, the old timer fires first: it shows
    the old word, and the click that follows is recorded for the first
    trial of the new run (YELLOW in BLUE), timed from the old timer's
    firing at clock 375, while the timer of that trial is still pending:
    its stimulus never became visible.  And the difference is taken in
    double precision: a stimulus at 250.4 answered at 700.9 is recorded
    with 451 ms, where the difference of the two readings rounds to 450. *)
Lemma stale_timer_starts_the_clock :
  map (fun t => (trial_index t, word t, ink t)) (take 1 (trials (state restarted_world)))
  = [(1, "YELLOW", "BLUE")]
  /\ map (fun tm => word (tm_trial tm)) (timers restarted_world) = ["RED"; "YELLOW"]
  /\ option_map (fun w => stimulus_text (dom w))
                (step mapSpeechToColor stale_timer restarted_world)
     = Some "RED"
  /\ option_map (fun w => (map (fun r => (r_trial r, r_word r, r_ink_colour r,
                                          r_response r, r_rt_ms r))
                               (results (state w)),
                           map (fun tm => (trial_index (tm_trial tm), word (tm_trial tm)))
                               (timers w)))
                (run mapSpeechToColor [stale_timer; early_tap] restarted_world)
     = Some ([(1, "YELLOW", "BLUE", "RED", 125)], [(1, "YELLOW"); (2, "GREEN")])
  /\ option_map (fun w => map r_rt_ms (results (state w)))
                (run mapSpeechToColor [fractional_show; fractional_tap] started_world)
     = Some [451]
  /\ Math_round (binary64 (7009 # 10) - binary64 (2504 # 10)) = 450.
Proof. vm_compute. repeat split; reflexivity. Qed.

(** C2 on the sample trial: shown at clock 1000, answered at clock 1500, its
    timer the only one pending. *)
Lemma reaction_time_from_stimulus_onset_witness :
  (exists r,
     results (state answered_world) = results (state started_world) ++ [r]
     /\ r_trial r = 1
     /\ r_response r = "RED"
     /\ r_rt_ms r = Math_round (number_sub 1500 1000)
     /\ (inject_Z (r_rt_ms r) - (1 # 2) <= number_sub 1500 1000)%Q
     /\ (number_sub 1500 1000 < inject_Z (r_rt_ms r) + (1 # 2))%Q
     /\ ((1000 <= 1500)%Q -> 0 <= r_rt_ms r)
     /\ (forall N, 1 <= N <= 2 ^ 50 ->
           (0 <= 1500 - 1000 <= inject_Z N)%Q ->
           (Qabs (number_sub 1500 1000 - (1500 - 1000)) <= pow2 (Z.log2 N - 52))%Q))
  /\ ((forall k tm, timers started_world !! k = Some tm ->
         k = 0%nat
         /\ tm_trial tm = mkTrial 1 "RED" "GREEN" "incongruent" "RED" "GREEN" "GREEN")
      /\ t0 (state (fire_timer (env_at 1000) 0 started_world)) = 1000%Q
      /\ stimulus_text (dom (fire_timer (env_at 1000) 0 started_world)) = "RED"
      /\ stimulus_color (dom (fire_timer (env_at 1000) 0 started_world))
         = getColorCssByName "GREEN"
      /\ (forall c, value (button_of c (dom (fire_timer (env_at 1000) 0 started_world)))
                    = label_of c (mkTrial 1 "RED" "GREEN" "incongruent"
                                          "RED" "GREEN" "GREEN"))).
Proof.
  split.
  - apply (proj1 (proj2 (proj2 reaction_time_from_stimulus_onset))
             (env_at 1000) (env_at 1500) 0%nat choice_A started_world
             (mkTimer (mkTrial 1 "RED" "GREEN" "incongruent" "RED" "GREEN" "GREEN") 375)
             (mkTrial 1 "RED" "GREEN" "incongruent" "RED" "GREEN" "GREEN")
             [1 # 5]%Q answered_world []).
    + reflexivity.
    + reflexivity.
    + reflexivity.
    + reflexivity.
    + discriminate.
    + reflexivity.
  - apply (proj1 (proj2 (proj2 (proj2 reaction_time_from_stimulus_onset)))
             (env_at 1000) started_world
             (mkTrial 1 "RED" "GREEN" "incongruent" "RED" "GREEN" "GREEN")).
    + reflexivity.
    + split; [reflexivity|]. exists 375. reflexivity.
Defined.
